(** * First-Page: the AR view controller and the HTTPS server

    A shallow embedding of [src/components/ARScene.tsx] (the [useEffect]
    body of the [ARScene] component, its asynchronous [initAR], the
    [onResize] and [animate] closures and the returned cleanup function)
    and of the request listener of [server.js].

    The browser is single threaded: every callback runs to completion.
    The model therefore has one transition per callback the host can
    invoke (the effect, its cleanup, a script's [onload]/[onerror], the
    tracking library's completion callbacks, the loader's callbacks, a
    timer, a resize listener, an animation frame).  Each transition is the
    code of that callback, written in a small state-and-exception monad
    over the closure variables of one effect run (a [Session]) and the
    objects shared by all runs ([Globals]: the canvas behind [canvasRef],
    [window], the host's callback queues).  Everything the code does to
    the outside is appended to a log, so that orderings can be stated. *)

From Stdlib Require Import String ZArith QArith.
From stdpp Require Import base option list sets strings.

Local Open Scope string_scope.
Local Open Scope list_scope.
Local Open Scope Z_scope.
Local Open Scope nat_scope.

(** ** Data *)

(** The canvas element; the only part of it the code reads or writes is
    the [data-initialized] attribute ([None]: attribute absent). *)
Record Canvas := mkCanvas { data_initialized : option string }.

Definition getAttribute (c : Canvas) : option string := data_initialized c.
Definition setAttribute (v : string) (_ : Canvas) : Canvas := mkCanvas (Some v).
Definition removeAttribute (_ : Canvas) : Canvas := mkCanvas None.

(** JavaScript truthiness of what [getAttribute] returns: [null] and the
    empty string are falsy. *)
Definition truthy (a : option string) : bool :=
  match a with
  | None => false
  | Some s => negb (String.eqb s "")
  end.

Inductive TrackState := Live | Ended.
Record Track := mkTrack { readyState : TrackState }.
Definition MediaStream := list Track.
Definition stop (_ : Track) : Track := mkTrack Ended.

(** The video element of the tracking source. *)
Record Video := mkVideo { srcObject : option MediaStream }.

(** [interface ARjsSource]: [ready] and [domElement]. *)
Record Source := mkSource { ready : bool; domElement : option Video }.

(** [interface ARjsContext]: [arController] is [null] until the context
    is initialised; the projection matrix is an opaque token. *)
Definition Matrix := nat.
Record Context := mkContext { arController : bool; projection : Matrix }.

Record Renderer := mkRenderer { disposed : bool; size : Z * Z }.

Inductive Node := CameraNode | MarkerRootNode | AmbientLightNode | DirectionalLightNode.
Record Scene := mkScene { scene_visible : bool; scene_children : list Node }.
Record Camera := mkCamera { camera_visible : bool; projectionMatrix : Matrix }.

(** [gltf.scene] after [scale.set] and [position.y =]. *)
Record Model := mkModel { mesh : nat; scale : Q * Q * Q; position_y : Q }.
Record Group := mkGroup { group_children : list Model }.

(** What the two scripts leave in [window.THREEx]: which entry points
    exist, and whether this build's [ArToolkitSource.init] completes
    before it returns (then with which stream) or later. *)
Record THREExLib := mkLib {
  hasArToolkitContext : bool;
  hasArToolkitSource : bool;
  hasArMarkerControls : bool;
  initCompletesSync : option MediaStream
}.

(** Where [initAR] is suspended. *)
Inductive Pc := AwaitScript1 | AwaitScript2 | Returned.

Global Instance Pc_eq_dec : EqDecision Pc.
Proof. solve_decision. Defined.

(** The closure variables of one run of the effect (lines 54-60), the
    [markerRoot] local the loader callback captures, and [initAR]'s
    program point. *)
Record Session := mkSession {
  isMounted : bool;
  renderer : option Renderer;
  scene : option Scene;
  camera : option Camera;
  arToolkitSource : option Source;
  arToolkitContext : option Context;
  animationFrameId : option nat;
  markerRoot : option Group;
  pc : Pc
}.

(** Callbacks the host holds for a session. *)
Inductive Pending :=
| SourceInitCb (i : nat)
| ContextInitCb (i : nat)
| ModelLoadCb (i : nat)
| TimeoutCb (i : nat)
| FrameCb (id i : nat).

Global Instance Pending_eq_dec : EqDecision Pending.
Proof. solve_decision. Defined.

(** Calls that leave the component, in the order of the source. *)
Inductive Action :=
| SetWindowTHREE
| AppendScript (src : string)
| ConsoleError (msg : string)
| SetAttribute (name value : string)
| NewScene
| NewCamera
| SceneAdd (n : Node)
| NewWebGLRenderer (antialias alpha : bool)
| RendererSetSize (w h : Z)
| NewArToolkitSource (sourceType : string) (sourceWidth sourceHeight : Z)
| NewArToolkitContext (cameraParametersUrl detectionMode : string)
| SourceInit
| AddEventListener (type : string)
| ContextInit
| NewGroup
| NewArMarkerControls (type patternUrl : string)
| LoaderLoad (url : string)
| NewAmbientLight (color : Z) (intensity : Q)
| NewDirectionalLight (color : Z) (intensity : Q)
| LightPositionSet (x y z : Z)
| SetTimeout (ms : nat)
| OnResizeElement
| CopyElementSizeToRenderer
| CopyElementSizeToController
| ProjectionMatrixCopy (m : Matrix)
| GroupAdd (m : Model)
| RequestAnimationFrame (id : nat)
| ContextUpdate
| Render (sceneVisible cameraVisible : bool)
| CancelAnimationFrame (id : nat)
| TrackStop
| RendererDispose
| RemoveAttribute (name : string)
| Uncaught (err : string).

(** What the host does to the component. *)
Inductive Event :=
| Mount
| Unmount (i : nat)
| RefDetach
| ScriptLoaded (i : nat) (src : string) (threex : option THREExLib)
| ScriptError (i : nat) (src : string)
| SourceReady (i : nat) (stream : MediaStream)
| ContextReady (i : nat) (m : Matrix)
| ModelLoaded (i : nat) (gltf : nat)
| ModelError (i : nat) (err : string)
| TimerFired (i : nat)
| WindowResized (w h : Z)
| ResizeDispatched (i : nat)
| CameraVisibility (i : nat) (v : bool)
| FrameFired (id : nat)
| WebGLSupport (ok : bool).

Inductive Entry :=
| Host (e : Event)
| Did (i : nat) (a : Action).

(** The objects all sessions share.  [trace] is newest first; [webgl]
    says whether the host can give a canvas a WebGL context. *)
Record Globals := mkGlobals {
  canvasRef : option Canvas;
  THREEx : option THREExLib;
  innerSize : Z * Z;
  pending : list Pending;
  nextHandle : nat;
  resizeListeners : list nat;
  trace : list Entry;
  webgl : bool
}.

Record World := mkWorld { sessions : list Session; globals : Globals }.

(** *** Field updates *)

Definition set_isMounted (b : bool) (s : Session) : Session :=
  mkSession b (renderer s) (scene s) (camera s) (arToolkitSource s)
            (arToolkitContext s) (animationFrameId s) (markerRoot s) (pc s).
Definition set_renderer (r : option Renderer) (s : Session) : Session :=
  mkSession (isMounted s) r (scene s) (camera s) (arToolkitSource s)
            (arToolkitContext s) (animationFrameId s) (markerRoot s) (pc s).
Definition set_scene (x : option Scene) (s : Session) : Session :=
  mkSession (isMounted s) (renderer s) x (camera s) (arToolkitSource s)
            (arToolkitContext s) (animationFrameId s) (markerRoot s) (pc s).
Definition set_camera (x : option Camera) (s : Session) : Session :=
  mkSession (isMounted s) (renderer s) (scene s) x (arToolkitSource s)
            (arToolkitContext s) (animationFrameId s) (markerRoot s) (pc s).
Definition set_arToolkitSource (x : option Source) (s : Session) : Session :=
  mkSession (isMounted s) (renderer s) (scene s) (camera s) x
            (arToolkitContext s) (animationFrameId s) (markerRoot s) (pc s).
Definition set_arToolkitContext (x : option Context) (s : Session) : Session :=
  mkSession (isMounted s) (renderer s) (scene s) (camera s) (arToolkitSource s)
            x (animationFrameId s) (markerRoot s) (pc s).
Definition set_animationFrameId (x : option nat) (s : Session) : Session :=
  mkSession (isMounted s) (renderer s) (scene s) (camera s) (arToolkitSource s)
            (arToolkitContext s) x (markerRoot s) (pc s).
Definition set_markerRoot (x : option Group) (s : Session) : Session :=
  mkSession (isMounted s) (renderer s) (scene s) (camera s) (arToolkitSource s)
            (arToolkitContext s) (animationFrameId s) x (pc s).
Definition set_pc (x : Pc) (s : Session) : Session :=
  mkSession (isMounted s) (renderer s) (scene s) (camera s) (arToolkitSource s)
            (arToolkitContext s) (animationFrameId s) (markerRoot s) x.

Definition set_canvasRef (x : option Canvas) (g : Globals) : Globals :=
  mkGlobals x (THREEx g) (innerSize g) (pending g) (nextHandle g)
            (resizeListeners g) (trace g) (webgl g).
Definition set_THREEx (x : option THREExLib) (g : Globals) : Globals :=
  mkGlobals (canvasRef g) x (innerSize g) (pending g) (nextHandle g)
            (resizeListeners g) (trace g) (webgl g).
Definition set_innerSize (x : Z * Z) (g : Globals) : Globals :=
  mkGlobals (canvasRef g) (THREEx g) x (pending g) (nextHandle g)
            (resizeListeners g) (trace g) (webgl g).
Definition set_pending (x : list Pending) (g : Globals) : Globals :=
  mkGlobals (canvasRef g) (THREEx g) (innerSize g) x (nextHandle g)
            (resizeListeners g) (trace g) (webgl g).
Definition set_nextHandle (x : nat) (g : Globals) : Globals :=
  mkGlobals (canvasRef g) (THREEx g) (innerSize g) (pending g) x
            (resizeListeners g) (trace g) (webgl g).
Definition set_resizeListeners (x : list nat) (g : Globals) : Globals :=
  mkGlobals (canvasRef g) (THREEx g) (innerSize g) (pending g) (nextHandle g)
            x (trace g) (webgl g).
Definition set_trace (x : list Entry) (g : Globals) : Globals :=
  mkGlobals (canvasRef g) (THREEx g) (innerSize g) (pending g) (nextHandle g)
            (resizeListeners g) x (webgl g).
Definition set_webgl (x : bool) (g : Globals) : Globals :=
  mkGlobals (canvasRef g) (THREEx g) (innerSize g) (pending g) (nextHandle g)
            (resizeListeners g) (trace g) x.

(** ** The monad of callback bodies

    A callback reads and writes the closure variables of its session and
    the shared objects, and may throw; what it wrote before throwing
    stays written. *)

Inductive Result (A : Type) : Type :=
| Ok (a : A)
| Throw (err : string).
Arguments Ok {A} a.
Arguments Throw {A} err.

Definition M (A : Type) : Type := Session -> Globals -> Result A * Session * Globals.

Definition ret {A} (a : A) : M A := fun s g => (Ok a, s, g).

Definition bind {A B} (m : M A) (k : A -> M B) : M B :=
  fun s g =>
    match m s g with
    | (Ok a, s', g') => k a s' g'
    | (Throw e, s', g') => (Throw e, s', g')
    end.

Notation "x <- m ;; k" := (bind m (fun x => k))
  (at level 100, m at next level, right associativity).
Notation "m ;; k" := (bind m (fun _ => k))
  (at level 100, right associativity).

Definition throw {A} (e : string) : M A := fun s g => (Throw e, s, g).
Definition me : M Session := fun s g => (Ok s, s, g).
Definition env : M Globals := fun s g => (Ok g, s, g).
Definition setS (f : Session -> Session) : M unit := fun s g => (Ok tt, f s, g).
Definition setG (f : Globals -> Globals) : M unit := fun s g => (Ok tt, s, f g).

Definition log (e : Entry) (g : Globals) : Globals := set_trace (e :: trace g) g.

(** Session [i] performs [a]. *)
Definition act (i : nat) (a : Action) : M unit := setG (log (Did i a)).

(** The host keeps a callback for later. *)
Definition defer (p : Pending) : M unit :=
  setG (fun g => set_pending (pending g ++ [p]) g).

(** Reading a property of a variable that may still be [undefined]. *)
Definition deref {A} (name : string) (o : option A) : M A :=
  match o with
  | Some a => ret a
  | None => throw ("TypeError: " ++ name ++ " is undefined")
  end.

(** [THREEx?.f] used as a condition. *)
Definition entry (f : THREExLib -> bool) (x : option THREExLib) : bool :=
  match x with
  | Some l => f l
  | None => false
  end.

(** ** The component *)

Definition ar_js : string :=
  "https://cdn.jsdelivr.net/gh/AR-js-org/AR.js@3.4.5/three.js/build/ar.js".
Definition ar_threex_js : string :=
  "https://cdn.jsdelivr.net/gh/AR-js-org/AR.js@3.4.5/three.js/build/ar-threex.js".

(** Lines 54-60: [let isMounted = true] and six unassigned variables. *)
Definition closure : Session :=
  mkSession true None None None None None None None AwaitScript1.

(** Lines 67-75: the script element is appended to the head; the promise
    settles when the host reports [onload] or [onerror]. *)
Definition loadScript (i : nat) (src : string) : M unit :=
  act i (AppendScript src).

(** [initAR] up to its first [await] (lines 64 and 79). *)
Definition initAR (i : nat) : M unit :=
  act i SetWindowTHREE ;;
  loadScript i ar_js ;;
  setS (set_pc AwaitScript1).

(** The first [await] resolved: line 80. *)
Definition initAR_second_script (i : nat) : M unit :=
  loadScript i ar_threex_js ;;
  setS (set_pc AwaitScript2).

(** Either [await] rejected: lines 81-84. *)
Definition initAR_catch (i : nat) (src : string) : M unit :=
  act i (ConsoleError ("Failed to load script: " ++ src)) ;;
  setS (set_pc Returned).

Definition scene_add (i : nat) (n : Node) : M unit :=
  s <- me ;;
  sc <- deref "scene" (scene s) ;;
  setS (set_scene (Some (mkScene (scene_visible sc) (scene_children sc ++ [n])))) ;;
  act i (SceneAdd n).

(** [requestAnimationFrame(animate)]: a fresh non-zero handle. *)
Definition requestAnimationFrame (i : nat) : M nat :=
  g <- env ;;
  let id := nextHandle g in
  setG (set_nextHandle (S id)) ;;
  defer (FrameCb id i) ;;
  act i (RequestAnimationFrame id) ;;
  ret id.

Definition frame_handle (p : Pending) : option nat :=
  match p with
  | FrameCb id _ => Some id
  | _ => None
  end.

(** [cancelAnimationFrame(h)]; an [undefined] argument converts to 0,
    which is no callback's handle. *)
Definition cancelAnimationFrame (i : nat) (h : option nat) : M unit :=
  let id := default 0 h in
  setG (fun g => set_pending (filter (fun p => frame_handle p <> Some id) (pending g)) g) ;;
  act i (CancelAnimationFrame id).

(** Lines 158-164. *)
Definition animate (i : nat) : M unit :=
  s <- me ;;
  if negb (isMounted s) then ret tt else
  src <- deref "arToolkitSource" (arToolkitSource s) ;;
  if negb (ready src) then ret tt else
  id <- requestAnimationFrame i ;;
  setS (set_animationFrameId (Some id)) ;;
  _ <- deref "arToolkitContext" (arToolkitContext s) ;;
  act i ContextUpdate ;;
  sc <- deref "scene" (scene s) ;;
  cam <- deref "camera" (camera s) ;;
  setS (set_scene (Some (mkScene (camera_visible cam) (scene_children sc)))) ;;
  _ <- deref "renderer" (renderer s) ;;
  now <- me ;;
  sc' <- deref "scene" (scene now) ;;
  cam' <- deref "camera" (camera now) ;;
  act i (Render (scene_visible sc') (camera_visible cam')).

(** Lines 122-128. *)
Definition onResize (i : nat) : M unit :=
  s <- me ;;
  _ <- deref "arToolkitSource" (arToolkitSource s) ;;
  act i OnResizeElement ;;
  _ <- deref "renderer" (renderer s) ;;
  act i CopyElementSizeToRenderer ;;
  ctx <- deref "arToolkitContext" (arToolkitContext s) ;;
  if arController ctx then act i CopyElementSizeToController else ret tt.

(** The tracking source reports ready (the library sets [ready] and has
    attached the camera stream to its video element), then runs the
    callback of line 130. *)
Definition source_ready (i : nat) (stream : MediaStream) : M unit :=
  s <- me ;;
  _ <- deref "arToolkitSource" (arToolkitSource s) ;;
  setS (set_arToolkitSource (Some (mkSource true (Some (mkVideo (Some stream)))))) ;;
  act i (SetTimeout 500) ;;
  defer (TimeoutCb i).

(** Line 130: [init] creates the video element at once. *)
Definition source_init (i : nat) : M unit :=
  s <- me ;;
  g <- env ;;
  src <- deref "arToolkitSource" (arToolkitSource s) ;;
  act i SourceInit ;;
  setS (set_arToolkitSource (Some (mkSource (ready src) (Some (mkVideo None))))) ;;
  match THREEx g ≫= initCompletesSync with
  | Some stream => source_ready i stream
  | None => defer (SourceInitCb i)
  end.

(** The tracking context finished initialising (the library fills
    [arController] and its projection matrix), then the callback of
    lines 133-135. *)
Definition context_ready (i : nat) (m : Matrix) : M unit :=
  setS (fun s => match arToolkitContext s with
                 | Some _ => set_arToolkitContext (Some (mkContext true m)) s
                 | None => s
                 end) ;;
  s <- me ;;
  cam <- deref "camera" (camera s) ;;
  ctx <- deref "arToolkitContext" (arToolkitContext s) ;;
  setS (set_camera (Some (mkCamera (camera_visible cam) (projection ctx)))) ;;
  act i (ProjectionMatrixCopy (projection ctx)).

(** Lines 146-150. *)
Definition model_loaded (i : nat) (gltf : nat) : M unit :=
  s <- me ;;
  let model := mkModel gltf (1#10, 1#10, 1#10)%Q (1#2)%Q in
  root <- deref "markerRoot" (markerRoot s) ;;
  setS (set_markerRoot (Some (mkGroup (group_children root ++ [model])))) ;;
  act i (GroupAdd model).

(** Line 151. *)
Definition model_error (i : nat) (err : string) : M unit :=
  act i (ConsoleError ("An error happened: " ++ err)).

(** What [new THREE.WebGLRenderer] throws when the canvas cannot be
    given a WebGL context. *)
Definition webgl_error : string := "Error creating WebGL context.".

(** Lines 103-107: the constructor asks the canvas for a WebGL context
    at once and throws when the host has none to give.  [sz] is the size
    line 108 is about to set. *)
Definition newWebGLRenderer (i : nat) (sz : Z * Z) : M unit :=
  g <- env ;;
  if webgl g then
    setS (set_renderer (Some (mkRenderer false sz))) ;;
    act i (NewWebGLRenderer true true)
  else throw webgl_error.

(** [initAR] after the second [await]: lines 86-165.  Nothing catches
    what these lines throw: the promise of [initAR] rejects, and the
    host reports it. *)
Definition initAR_setup (i : nat) : M unit :=
  setS (set_pc Returned) ;;
  s <- me ;;
  g <- env ;;
  if negb (isMounted s) then ret tt else
  match canvasRef g with
  | None => ret tt
  | Some c =>
    if negb (entry hasArToolkitContext (THREEx g))
       || negb (entry hasArToolkitSource (THREEx g))
       || negb (entry hasArMarkerControls (THREEx g))
    then act i (ConsoleError "AR.js components on THREEx failed to load.")
    else
      setG (set_canvasRef (Some (setAttribute "true" c))) ;;
      act i (SetAttribute "data-initialized" "true") ;;
      setS (set_scene (Some (mkScene true []))) ;;
      act i NewScene ;;
      setS (set_camera (Some (mkCamera true 0))) ;;
      act i NewCamera ;;
      scene_add i CameraNode ;;
      newWebGLRenderer i (innerSize g) ;;
      act i (RendererSetSize (fst (innerSize g)) (snd (innerSize g))) ;;
      setS (set_arToolkitSource (Some (mkSource false None))) ;;
      act i (NewArToolkitSource "webcam" (fst (innerSize g)) (snd (innerSize g))) ;;
      setS (set_arToolkitContext (Some (mkContext false 0))) ;;
      act i (NewArToolkitContext "/data/camera_para.dat" "mono") ;;
      source_init i ;;
      setG (fun g => set_resizeListeners (resizeListeners g ++ [i]) g) ;;
      act i (AddEventListener "resize") ;;
      act i ContextInit ;;
      defer (ContextInitCb i) ;;
      setS (set_markerRoot (Some (mkGroup []))) ;;
      act i NewGroup ;;
      scene_add i MarkerRootNode ;;
      act i (NewArMarkerControls "pattern" "/data/patt.hiro") ;;
      act i (LoaderLoad "/my-model.glb") ;;
      defer (ModelLoadCb i) ;;
      act i (NewAmbientLight 16777215 (7#10)%Q) ;;
      scene_add i AmbientLightNode ;;
      act i (NewDirectionalLight 16777215 (1#2)%Q) ;;
      act i (LightPositionSet 1 1 1) ;;
      scene_add i DirectionalLightNode ;;
      animate i
  end.

(** [track.stop()] on every track of the stream (line 179). *)
Fixpoint stop_each (i : nat) (tracks : list Track) : M unit :=
  match tracks with
  | [] => ret tt
  | _ :: rest => act i TrackStop ;; stop_each i rest
  end.

(** The cleanup function the effect returns: lines 170-184. *)
Definition cleanup (i : nat) : M unit :=
  setS (set_isMounted false) ;;
  s <- me ;;
  cancelAnimationFrame i (animationFrameId s) ;;
  match arToolkitSource s with
  | Some src =>
    match domElement src with
    | Some video =>
      match srcObject video with
      | Some tracks =>
        stop_each i tracks ;;
        setS (set_arToolkitSource
                (Some (mkSource (ready src) (Some (mkVideo (Some (map stop tracks)))))))
      | None => ret tt
      end
    | None => ret tt
    end
  | None => ret tt
  end ;;
  match renderer s with
  | Some r => setS (set_renderer (Some (mkRenderer true (size r)))) ;; act i RendererDispose
  | None => ret tt
  end ;;
  g <- env ;;
  match canvasRef g with
  | Some c =>
    setG (set_canvasRef (Some (removeAttribute c))) ;;
    act i (RemoveAttribute "data-initialized")
  | None => ret tt
  end.

(** The effect itself, lines 45-169.  Effects only run in a browser,
    where [window] is defined, so the first guard is the test of the ref.
    When a guard returns early no session comes into being and no cleanup
    function is handed to the host; otherwise [initAR] runs to its first
    [await]. *)
Definition effect (w : World) : World :=
  match canvasRef (globals w) with
  | None => w
  | Some c =>
    if truthy (getAttribute c) then w
    else
      let i := length (sessions w) in
      let '(_, s, g) := initAR i closure (globals w) in
      mkWorld (sessions w ++ [s]) g
  end.

(** Whoever owns the camera object (the tracking library, for the
    objects it controls) shows or hides it between two callbacks. *)
Definition set_camera_visible (v : bool) : M unit :=
  setS (fun s => match camera s with
                 | Some c => set_camera (Some (mkCamera v (projectionMatrix c))) s
                 | None => s
                 end).

(** ** The host

    One transition per callback.  A callback of session [i] runs on that
    session's variables; what it throws is reported by the host and goes
    no further. *)

Definition run_in (i : nat) (m : M unit) (w : World) : option World :=
  match sessions w !! i with
  | None => None
  | Some s =>
    let '(r, s', g) := m s (globals w) in
    let g' := match r with
              | Ok _ => g
              | Throw e => log (Did i (Uncaught e)) g
              end in
    Some (mkWorld (<[i:=s']> (sessions w)) g')
  end.

(** The host invokes a callback it holds, once. *)
Definition fire (p : Pending) (i : nat) (m : M unit) (w : World) : option World :=
  if bool_decide (p ∈ pending (globals w)) then
    run_in i m (mkWorld (sessions w)
                        (set_pending (filter (fun q => q <> p) (pending (globals w)))
                                     (globals w)))
  else None.

(** The script a suspended [initAR] is waiting for. *)
Definition awaited (p : Pc) : option string :=
  match p with
  | AwaitScript1 => Some ar_js
  | AwaitScript2 => Some ar_threex_js
  | Returned => None
  end.

Definition resume (i : nat) (p : Pc) : M unit :=
  match p with
  | AwaitScript1 => initAR_second_script i
  | AwaitScript2 => initAR_setup i
  | Returned => ret tt
  end.

Definition session_pc (w : World) (i : nat) : option Pc := pc <$> sessions w !! i.

Definition frame_owner (id : nat) (ps : list Pending) : option nat :=
  match list_find (fun p => frame_handle p = Some id) ps with
  | Some (_, FrameCb _ i) => Some i
  | _ => None
  end.

Definition handle (e : Event) (w : World) : option World :=
  match e with
  | Mount => Some (effect w)
  | Unmount i =>
    match sessions w !! i with
    | Some s => if isMounted s then run_in i (cleanup i) w else None
    | None => None
    end
  | RefDetach => Some (mkWorld (sessions w) (set_canvasRef None (globals w)))
  | ScriptLoaded i src lib =>
    match session_pc w i with
    | Some p =>
      if bool_decide (awaited p = Some src) then
        run_in i (resume i p) (mkWorld (sessions w) (set_THREEx lib (globals w)))
      else None
    | None => None
    end
  | ScriptError i src =>
    match session_pc w i with
    | Some p =>
      if bool_decide (awaited p = Some src) then run_in i (initAR_catch i src) w
      else None
    | None => None
    end
  | SourceReady i stream => fire (SourceInitCb i) i (source_ready i stream) w
  | ContextReady i m => fire (ContextInitCb i) i (context_ready i m) w
  | ModelLoaded i gltf => fire (ModelLoadCb i) i (model_loaded i gltf) w
  | ModelError i err => fire (ModelLoadCb i) i (model_error i err) w
  | TimerFired i => fire (TimeoutCb i) i (onResize i) w
  | WindowResized x y => Some (mkWorld (sessions w) (set_innerSize (x, y) (globals w)))
  | ResizeDispatched i =>
    if bool_decide (i ∈ resizeListeners (globals w)) then run_in i (onResize i) w
    else None
  | CameraVisibility i v => run_in i (set_camera_visible v) w
  | FrameFired id =>
    match frame_owner id (pending (globals w)) with
    | Some i => fire (FrameCb id i) i (animate i) w
    | None => None
    end
  | WebGLSupport ok => Some (mkWorld (sessions w) (set_webgl ok (globals w)))
  end.

Definition step (e : Event) (w : World) : option World :=
  handle e (mkWorld (sessions w) (log (Host e) (globals w))).

Fixpoint run (es : list Event) (w : World) : option World :=
  match es with
  | [] => Some w
  | e :: rest =>
    match step e w with
    | Some w' => run rest w'
    | None => None
    end
  end.

(** The page as the browser first shows it: the canvas the component
    rendered (if any), a window of some size, nothing loaded, WebGL
    available (a host without it starts with [WebGLSupport false]). *)
Definition initial (c : option Canvas) (sz : Z * Z) : World :=
  mkWorld [] (mkGlobals c None sz [] 1 [] [] true).

(** A library build whose three entry points exist and whose source
    becomes ready some time after [init] has returned. *)
Definition arjs : THREExLib := mkLib true true true None.

(** The same, with a source that is ready when [init] returns. *)
Definition arjs_sync : THREExLib := mkLib true true true (Some [mkTrack Live]).

Definition blank : option Canvas := Some (mkCanvas None).

Definition loaded (i : nat) (lib : THREExLib) : list Event :=
  [ScriptLoaded i ar_js (Some lib); ScriptLoaded i ar_threex_js (Some lib)].

(** ** The HTTPS server ([server.js])

    The request listener passed to [createServer].  The framework's
    request handler and [url.parse] are not part of the repository: they
    are parameters, free to change the response and to throw (or, for
    the handler, to return a promise that rejects).  The response is
    Node's: its status line goes out once, with the first write or with
    [end], and a finished response takes no more data. *)

Module Server.

Record Request := mkRequest { url : string }.

(** How far the response has got on the wire: nothing sent, the status
    line and headers sent (with the status code they carry), or
    finished. *)
Inductive Progress :=
| NotSent
| HeadersSent (status : Z)
| Finished (status : Z).

(** The response object: the [statusCode] property, what has gone out,
    the body chunks sent, and the errors the object has raised. *)
Record Response := mkResponse {
  statusCode : Z;
  progress : Progress;
  body : list string;
  raisedErrors : list string
}.

(** [res.statusCode = c]: a property of the object; it only reaches the
    client if the headers are still to be sent. *)
Definition set_statusCode (c : Z) (res : Response) : Response :=
  mkResponse c (progress res) (body res) (raisedErrors res).

(** [res.end(data)]: sends the headers with the current status code
    unless they went out before, sends [data] and finishes the response.
    On a finished response nothing is sent, and the response raises
    [ERR_STREAM_WRITE_AFTER_END] (an [error] event, which no listener
    of [server.js] handles). *)
Definition end_ (data : string) (res : Response) : Response :=
  match progress res with
  | NotSent =>
    mkResponse (statusCode res) (Finished (statusCode res)) (body res ++ [data])
               (raisedErrors res)
  | HeadersSent c =>
    mkResponse (statusCode res) (Finished c) (body res ++ [data]) (raisedErrors res)
  | Finished c =>
    mkResponse (statusCode res) (Finished c) (body res)
               (raisedErrors res ++ ["ERR_STREAM_WRITE_AFTER_END"])
  end.

(** The status code the client has received, if any. *)
Definition on_wire (res : Response) : option Z :=
  match progress res with
  | NotSent => None
  | HeadersSent c | Finished c => Some c
  end.

(** What a call of the listener leaves: how its promise settled, the
    response, and what went to the console. *)
Record Outcome := mkOutcome {
  settled_as : Result unit;
  response : Response;
  console : list (list string)
}.

Section Listener.

Variable parse : string -> bool -> Result string.
Variable handle : Request -> Response -> string -> Result unit * Response.

(** The [catch] block, lines 22-26. *)
Definition on_error (req : Request) (err : string) (res : Response) : Outcome :=
  mkOutcome (Ok tt)
            (end_ "internal server error" (set_statusCode 500 res))
            [["Error occurred handling"; url req; err]].

(** Lines 18-26. *)
Definition listener (req : Request) (res : Response) : Outcome :=
  match parse (url req) true with
  | Throw err => on_error req err res
  | Ok parsedUrl =>
    match handle req res parsedUrl with
    | (Ok _, res') => mkOutcome (Ok tt) res' []
    | (Throw err, res') => on_error req err res'
    end
  end.

(** What was thrown while the request was handled, if anything, and the
    response as it was at that moment. *)
Definition thrown (req : Request) (res : Response) : option (string * Response) :=
  match parse (url req) true with
  | Throw err => Some (err, res)
  | Ok parsedUrl =>
    match handle req res parsedUrl with
    | (Ok _, _) => None
    | (Throw err, res') => Some (err, res')
    end
  end.

End Listener.

(** The response as Node hands it to the listener. *)
Definition fresh : Response := mkResponse 200 NotSent [] [].

(** The claim as the specification words it: the client gets status
    code 500 and the generic body, and nothing else. *)
Definition generic_500 (res : Response) : Prop :=
  on_wire res = Some 500%Z /\ body res = ["internal server error"].

End Server.

(** ** Start-up of the server ([server.js], lines 8-17 and 27-31)

    The script from its first statement to the callback of [listen].
    The environment, the file system, the framework and the network are
    not part of the repository: [process.env.NODE_ENV], [__dirname],
    [path.join], [fs.readFileSync], the way the promise of
    [app.prepare()] settles and the argument the host passes to the
    callback of [listen] are parameters. *)

Module Startup.

(** Calls that leave the script. *)
Inductive Call :=
| Next (dev : bool)
| GetRequestHandler
| ReadFileSync (path : string)
| Prepare
| CreateServer (key cert : string)
| Listen (port : Z) (host : string)
| ConsoleLog (msg : string).

(** What a run of the script leaves: the calls it made, oldest first,
    and the exception that ended it, if any. *)
Record Run := mkRun { calls : list Call; thrown : option string }.

Section Script.

Variable NODE_ENV : option string.
Variable dirname : string.
Variable join : string -> string -> string.
Variable readFileSync : string -> Result string.
Variable prepare : Result unit.
Variable listening : option string.

(** Line 8. *)
Definition dev : bool := negb (bool_decide (NODE_ENV = Some "production")).

Definition key_path : string := join dirname "localhost+3-key.pem".
Definition cert_path : string := join dirname "localhost+3.pem".

(** The callback of [listen], lines 27-31. *)
Definition on_listening (err : option string) : Run :=
  match err with
  | Some e => mkRun [] (Some e)
  | None =>
    mkRun [ConsoleLog "> Ready on https://localhost:3000";
           ConsoleLog "> To access from your phone, find your PC's local IP address and open https://<your-pc-ip>:3000"]
          None
  end.

(** Lines 8-32, in the order the statements run. *)
Definition main : Run :=
  let started := [Next dev; GetRequestHandler; ReadFileSync key_path] in
  match readFileSync key_path with
  | Throw e => mkRun started (Some e)
  | Ok key =>
    match readFileSync cert_path with
    | Throw e => mkRun (started ++ [ReadFileSync cert_path]) (Some e)
    | Ok cert =>
      match prepare with
      | Throw e => mkRun (started ++ [ReadFileSync cert_path; Prepare]) (Some e)
      | Ok _ =>
        let r := on_listening listening in
        mkRun (started ++ [ReadFileSync cert_path; Prepare;
                           CreateServer key cert; Listen 3000 "0.0.0.0"]
                       ++ calls r)
              (thrown r)
      end
    end
  end.

End Script.

End Startup.

(** * Vocabulary of the properties *)

(** ** What the cleanup leaves behind *)

Definition stopped (s : Session) : Prop :=
  forall src video tracks t,
    arToolkitSource s = Some src -> domElement src = Some video ->
    srcObject video = Some tracks -> t ∈ tracks -> readyState t = Ended.

Definition released (s : Session) : Prop :=
  forall r, renderer s = Some r -> disposed r = true.

Definition unmarked (g : Globals) : Prop :=
  forall c, canvasRef g = Some c -> getAttribute c = None.

(** Every entry of a turn is an action of session [i] of a given kind. *)
Definition turn_of (i : nat) (kind : Action -> Prop) (turn : list Entry) : Prop :=
  Forall (fun e => exists a, e = Did i a /\ kind a) turn.

Definition cleanup_action (a : Action) : Prop :=
  match a with
  | CancelAnimationFrame _ | TrackStop | RendererDispose | RemoveAttribute _ => True
  | _ => False
  end.

(** ** The host, as a relation *)

Definition logged (e : Event) (w : World) : Globals := log (Host e) (globals w).

Definition without (p : Pending) (g : Globals) : Globals :=
  set_pending (filter (fun q => q <> p) (pending g)) g.

Definition caught (i : nat) (r : Result unit) (g : Globals) : Globals :=
  match r with
  | Ok _ => g
  | Throw e => log (Did i (Uncaught e)) g
  end.

(** [callback w e i m g]: in world [w] the host may deliver [e]; it then
    runs [m] for session [i], starting from the shared objects [g]. *)
Inductive callback (w : World) : Event -> nat -> M unit -> Globals -> Prop :=
| cb_unmount i s :
    sessions w !! i = Some s -> isMounted s = true ->
    callback w (Unmount i) i (cleanup i) (logged (Unmount i) w)
| cb_script1 i s lib :
    sessions w !! i = Some s -> pc s = AwaitScript1 ->
    callback w (ScriptLoaded i ar_js lib) i (initAR_second_script i)
             (set_THREEx lib (logged (ScriptLoaded i ar_js lib) w))
| cb_script2 i s lib :
    sessions w !! i = Some s -> pc s = AwaitScript2 ->
    callback w (ScriptLoaded i ar_threex_js lib) i (initAR_setup i)
             (set_THREEx lib (logged (ScriptLoaded i ar_threex_js lib) w))
| cb_script_error i s src :
    sessions w !! i = Some s -> awaited (pc s) = Some src ->
    callback w (ScriptError i src) i (initAR_catch i src) (logged (ScriptError i src) w)
| cb_source i stream :
    SourceInitCb i ∈ pending (globals w) ->
    callback w (SourceReady i stream) i (source_ready i stream)
             (without (SourceInitCb i) (logged (SourceReady i stream) w))
| cb_context i m :
    ContextInitCb i ∈ pending (globals w) ->
    callback w (ContextReady i m) i (context_ready i m)
             (without (ContextInitCb i) (logged (ContextReady i m) w))
| cb_model i gltf :
    ModelLoadCb i ∈ pending (globals w) ->
    callback w (ModelLoaded i gltf) i (model_loaded i gltf)
             (without (ModelLoadCb i) (logged (ModelLoaded i gltf) w))
| cb_model_error i err :
    ModelLoadCb i ∈ pending (globals w) ->
    callback w (ModelError i err) i (model_error i err)
             (without (ModelLoadCb i) (logged (ModelError i err) w))
| cb_timer i :
    TimeoutCb i ∈ pending (globals w) ->
    callback w (TimerFired i) i (onResize i)
             (without (TimeoutCb i) (logged (TimerFired i) w))
| cb_resize i :
    i ∈ resizeListeners (globals w) ->
    callback w (ResizeDispatched i) i (onResize i) (logged (ResizeDispatched i) w)
| cb_camera i v :
    callback w (CameraVisibility i v) i (set_camera_visible v)
             (logged (CameraVisibility i v) w)
| cb_frame id i :
    FrameCb id i ∈ pending (globals w) ->
    callback w (FrameFired id) i (animate i)
             (without (FrameCb id i) (logged (FrameFired id) w)).

Inductive transition (w : World) : Event -> World -> Prop :=
| tr_mount :
    transition w Mount (effect (mkWorld (sessions w) (logged Mount w)))
| tr_detach :
    transition w RefDetach
               (mkWorld (sessions w) (set_canvasRef None (logged RefDetach w)))
| tr_resized x y :
    transition w (WindowResized x y)
               (mkWorld (sessions w) (set_innerSize (x, y) (logged (WindowResized x y) w)))
| tr_webgl ok :
    transition w (WebGLSupport ok)
               (mkWorld (sessions w) (set_webgl ok (logged (WebGLSupport ok) w)))
| tr_callback e i m g s r s' g' :
    callback w e i m g -> sessions w !! i = Some s -> m s g = (r, s', g') ->
    transition w e (mkWorld (<[i:=s']> (sessions w)) (caught i r g')).

(** ** Kinds of calls *)

Definition modest_action (a : Action) : Prop :=
  match a with
  | ConsoleError _ | SetTimeout _ | OnResizeElement | CopyElementSizeToRenderer
  | CopyElementSizeToController | ProjectionMatrixCopy _ | GroupAdd _
  | Uncaught _ => True
  | _ => False
  end.

(** A callback that only touches its own resources: the mounted flag,
    the frame handle, the canvas, the listeners and the frame queue are
    as before. *)
Definition modest (i : nat) (m : M unit) : Prop :=
  forall s g, exists r s' g' turn,
    m s g = (r, s', g') /\
    isMounted s' = isMounted s /\ pc s' = pc s /\
    animationFrameId s' = animationFrameId s /\
    (is_Some (renderer s') <-> is_Some (renderer s)) /\
    canvasRef g' = canvasRef g /\ THREEx g' = THREEx g /\
    resizeListeners g' = resizeListeners g /\
    nextHandle g' = nextHandle g /\
    (forall p, frame_handle p <> None -> p ∈ pending g' <-> p ∈ pending g) /\
    trace (caught i r g') = turn ++ trace g /\
    turn_of i modest_action turn.

Definition animate_action (a : Action) : Prop :=
  match a with
  | RequestAnimationFrame _ | ContextUpdate | Uncaught _ => True
  | Render sv cv => sv = cv
  | _ => False
  end.

Definition source_is_ready (s : Session) : Prop :=
  exists src, arToolkitSource s = Some src /\ ready src = true.

(** Steps (b) to (j) of the initialisation, as calls. *)
Definition setup_action (a : Action) : Prop :=
  match a with
  | NewScene | NewCamera | SceneAdd _ | NewWebGLRenderer _ _ | RendererSetSize _ _
  | NewArToolkitSource _ _ _ | NewArToolkitContext _ _ | SourceInit
  | AddEventListener _ | ContextInit | NewGroup | NewArMarkerControls _ _
  | LoaderLoad _ | NewAmbientLight _ _ | NewDirectionalLight _ _
  | LightPositionSet _ _ _ => True
  | _ => False
  end.

(** One call for each of the steps (b) to (j), for a window of size [sz]. *)
Definition setup_steps_at (sz : Z * Z) : list Action :=
  [ NewScene;
    NewWebGLRenderer true true;
    NewArToolkitSource "webcam" (fst sz) (snd sz);
    NewArToolkitContext "/data/camera_para.dat" "mono";
    AddEventListener "resize";
    ContextInit;
    NewArMarkerControls "pattern" "/data/patt.hiro";
    LoaderLoad "/my-model.glb";
    NewAmbientLight 16777215 (7#10)%Q;
    NewDirectionalLight 16777215 (1#2)%Q ].

Definition in_setup_turn (a : Action) : Prop :=
  setup_action a \/ animate_action a \/ (exists ms, a = SetTimeout ms).

Definition entry_points (x : option THREExLib) : Prop :=
  entry hasArToolkitContext x = true /\
  entry hasArToolkitSource x = true /\
  entry hasArMarkerControls x = true.

Definition marking : Action := SetAttribute "data-initialized" "true".

(** What session [i] logs after the marking when the renderer cannot be
    created (newest first): lines 99-101, then the exception of line 103. *)
Definition stopped_at_renderer (i : nat) : list Entry :=
  [Did i (Uncaught webgl_error); Did i (SceneAdd CameraNode);
   Did i NewCamera; Did i NewScene].

(** ** Properties of reachable worlds *)

(** Every frame the host holds belongs to a mounted session and carries
    the handle that session stored; a session still loading its scripts
    has stored none. *)
Definition frames_owned (w : World) : Prop :=
  (forall id i, FrameCb id i ∈ pending (globals w) ->
     exists s, sessions w !! i = Some s /\ animationFrameId s = Some id /\
               isMounted s = true) /\
  (forall i s, sessions w !! i = Some s -> pc s <> Returned ->
     animationFrameId s = None).

Definition unmounted (w : World) (i : nat) : Prop :=
  exists s, sessions w !! i = Some s /\ isMounted s = false.









(** ** What a transition adds to the log *)

Definition inert_action (a : Action) : Prop :=
  modest_action a \/ animate_action a \/ cleanup_action a.

(** An entry that is neither a script event nor a script request, the
    marking of the surface or a set-up call. *)
Definition inert_entry (x : Entry) : Prop :=
  match x with
  | Host (ScriptLoaded _ _ _) | Host (ScriptError _ _) => False
  | Host _ => True
  | Did _ a => inert_action a
  end.

Definition same_pcs (w w' : World) : Prop :=
  forall j, pc <$> sessions w' !! j = pc <$> sessions w !! j.

Inductive added (w w' : World) : list Entry -> Prop :=
| added_inert new :
    Forall inert_entry new -> same_pcs w w' -> added w w' new
| added_mount s0 :
    sessions w' = sessions w ++ [s0] -> pc s0 = AwaitScript1 ->
    added w w' [Did (length (sessions w)) (AppendScript ar_js);
                Did (length (sessions w)) SetWindowTHREE; Host Mount]
| added_script1 i s s' lib :
    sessions w !! i = Some s -> pc s = AwaitScript1 ->
    sessions w' = <[i:=s']> (sessions w) -> pc s' = AwaitScript2 ->
    added w w' [Did i (AppendScript ar_threex_js); Host (ScriptLoaded i ar_js lib)]
| added_abort i s s' lib turn :
    sessions w !! i = Some s -> pc s = AwaitScript2 ->
    sessions w' = <[i:=s']> (sessions w) -> pc s' = Returned ->
    turn_of i modest_action turn ->
    added w w' (turn ++ [Host (ScriptLoaded i ar_threex_js lib)])
| added_setup i s s' lib later :
    sessions w !! i = Some s -> pc s = AwaitScript2 ->
    sessions w' = <[i:=s']> (sessions w) -> pc s' = Returned ->
    entry_points lib ->
    turn_of i in_setup_turn later ->
    (forall a, a ∈ setup_steps_at (innerSize (globals w)) -> Did i a ∈ later) \/
    later = stopped_at_renderer i ->
    added w w' (later ++ [Did i marking; Host (ScriptLoaded i ar_threex_js lib)])
| added_catch i s s' src :
    sessions w !! i = Some s -> awaited (pc s) = Some src ->
    sessions w' = <[i:=s']> (sessions w) -> pc s' = Returned ->
    added w w' [Did i (ConsoleError ("Failed to load script: " ++ src));
                Host (ScriptError i src)].

(** ** Order of the script loads *)

(** Entries that can only follow a successful load of the second
    script, and those that can only follow a settled first load. *)
Definition late2 (i : nat) (x : Entry) : Prop :=
  (exists lib, x = Host (ScriptLoaded i ar_threex_js lib)) \/
  (exists src, x = Host (ScriptError i src)) \/
  x = Did i marking \/
  (exists a, setup_action a /\ x = Did i a).

Definition late1 (i : nat) (x : Entry) : Prop :=
  late2 i x \/
  (exists src lib, x = Host (ScriptLoaded i src lib)) \/
  x = Did i (AppendScript ar_threex_js).

(** The log is [future ++ mark :: past] for the marking by session [i]:
    what came before it, and the turn it opens, which either makes every
    one of the steps (b) to (j) or ends at the renderer's constructor. *)
Definition marked_in_order (i : nat) (future past : list Entry) : Prop :=
  (exists lib past',
     past = Host (ScriptLoaded i ar_threex_js lib) :: past' /\
     entry_points lib /\
     exists lib1, Host (ScriptLoaded i ar_js lib1) ∈ past') /\
  (forall x, x ∈ past ->
     (forall src, x <> Host (ScriptError i src)) /\
     (forall a, setup_action a -> x <> Did i a)) /\
  (exists rest turn sz,
     future = rest ++ turn /\
     (forall e, Host e ∉ turn) /\
     ((forall a, a ∈ setup_steps_at sz -> Did i a ∈ turn) \/
      turn = stopped_at_renderer i)).

Record script_order (w : World) : Prop := mk_script_order {
  so_fresh : forall i x,
    session_pc w i = None -> x ∈ trace (globals w) -> ~ late1 i x;
  so_await1 : forall i,
    session_pc w i = Some AwaitScript1 ->
    (forall x, x ∈ trace (globals w) -> ~ late1 i x) /\
    Did i (AppendScript ar_js) ∈ trace (globals w);
  so_await2 : forall i,
    session_pc w i = Some AwaitScript2 ->
    (forall x, x ∈ trace (globals w) -> ~ late2 i x) /\
    (exists lib, Host (ScriptLoaded i ar_js lib) ∈ trace (globals w)) /\
    Did i (AppendScript ar_js) ∈ trace (globals w);
  so_second : forall i f p,
    trace (globals w) = f ++ Did i (AppendScript ar_threex_js) :: p ->
    exists lib p',
      p = Host (ScriptLoaded i ar_js lib) :: p' /\
      Did i (AppendScript ar_js) ∈ p';
  so_mark : forall i f p,
    trace (globals w) = f ++ Did i marking :: p -> marked_in_order i f p;
  so_failed : forall i,
    Host (ScriptError i ar_js) ∈ trace (globals w) ->
    session_pc w i = Some Returned /\
    (Did i (AppendScript ar_threex_js) ∉ trace (globals w)) /\
    (Did i marking ∉ trace (globals w)) /\
    Did i (ConsoleError ("Failed to load script: " ++ ar_js)) ∈ trace (globals w) /\
    forall a, setup_action a -> Did i a ∉ trace (globals w)
}.

(** Every session requested its first script when it was mounted, and
    the load of a first script is directly followed by the request for
    the second. *)
Definition scripts_requested (w : World) : Prop :=
  (forall i, i < length (sessions w) -> Did i (AppendScript ar_js) ∈ trace (globals w)) /\
  (forall i lib future past,
     trace (globals w) = future ++ Host (ScriptLoaded i ar_js lib) :: past ->
     exists future', future = future' ++ [Did i (AppendScript ar_threex_js)]).

(** An entry that concerns session [i], if it concerns a session's
    script loading at all. *)
Definition of_session (i : nat) (x : Entry) : Prop :=
  match x with
  | Did k _ | Host (ScriptLoaded k _ _) | Host (ScriptError k _) => k = i
  | Host _ => True
  end.

(** ** Rendering *)

Definition renders_mirror (w : World) : Prop :=
  forall i sv cv, Did i (Render sv cv) ∈ trace (globals w) -> sv = cv.

(** The scripts install a library whose tracking source reports ready
    only after [init] has returned. *)
Definition async_event (e : Event) : Prop :=
  match e with
  | ScriptLoaded _ _ lib => lib ≫= initCompletesSync = None
  | _ => True
  end.

Definition no_frames (w : World) : Prop :=
  THREEx (globals w) ≫= initCompletesSync = None /\
  (forall p, p ∈ pending (globals w) -> frame_handle p = None) /\
  (forall i sv cv, Did i (Render sv cv) ∉ trace (globals w)).

(** ** Runs and what they show *)

(** The world a run ends in (the world it started from if the host could
    not have delivered those events). *)
Definition world_after (es : list Event) (w : World) : World :=
  default w (run es w).

(** The claim as the specification words it: when session [i] marks the
    surface, its steps (b) to (j) are already in the log. *)
Definition set_up_before_marking (w : World) : Prop :=
  forall i future past,
    trace (globals w) = future ++ Did i marking :: past ->
    forall a, a ∈ setup_steps_at (innerSize (globals w)) -> Did i a ∈ past.

Definition is_marking (x : Entry) : bool :=
  match x with
  | Did _ (SetAttribute _ _) => true
  | _ => false
  end.

Definition is_render (x : Entry) : bool :=
  match x with
  | Did _ (Render _ _) => true
  | _ => false
  end.

Definition is_frame (p : Pending) : bool :=
  match p with
  | FrameCb _ _ => true
  | _ => false
  end.

(** ** The callbacks, with every read resolved *)

(** The session owns the objects the set-up creates. *)
Definition built (s : Session) : Prop :=
  is_Some (renderer s) /\ is_Some (scene s) /\ is_Some (camera s) /\
  is_Some (arToolkitSource s) /\ is_Some (arToolkitContext s) /\
  is_Some (markerRoot s).

(** The closure variables are as lines 54-60 left them. *)
Definition bare (s : Session) : Prop :=
  renderer s = None /\ scene s = None /\ camera s = None /\
  arToolkitSource s = None /\ arToolkitContext s = None /\
  markerRoot s = None /\ animationFrameId s = None.

(** The set-up stopped at the renderer's constructor (line 103): the
    scene holds the camera, and nothing else was assigned. *)
Definition stalled (s : Session) : Prop :=
  pc s = Returned /\
  renderer s = None /\ scene s = Some (mkScene true [CameraNode]) /\
  (exists v, camera s = Some (mkCamera v 0)) /\
  arToolkitSource s = None /\ arToolkitContext s = None /\
  markerRoot s = None /\ animationFrameId s = None.

(** The session whose closure a callback held by the host belongs to. *)
Definition owner (p : Pending) : nat :=
  match p with
  | SourceInitCb i | ContextInitCb i | ModelLoadCb i | TimeoutCb i | FrameCb _ i => i
  end.

(** The shared objects as a callback of session [i] finds them when the
    host delivers [e]. *)
Definition handed (e : Event) (i : nat) (w : World) : Globals :=
  match e with
  | ScriptLoaded _ _ lib => set_THREEx lib (logged e w)
  | SourceReady _ _ => without (SourceInitCb i) (logged e w)
  | ContextReady _ _ => without (ContextInitCb i) (logged e w)
  | ModelLoaded _ _ | ModelError _ _ => without (ModelLoadCb i) (logged e w)
  | TimerFired _ => without (TimeoutCb i) (logged e w)
  | FrameFired id => without (FrameCb id i) (logged e w)
  | _ => logged e w
  end.

Definition stop_source (src : Source) : Source :=
  mkSource (ready src)
           ((fun v => mkVideo (map stop <$> srcObject v)) <$> domElement src).

(** The closure variables after the cleanup function. *)
Definition torn_down (s : Session) : Session :=
  mkSession false ((fun r => mkRenderer true (size r)) <$> renderer s)
            (scene s) (camera s) (stop_source <$> arToolkitSource s)
            (arToolkitContext s) (animationFrameId s) (markerRoot s) (pc s).

Definition tracks_of (s : Session) : MediaStream :=
  match arToolkitSource s with
  | Some (mkSource _ (Some (mkVideo (Some tracks)))) => tracks
  | _ => []
  end.

(** The calls of the cleanup function, newest first. *)
Definition cleanup_calls (i : nat) (s : Session) (g : Globals) : list Entry :=
  match canvasRef g with
  | Some _ => [Did i (RemoveAttribute "data-initialized")]
  | None => []
  end ++
  match renderer s with
  | Some _ => [Did i RendererDispose]
  | None => []
  end ++
  replicate (length (tracks_of s)) (Did i TrackStop) ++
  [Did i (CancelAnimationFrame (default 0 (animationFrameId s)))].

(** The shared objects after the cleanup function. *)
Definition cleaned (i : nat) (s : Session) (g : Globals) : Globals :=
  mkGlobals (removeAttribute <$> canvasRef g) (THREEx g) (innerSize g)
            (filter (fun p => frame_handle p <> Some (default 0 (animationFrameId s)))
                    (pending g))
            (nextHandle g) (resizeListeners g) (cleanup_calls i s g ++ trace g)
            (webgl g).

Definition model_of (gltf : nat) : Model :=
  mkModel gltf (1#10, 1#10, 1#10)%Q (1#2)%Q.

(** The children of the scene, in the order lines 101-156 add them. *)
Definition scene_graph : list Node :=
  [CameraNode; MarkerRootNode; AmbientLightNode; DirectionalLightNode].

(** The closure variables after a set-up that went through. *)
Definition assembled (s : Session) (g : Globals) : Session :=
  match THREEx g ≫= initCompletesSync with
  | Some stream =>
    mkSession (isMounted s) (Some (mkRenderer false (innerSize g)))
              (Some (mkScene true scene_graph)) (Some (mkCamera true 0))
              (Some (mkSource true (Some (mkVideo (Some stream)))))
              (Some (mkContext false 0)) (Some (nextHandle g))
              (Some (mkGroup [])) Returned
  | None =>
    mkSession (isMounted s) (Some (mkRenderer false (innerSize g)))
              (Some (mkScene true scene_graph)) (Some (mkCamera true 0))
              (Some (mkSource false (Some (mkVideo None))))
              (Some (mkContext false 0)) (animationFrameId s)
              (Some (mkGroup [])) Returned
  end.

(** The closure variables after a set-up that stopped at the renderer's
    constructor. *)
Definition begun (s : Session) : Session :=
  mkSession (isMounted s) (renderer s) (Some (mkScene true [CameraNode]))
            (Some (mkCamera true 0)) (arToolkitSource s) (arToolkitContext s)
            (animationFrameId s) (markerRoot s) Returned.

(** The callbacks the host holds more after a set-up that went through. *)
Definition requested (i : nat) (g : Globals) : list Pending :=
  match THREEx g ≫= initCompletesSync with
  | Some _ => [TimeoutCb i; ContextInitCb i; ModelLoadCb i; FrameCb (nextHandle g) i]
  | None => [SourceInitCb i; ContextInitCb i; ModelLoadCb i]
  end.

(** The calls of [onResize], newest first. *)
Definition resize_calls (i : nat) (ctx : Context) : list Entry :=
  (if arController ctx then [Did i CopyElementSizeToController] else []) ++
  [Did i CopyElementSizeToRenderer; Did i OnResizeElement].

(** The camera after the tracking library showed or hid it. *)
Definition shown (v : bool) (s : Session) : Session :=
  match camera s with
  | Some c => set_camera (Some (mkCamera v (projectionMatrix c))) s
  | None => s
  end.

(** The shared objects after [animate] went past its guard. *)
Definition framed (i : nat) (v : bool) (g : Globals) : Globals :=
  mkGlobals (canvasRef g) (THREEx g) (innerSize g)
            (pending g ++ [FrameCb (nextHandle g) i]) (S (nextHandle g))
            (resizeListeners g)
            ([Did i (Render v v); Did i ContextUpdate;
              Did i (RequestAnimationFrame (nextHandle g))] ++ trace g)
            (webgl g).

(** What a callback of session [i] makes of the closure variables [s]
    and the shared objects [g] it is handed, with what the host logs
    when the callback throws. *)
Inductive outcome (i : nat) (s : Session) (g : Globals) :
  Event -> Session -> Globals -> Prop :=
| out_unmount :
    isMounted s = true ->
    outcome i s g (Unmount i) (torn_down s) (cleaned i s g)
| out_script1 lib :
    pc s = AwaitScript1 ->
    outcome i s g (ScriptLoaded i ar_js lib) (set_pc AwaitScript2 s)
            (log (Did i (AppendScript ar_threex_js)) g)
| out_skipped lib :
    pc s = AwaitScript2 ->
    isMounted s = false \/ canvasRef g = None ->
    outcome i s g (ScriptLoaded i ar_threex_js lib) (set_pc Returned s) g
| out_missing lib :
    pc s = AwaitScript2 ->
    isMounted s = true -> is_Some (canvasRef g) -> ~ entry_points (THREEx g) ->
    outcome i s g (ScriptLoaded i ar_threex_js lib) (set_pc Returned s)
            (log (Did i (ConsoleError "AR.js components on THREEx failed to load.")) g)
| out_built lib g' later :
    pc s = AwaitScript2 ->
    isMounted s = true -> is_Some (canvasRef g) -> entry_points (THREEx g) ->
    webgl g = true ->
    canvasRef g' = Some (mkCanvas (Some "true")) ->
    THREEx g' = THREEx g -> innerSize g' = innerSize g ->
    pending g' = pending g ++ requested i g ->
    nextHandle g' =
      length (filter (fun p => frame_handle p <> None) (requested i g)) + nextHandle g ->
    resizeListeners g' = resizeListeners g ++ [i] ->
    webgl g' = webgl g ->
    trace g' = later ++ Did i marking :: trace g ->
    turn_of i in_setup_turn later ->
    (forall j err, Did j (Uncaught err) ∉ later) ->
    outcome i s g (ScriptLoaded i ar_threex_js lib) (assembled s g) g'
| out_failed lib g' :
    pc s = AwaitScript2 ->
    isMounted s = true -> is_Some (canvasRef g) -> entry_points (THREEx g) ->
    webgl g = false ->
    canvasRef g' = Some (mkCanvas (Some "true")) ->
    THREEx g' = THREEx g -> innerSize g' = innerSize g ->
    pending g' = pending g -> nextHandle g' = nextHandle g ->
    resizeListeners g' = resizeListeners g ->
    webgl g' = webgl g ->
    trace g' = stopped_at_renderer i ++ Did i marking :: trace g ->
    outcome i s g (ScriptLoaded i ar_threex_js lib) (begun s) g'
| out_script_error src :
    awaited (pc s) = Some src ->
    outcome i s g (ScriptError i src) (set_pc Returned s)
            (log (Did i (ConsoleError ("Failed to load script: " ++ src))) g)
| out_source stream :
    built s ->
    outcome i s g (SourceReady i stream)
            (set_arToolkitSource (Some (mkSource true (Some (mkVideo (Some stream))))) s)
            (set_pending (pending g ++ [TimeoutCb i]) (log (Did i (SetTimeout 500)) g))
| out_context m cam :
    built s -> camera s = Some cam ->
    outcome i s g (ContextReady i m)
            (set_camera (Some (mkCamera (camera_visible cam) m))
                        (set_arToolkitContext (Some (mkContext true m)) s))
            (log (Did i (ProjectionMatrixCopy m)) g)
| out_model gltf root :
    built s -> markerRoot s = Some root ->
    outcome i s g (ModelLoaded i gltf)
            (set_markerRoot (Some (mkGroup (group_children root ++ [model_of gltf]))) s)
            (log (Did i (GroupAdd (model_of gltf))) g)
| out_model_error err :
    built s ->
    outcome i s g (ModelError i err) s
            (log (Did i (ConsoleError ("An error happened: " ++ err))) g)
| out_timer ctx :
    built s -> arToolkitContext s = Some ctx ->
    outcome i s g (TimerFired i) s (set_trace (resize_calls i ctx ++ trace g) g)
| out_resize ctx :
    built s -> arToolkitContext s = Some ctx ->
    outcome i s g (ResizeDispatched i) s (set_trace (resize_calls i ctx ++ trace g) g)
| out_camera v :
    outcome i s g (CameraVisibility i v) (shown v s) g
| out_frame_idle id :
    built s ->
    isMounted s = false \/ ~ source_is_ready s ->
    outcome i s g (FrameFired id) s g
| out_frame id sc cam :
    built s ->
    isMounted s = true -> source_is_ready s ->
    scene s = Some sc -> camera s = Some cam ->
    outcome i s g (FrameFired id)
            (set_scene (Some (mkScene (camera_visible cam) (scene_children sc)))
                       (set_animationFrameId (Some (nextHandle g)) s))
            (framed i (camera_visible cam) g).

(** Callbacks and listeners the host holds belong to sessions that
    finished their set-up; a session has all of its objects, or none
    (and none while it loads its scripts), or its set-up stopped at the
    renderer; nothing else was ever thrown. *)
Definition wired (w : World) : Prop :=
  (forall p, p ∈ pending (globals w) ->
     exists s, sessions w !! owner p = Some s /\ built s) /\
  (forall i, i ∈ resizeListeners (globals w) ->
     exists s, sessions w !! i = Some s /\ built s) /\
  (forall i s, sessions w !! i = Some s -> built s \/ bare s \/ stalled s) /\
  (forall i s, sessions w !! i = Some s -> pc s <> Returned -> bare s) /\
  (forall i e, Did i (Uncaught e) ∈ trace (globals w) ->
     e = webgl_error /\ exists s, sessions w !! i = Some s /\ stalled s).

(** The host can create a WebGL context, and nothing was ever thrown. *)
Definition calm (w : World) : Prop :=
  webgl (globals w) = true /\
  forall i err, Did i (Uncaught err) ∉ trace (globals w).

(** Frame handles: a stored handle was handed out by the host, to that
    session only, and only to a session whose tracking source was ready. *)
Definition handles (w : World) : Prop :=
  1 <= nextHandle (globals w) /\
  (forall i s h, sessions w !! i = Some s -> animationFrameId s = Some h ->
     1 <= h < nextHandle (globals w) /\ source_is_ready s) /\
  (forall i j si sj h,
     sessions w !! i = Some si -> sessions w !! j = Some sj ->
     animationFrameId si = Some h -> animationFrameId sj = Some h -> i = j).

(** A session torn down before its set-up. *)
Definition dormant (w : World) (i : nat) : Prop :=
  exists s, sessions w !! i = Some s /\ isMounted s = false /\ bare s.

(** The calls [initAR] makes before line 86. *)
Definition loading_call (a : Action) : Prop :=
  a = AppendScript ar_threex_js \/ exists msg, a = ConsoleError msg.

(** The scene holds the four nodes of the set-up (only the camera when
    the set-up stopped at the renderer); the anchor group is empty, or
    holds the one model the loader delivered, and then the loader's
    callback is spent. *)
Definition anchored (w : World) : Prop :=
  forall i s, sessions w !! i = Some s ->
    (forall sc, scene s = Some sc ->
       scene_children sc = match renderer s with
                           | Some _ => scene_graph
                           | None => [CameraNode]
                           end) /\
    (forall root, markerRoot s = Some root ->
       group_children root = [] \/
       (exists gltf, group_children root = [model_of gltf]) /\
       ModelLoadCb i ∉ pending (globals w)).

(** The tracking context of a session has a controller only after the
    host reported its initialisation, and [onResize] copied the size to
    the controller's canvas only then. *)
Definition controlled (w : World) : Prop :=
  (forall i s ctx, sessions w !! i = Some s -> arToolkitContext s = Some ctx ->
     arController ctx = true ->
     exists m, Host (ContextReady i m) ∈ trace (globals w)) /\
  (forall i, Did i CopyElementSizeToController ∈ trace (globals w) ->
     exists m, Host (ContextReady i m) ∈ trace (globals w)).

(** The resize listeners on the window: one for each session that ran
    its set-up. *)
Definition listeners_match (w : World) : Prop :=
  NoDup (resizeListeners (globals w)) /\
  forall i, i ∈ resizeListeners (globals w) <->
            exists s, sessions w !! i = Some s /\ is_Some (renderer s).

(** A call that is neither the marking of the surface nor one of the
    set-up. *)
Definition early_call (a : Action) : Prop := ~ setup_action a /\ a <> marking.

(** Sessions without objects made no set-up call; a session one of
    whose scripts failed to load is such a session, with [initAR]
    finished and the error logged. *)
Definition unbuilt (w : World) : Prop :=
  (forall i, sessions w !! i = None -> forall a, Did i a ∉ trace (globals w)) /\
  (forall i s, sessions w !! i = Some s -> bare s ->
     forall a, Did i a ∈ trace (globals w) -> early_call a) /\
  (forall i src, Host (ScriptError i src) ∈ trace (globals w) ->
     exists s, sessions w !! i = Some s /\ pc s = Returned /\ bare s /\
       Did i (ConsoleError ("Failed to load script: " ++ src)) ∈ trace (globals w)).

(** Session [i] was unmounted and the tracking library attached
    [stream] to its video element; [initAR] has returned and the host no
    longer holds the completion callback of the tracking source. *)
Definition abandoned (w : World) (i : nat) (stream : MediaStream) : Prop :=
  exists s, sessions w !! i = Some s /\ isMounted s = false /\ pc s = Returned /\
    arToolkitSource s = Some (mkSource true (Some (mkVideo (Some stream)))) /\
    SourceInitCb i ∉ pending (globals w).

(** * Properties of the component *)

(** ** What one callback does *)

Ltac run_body :=
  unfold act, defer, deref; unfold bind, ret, throw, me, env, setS, setG, log; simpl.

Lemma stop_each_spec i tracks s g :
  stop_each i tracks s g =
  (Ok tt, s, set_trace (replicate (length tracks) (Did i TrackStop) ++ trace g) g).
Proof.
  revert g. induction tracks as [|t rest IH]; intros g.
  - destruct g; reflexivity.
  - simpl. unfold bind at 1, act, setG. rewrite IH. simpl.
    f_equal. unfold set_trace, log; simpl. f_equal.
    change (Did i TrackStop :: trace g) with ([Did i TrackStop] ++ trace g).
    rewrite app_assoc. f_equal.
    clear. induction (length rest) as [|n IHn]; simpl; [reflexivity|].
    f_equal. exact IHn.
Qed.

(** The entries a callback adds sit on top of the log it found. *)
Ltac suffix :=
  lazymatch goal with
  | |- ?t = ?turn ++ ?t => unify turn (@nil Entry); reflexivity
  | |- ?x :: ?l = ?turn ++ ?t =>
    let r := fresh "r" in
    evar (r : list Entry); unify turn (x :: r); subst r;
    rewrite <- app_comm_cons; f_equal; suffix
  | |- ?a ++ ?l = ?turn ++ ?t =>
    let r := fresh "r" in
    evar (r : list Entry); unify turn (a ++ r); subst r;
    rewrite <- app_assoc; f_equal; suffix
  end.

Lemma stop_all (tracks : list Track) (t : Track) :
  t ∈ map stop tracks -> readyState t = Ended.
Proof.
  induction tracks as [|x rest IH]; simpl; intros H.
  - inversion H.
  - apply elem_of_cons in H as [->|H]; [reflexivity | exact (IH H)].
Qed.

Ltac kind_holds :=
  cbn;
  first [ exact I | reflexivity | left; exact I | right; left; exact I
        | right; left; reflexivity | right; right; eexists; reflexivity ].

(** Membership in a list written out. *)
Ltac here := repeat first [apply list_elem_of_here | apply list_elem_of_further].

(** No entry of a list written out can be the one in [H]. *)
Ltac absent H :=
  repeat (apply elem_of_cons in H as [H|H]; [discriminate|]);
  apply elem_of_nil in H; contradiction.

Ltac frames_iff :=
  let q := fresh "q" in let Hq := fresh "Hq" in
  intros q Hq; rewrite ?elem_of_app, ?list_elem_of_singleton, ?list_elem_of_filter;
  destruct q; cbn in Hq; try congruence; clear; intuition congruence.

Ltac turn_kind :=
  unfold turn_of;
  repeat first
    [ apply Forall_nil_2
    | apply Forall_cons; split; [eexists; split; [reflexivity | kind_holds] |]
    | apply Forall_app; split
    | apply Forall_replicate; eexists; split; [reflexivity | kind_holds] ].

(** The cleanup function, on any values of the closure variables. *)
Lemma cleanup_spec i s g :
  exists s' g' turn,
    cleanup i s g = (Ok tt, s', g') /\
    isMounted s' = false /\ pc s' = pc s /\
    animationFrameId s' = animationFrameId s /\
    (is_Some (renderer s') <-> is_Some (renderer s)) /\
    stopped s' /\ released s' /\ unmarked g' /\
    pending g' =
      filter (fun p => frame_handle p <> Some (default 0 (animationFrameId s))) (pending g) /\
    resizeListeners g' = resizeListeners g /\
    nextHandle g' = nextHandle g /\
    (canvasRef g = None -> canvasRef g' = None) /\
    trace g' = turn ++ trace g /\
    turn_of i cleanup_action turn /\
    THREEx g' = THREEx g.
Proof.
  unfold cleanup. run_body.
  destruct (arToolkitSource s) as [[rd [[[tracks|]]|]]|] eqn:Hsrc; simpl;
    try rewrite stop_each_spec; simpl;
    destruct (renderer s) as [r|] eqn:Hr; simpl;
    destruct (canvasRef g) as [c|] eqn:Hc; simpl.
  all: eexists _, _, _; split; [reflexivity|]; simpl.
  all: split_and!.
  all: lazymatch goal with
       | |- _ = _ ++ trace _ => suffix
       | |- _ => idtac
       end.
  all: lazymatch goal with
       | |- turn_of _ _ _ => turn_kind
       | |- stopped _ =>
         intros ? ? ? ? H1 H2 H3 H4; simpl in *; simplify_eq; simpl in *;
         simplify_eq; simpl in *; simplify_eq; eauto using stop_all
       | |- released _ => intros ? H1; simpl in H1; simplify_eq; reflexivity
       | |- unmarked _ => intros ? H1; simpl in H1; simplify_eq; reflexivity
       | |- _ <-> _ => rewrite ?Hr; split; intros; eauto
       | |- _ => try reflexivity; try done
       end.
Qed.

(** ** The transitions as a relation *)

Lemma run_in_transition w e i m g w' :
  callback w e i m g ->
  run_in i m (mkWorld (sessions w) g) = Some w' -> transition w e w'.
Proof.
  intros Hcb H. unfold run_in in H. simpl in H.
  destruct (sessions w !! i) as [s|] eqn:Hs; [|discriminate].
  destruct (m s g) as [[r s'] g'] eqn:Hm.
  injection H as <-. eapply tr_callback; eauto.
Qed.

Lemma awaited_inv p src :
  awaited p = Some src ->
  (p = AwaitScript1 /\ src = ar_js) \/ (p = AwaitScript2 /\ src = ar_threex_js).
Proof. destruct p; simpl; intros H; simplify_eq; auto. Qed.

(** The executable [step] only takes transitions of the relation. *)
Lemma step_transition e w w' : step e w = Some w' -> transition w e w'.
Proof.
  unfold step, handle, fire, session_pc. intros H.
  destruct e; simpl in H.
  - injection H as <-. constructor.
  - destruct (sessions w !! i) as [s|] eqn:Hs; [|discriminate].
    destruct (isMounted s) eqn:Hm; [|discriminate].
    eapply run_in_transition; [econstructor; eauto|]. exact H.
  - injection H as <-. constructor.
  - destruct (sessions w !! i) as [s|] eqn:Hs; [|discriminate]. simpl in H.
    case_bool_decide as Ha; [|discriminate].
    apply awaited_inv in Ha as [[Hp ->]|[Hp ->]]; rewrite Hp in H; simpl in H.
    + eapply run_in_transition; [eapply cb_script1; eauto|]. exact H.
    + eapply run_in_transition; [eapply cb_script2; eauto|]. exact H.
  - destruct (sessions w !! i) as [s|] eqn:Hs; [|discriminate]. simpl in H.
    case_bool_decide as Ha; [|discriminate].
    eapply run_in_transition; [eapply cb_script_error; eauto|]. exact H.
  - case_bool_decide as Hp; [|discriminate].
    eapply run_in_transition; [eapply cb_source; eauto|]. exact H.
  - case_bool_decide as Hp; [|discriminate].
    eapply run_in_transition; [eapply cb_context; eauto|]. exact H.
  - case_bool_decide as Hp; [|discriminate].
    eapply run_in_transition; [eapply cb_model; eauto|]. exact H.
  - case_bool_decide as Hp; [|discriminate].
    eapply run_in_transition; [eapply cb_model_error; eauto|]. exact H.
  - case_bool_decide as Hp; [|discriminate].
    eapply run_in_transition; [eapply cb_timer; eauto|]. exact H.
  - injection H as <-. constructor.
  - case_bool_decide as Hp; [|discriminate].
    eapply run_in_transition; [eapply cb_resize; eauto|]. exact H.
  - eapply run_in_transition; [eapply cb_camera|]. exact H.
  - destruct (frame_owner id (pending (globals w))) as [i|]; [|discriminate].
    case_bool_decide as Hp; [|discriminate].
    eapply run_in_transition; [eapply cb_frame; eauto|]. exact H.
  - injection H as <-. constructor.
Qed.

(** A property every transition keeps holds in every world a run reaches. *)
Lemma run_invariant (P : World -> Prop) :
  (forall w e w', P w -> transition w e w' -> P w') ->
  forall es w w', P w -> run es w = Some w' -> P w'.
Proof.
  intros Hstep es. induction es as [|e rest IH]; intros w w' Hw H; simpl in H.
  - injection H as <-. exact Hw.
  - destruct (step e w) as [w1|] eqn:Hs; [|discriminate].
    eapply IH; [|exact H]. eapply Hstep; [exact Hw|].
    apply step_transition. exact Hs.
Qed.

(** ** What the callbacks leave alone *)

(** Runs a callback body on explicit records: splits on the variables
    the control flow depends on, then reads off the result of a path. *)
Ltac eval_body :=
  lazymatch goal with
  | |- exists r s' g' turn, ?m = _ /\ _ =>
    let v := eval lazy -[app filter String.append fst snd] in m in
    match v with
    | context [match ?x with _ => _ end] => is_var x; destruct x; eval_body
    | (?r, ?s', ?g') =>
      exists r, s', g'; eexists; split; [vm_compute; reflexivity|]
    end
  end.

Ltac modest_goal :=
  cbn; split_and!; try reflexivity;
  lazymatch goal with
  | |- _ = _ ++ _ => suffix
  | |- _ => idtac
  end;
  lazymatch goal with
  | |- turn_of _ _ _ => turn_kind
  | |- forall p, _ -> _ <-> _ => frames_iff
  | |- _ <-> _ => split; intros; eauto
  | |- _ => idtac
  end.

Ltac modest_callback :=
  intros [mnt rnd scn cam sr ctx fid root p] [cv tx sz pend nh ls tr gl];
  eval_body; modest_goal.

Lemma modest_source_ready i stream : modest i (source_ready i stream).
Proof. modest_callback. Qed.

Lemma modest_context_ready i m : modest i (context_ready i m).
Proof. modest_callback. Qed.

Lemma modest_model_loaded i gltf : modest i (model_loaded i gltf).
Proof. modest_callback. Qed.

Lemma modest_model_error i err : modest i (model_error i err).
Proof. modest_callback. Qed.

Lemma modest_onResize i : modest i (onResize i).
Proof. modest_callback. Qed.

Lemma modest_set_camera_visible i v : modest i (set_camera_visible v).
Proof. modest_callback. Qed.

(** *** The render loop *)

(** [animate] either returns at its guard (or throws reading it), and
    then nothing is scheduled and nothing rendered; or it schedules
    exactly one frame under a fresh handle and stores that handle. *)
Lemma animate_spec i s g :
  exists r s' g' turn,
    animate i s g = (r, s', g') /\
    isMounted s' = isMounted s /\ pc s' = pc s /\
    renderer s' = renderer s /\ arToolkitSource s' = arToolkitSource s /\
    canvasRef g' = canvasRef g /\ THREEx g' = THREEx g /\
    resizeListeners g' = resizeListeners g /\
    trace (caught i r g') = turn ++ trace g /\
    ((animationFrameId s' = animationFrameId s /\ pending g' = pending g /\
      nextHandle g' = nextHandle g /\ turn_of i modest_action turn /\
      (isMounted s = true -> ~ source_is_ready s))
     \/
     (isMounted s = true /\ source_is_ready s /\
      animationFrameId s' = Some (nextHandle g) /\
      pending g' = pending g ++ [FrameCb (nextHandle g) i] /\
      nextHandle g' = S (nextHandle g) /\ turn_of i animate_action turn)).
Proof.
  destruct s as [mnt rnd scn cam sr ctx fid root p].
  destruct g as [cv tx sz pend nh ls tr gl].
  eval_body.
  all: cbn; split_and!; try reflexivity.
  all: lazymatch goal with
       | |- _ = _ ++ _ => suffix
       | |- _ => idtac
       end.
  all: try (left; split_and!; try reflexivity;
      [ turn_kind
      | intros ? (src & Hsrc & Hr); cbn in *; simplify_eq; cbn in *; congruence ]).
  all: right; split_and!; try reflexivity;
      [ eexists; split; reflexivity
      | turn_kind ].
Qed.

(** *** [initAR] *)

Lemma initAR_eq i s g :
  initAR i s g =
  (Ok tt, set_pc AwaitScript1 s,
   log (Did i (AppendScript ar_js)) (log (Did i SetWindowTHREE) g)).
Proof. reflexivity. Qed.

Lemma initAR_second_script_eq i s g :
  initAR_second_script i s g =
  (Ok tt, set_pc AwaitScript2 s, log (Did i (AppendScript ar_threex_js)) g).
Proof. reflexivity. Qed.

Lemma initAR_catch_eq i src s g :
  initAR_catch i src s g =
  (Ok tt, set_pc Returned s,
   log (Did i (ConsoleError ("Failed to load script: " ++ src))) g).
Proof. reflexivity. Qed.

(** The outcomes of [initAR] after its second [await]. *)
Lemma initAR_setup_spec i s g :
  exists r s' g' turn,
    initAR_setup i s g = (r, s', g') /\
    pc s' = Returned /\ isMounted s' = isMounted s /\ THREEx g' = THREEx g /\
    trace (caught i r g') = turn ++ trace g /\
    ((r = Ok tt /\
      renderer s' = renderer s /\ animationFrameId s' = animationFrameId s /\
      canvasRef g' = canvasRef g /\ pending g' = pending g /\
      resizeListeners g' = resizeListeners g /\ nextHandle g' = nextHandle g /\
      turn_of i modest_action turn /\
      (isMounted s = false \/ canvasRef g = None \/ ~ entry_points (THREEx g)))
     \/
     (r = Throw webgl_error /\
      isMounted s = true /\ is_Some (canvasRef g) /\ entry_points (THREEx g) /\
      canvasRef g' = Some (mkCanvas (Some "true")) /\
      renderer s' = renderer s /\ animationFrameId s' = animationFrameId s /\
      pending g' = pending g /\ resizeListeners g' = resizeListeners g /\
      nextHandle g' = nextHandle g /\
      turn = stopped_at_renderer i ++ [Did i marking])
     \/
     (r = Ok tt /\
      isMounted s = true /\ is_Some (canvasRef g) /\ entry_points (THREEx g) /\
      canvasRef g' = Some (mkCanvas (Some "true")) /\
      is_Some (renderer s') /\
      resizeListeners g' = resizeListeners g ++ [i] /\
      (exists later,
         turn = later ++ [Did i marking] /\
         turn_of i in_setup_turn later /\
         forall a, a ∈ setup_steps_at (innerSize g) -> Did i a ∈ later) /\
      ((THREEx g ≫= initCompletesSync = None /\
        animationFrameId s' = animationFrameId s /\
        nextHandle g' = nextHandle g /\
        (forall p, frame_handle p <> None -> p ∈ pending g' <-> p ∈ pending g) /\
        forall sv cv, Did i (Render sv cv) ∉ turn)
       \/
       (is_Some (THREEx g ≫= initCompletesSync) /\
        animationFrameId s' = Some (nextHandle g) /\
        nextHandle g' = S (nextHandle g) /\
        (forall p, frame_handle p <> None ->
           p ∈ pending g' <-> p ∈ pending g \/ p = FrameCb (nextHandle g) i))))).
Proof.
  destruct s as [mnt rnd scn cam sr ctx fid root p].
  destruct g as [cv tx sz pend nh ls tr gl].
  eval_body.
  all: cbn; split_and!; try reflexivity.
  all: lazymatch goal with
       | |- _ = _ ++ _ => suffix
       | |- _ => idtac
       end.
  all: try (left; split_and!; try reflexivity;
            [ turn_kind
            | first [ left; reflexivity
                    | right; left; reflexivity
                    | right; right; intros (E1 & E2 & E3); cbn in *; discriminate ] ]).
  all: try (right; left; split_and!; try reflexivity;
            [ eexists; reflexivity | split_and!; reflexivity ]; fail).
  all: right; right; split_and!; try reflexivity.
  all: lazymatch goal with
       | |- is_Some (Some _) => eexists; reflexivity
       | |- entry_points _ => split_and!; reflexivity
       | |- exists later, ?l = _ ++ [_] /\ _ =>
         exists (removelast l); cbn; split_and!;
         [ reflexivity | turn_kind
         | unfold setup_steps_at; intros a Ha;
           repeat (apply elem_of_cons in Ha as [->|Ha]; [here|]);
           apply elem_of_nil in Ha; contradiction ]
       | |- _ => idtac
       end.
  all: first
    [ left; split_and!; try reflexivity;
      [ frames_iff | intros sv cv' Hin; absent Hin ]
    | right; split_and!; try reflexivity; [eexists; reflexivity | frames_iff] ].
Qed.

(** ** Invariants of the reachable worlds *)

Lemma caught_THREEx i r g : THREEx (caught i r g) = THREEx g.
Proof. destruct r; reflexivity. Qed.
Lemma caught_pending i r g : pending (caught i r g) = pending g.
Proof. destruct r; reflexivity. Qed.
Lemma caught_nextHandle i r g : nextHandle (caught i r g) = nextHandle g.
Proof. destruct r; reflexivity. Qed.
Lemma caught_resizeListeners i r g : resizeListeners (caught i r g) = resizeListeners g.
Proof. destruct r; reflexivity. Qed.

Lemma lookup_updated (l : list Session) i s' j t :
  <[i:=s']> l !! j = Some t ->
  (j = i /\ t = s') \/ (j <> i /\ l !! j = Some t).
Proof.
  intros H. destruct (decide (j = i)) as [->|Hne].
  - left. split; [reflexivity|].
    apply lookup_lt_Some in H as Hlt. rewrite length_insert in Hlt.
    rewrite list_lookup_insert_eq in H by exact Hlt. congruence.
  - right. split; [exact Hne|]. rewrite list_lookup_insert_ne in H; auto.
Qed.

Lemma lookup_update_same (l : list Session) i s s' :
  l !! i = Some s -> <[i:=s']> l !! i = Some s'.
Proof. intros H. apply list_lookup_insert_eq. eapply lookup_lt_Some; eauto. Qed.

Lemma lookup_update_other (l : list Session) i j s' :
  j <> i -> <[i:=s']> l !! j = l !! j.
Proof. intros H. apply list_lookup_insert_ne. auto. Qed.

(** What the effect does when both guards pass. *)
Lemma effect_cases w :
  effect w = w \/
  (exists c, canvasRef (globals w) = Some c /\ truthy (getAttribute c) = false /\
     effect w =
     mkWorld (sessions w ++ [set_pc AwaitScript1 closure])
             (log (Did (length (sessions w)) (AppendScript ar_js))
                  (log (Did (length (sessions w)) SetWindowTHREE) (globals w)))).
Proof.
  unfold effect. destruct (canvasRef (globals w)) as [c|]; [|left; reflexivity].
  destruct (truthy (getAttribute c)) eqn:Ht; [left; reflexivity|].
  right. exists c. split_and!; [reflexivity | exact Ht |].
  rewrite initAR_eq. reflexivity.
Qed.

Lemma lookup_appended (l : list Session) x j t :
  (l ++ [x]) !! j = Some t ->
  (j = length l /\ t = x) \/ (j < length l /\ l !! j = Some t).
Proof.
  intros H. destruct (decide (j < length l)) as [Hlt|Hge].
  - right. split; [exact Hlt|]. rewrite lookup_app_l in H; auto.
  - left. rewrite lookup_app_r in H by lia.
    destruct (j - length l) as [|n] eqn:E; simpl in H; [|destruct n; discriminate].
    split; [lia | congruence].
Qed.

(** Updating session [i] keeps [frames_owned] when the frames held are
    among those held before and the session's handle and flag stay. *)
Lemma frames_owned_update w i s s' g' :
  frames_owned w -> sessions w !! i = Some s ->
  animationFrameId s' = animationFrameId s -> isMounted s' = isMounted s ->
  (pc s' <> Returned -> pc s <> Returned) ->
  (forall id j, FrameCb id j ∈ pending g' -> FrameCb id j ∈ pending (globals w)) ->
  frames_owned (mkWorld (<[i:=s']> (sessions w)) g').
Proof.
  intros [HF HP] Hs Hfid Hmnt Hpc Hsub. split; cbn.
  - intros id j Hin. apply Hsub in Hin.
    destruct (HF _ _ Hin) as (t & Ht & Hid & Hm).
    destruct (decide (j = i)) as [->|Hne].
    + exists s'. rewrite (lookup_update_same _ _ _ _ Hs).
      split; [reflexivity|]. assert (t = s) by congruence. subst t.
      split; congruence.
    + exists t. rewrite lookup_update_other by exact Hne. auto.
  - intros j t Ht Hp. apply lookup_updated in Ht as [[-> ->]|[Hne Ht]].
    + rewrite Hfid. eapply HP; eauto.
    + eapply HP; eauto.
Qed.

Lemma in_without p q g : p ∈ pending (without q g) -> p ∈ pending g /\ p <> q.
Proof. cbn. rewrite list_elem_of_filter. tauto. Qed.

Lemma frames_owned_modest w i m g s r s' g' :
  frames_owned w -> modest i m -> sessions w !! i = Some s ->
  (forall p, p ∈ pending g -> p ∈ pending (globals w)) ->
  m s g = (r, s', g') ->
  frames_owned (mkWorld (<[i:=s']> (sessions w)) (caught i r g')).
Proof.
  intros Hw Hmod Hs Hsub Hm.
  destruct (Hmod s g)
    as (r1 & s1 & g1 & turn & Heq & Hmnt & Hpc & Hfid & _ & _ & _ & _ & _ & Hpend & _).
  rewrite Heq in Hm. injection Hm as <- <- <-.
  eapply frames_owned_update; eauto; [congruence|].
  intros id j Hin. rewrite caught_pending in Hin.
  apply Hsub. apply Hpend; [discriminate | exact Hin].
Qed.

(** A frame newly scheduled for session [i], which held none. *)
Lemma frames_owned_schedule w i s s' g' h :
  frames_owned w -> sessions w !! i = Some s ->
  animationFrameId s' = Some h -> isMounted s' = true -> pc s' = Returned ->
  (forall id j, FrameCb id j ∈ pending g' ->
     (FrameCb id j ∈ pending (globals w) /\ j <> i) \/ (id = h /\ j = i)) ->
  frames_owned (mkWorld (<[i:=s']> (sessions w)) g').
Proof.
  intros [HF HP] Hs Hfid Hmnt Hpc Hsub. split; cbn.
  - intros id j Hin. apply Hsub in Hin as [[Hin Hne]|[-> ->]].
    + destruct (HF _ _ Hin) as (t & Ht & Hrest).
      exists t. rewrite lookup_update_other by exact Hne. auto.
    + exists s'. rewrite (lookup_update_same _ _ _ _ Hs). auto.
  - intros j t Ht Hp. apply lookup_updated in Ht as [[-> ->]|[Hne Ht]].
    + congruence.
    + eapply HP; eauto.
Qed.

Lemma frames_owned_step w e w' :
  frames_owned w -> transition w e w' -> frames_owned w'.
Proof.
  intros Hw Htr.
  inversion Htr as [ | | | | e0 i m g s r s' g' Hcb Hs Hm ]; subst.
  - destruct (effect_cases (mkWorld (sessions w) (logged Mount w)))
      as [->|(c & _ & _ & ->)]; cbn.
    + exact Hw.
    + destruct Hw as [HF HP]. split; cbn.
      * intros id j Hin. destruct (HF _ _ Hin) as (t & Ht & Hrest).
        exists t. split; [|exact Hrest].
        rewrite lookup_app_l; [exact Ht | eapply lookup_lt_Some; eauto].
      * intros j t Ht Hp. apply lookup_appended in Ht as [[_ ->]|[_ Ht]].
        -- reflexivity.
        -- eapply HP; eauto.
  - exact Hw.
  - exact Hw.
  - exact Hw.
  - inversion Hcb; subst; clear Hcb.
    + (* cleanup *)
      destruct (cleanup_spec i s (logged (Unmount i) w))
        as (s1 & g1 & turn & Heq & Hm1 & Hpc & Hfid & _ & _ & _ & _ & Hpend & _).
      rewrite Heq in Hm. injection Hm as <- <- <-. cbn.
      destruct Hw as [HF HP]. split; cbn.
      * intros id j Hin. rewrite Hpend in Hin.
        apply list_elem_of_filter in Hin as [Hne Hin]. cbn in Hin, Hne.
        destruct (HF _ _ Hin) as (t & Ht & Hid & Hmt).
        destruct (decide (j = i)) as [->|Hji].
        -- assert (t = s) by congruence. subst t.
           rewrite Hid in Hne. cbn in Hne. congruence.
        -- exists t. rewrite lookup_update_other by exact Hji. auto.
      * intros j t Ht Hp. apply lookup_updated in Ht as [[-> ->]|[Hne Ht]].
        -- rewrite Hfid. eapply HP; eauto. congruence.
        -- eapply HP; eauto.
    + rewrite initAR_second_script_eq in Hm. injection Hm as <- <- <-.
      eapply frames_owned_update; eauto; cbn; congruence.
    + (* setup *)
      destruct (initAR_setup_spec i s
                  (set_THREEx lib (logged (ScriptLoaded i ar_threex_js lib) w)))
        as (r1 & s1 & g1 & turn & Heq & Hpc & Hmnt & _ & _ & Hcase).
      rewrite Heq in Hm. injection Hm as <- <- <-. cbn.
      assert (Hnone : animationFrameId s = None).
      { destruct Hw as [_ HP]. eapply HP; eauto. congruence. }
      assert (Hnof : forall id, FrameCb id i ∉ pending (globals w)).
      { intros id Hin. destruct Hw as [HF _].
        destruct (HF _ _ Hin) as (t & Ht & Hid & _). congruence. }
      destruct Hcase as [(-> & _ & Hfid & _ & Hpend & _)
                        |[(-> & _ & _ & _ & _ & _ & Hfid & Hpend & _)
                         |(-> & Hm1 & _ & _ & _ & _ & _ & _ & Hfr)]]; cbn [caught].
      * eapply frames_owned_update; eauto; try congruence.
        intros id j Hin. rewrite Hpend in Hin. exact Hin.
      * eapply frames_owned_update; eauto; try congruence.
        intros id j Hin. cbn in Hin. rewrite Hpend in Hin. exact Hin.
      * destruct Hfr as [(_ & Hfid & _ & Hpend & _)|(_ & Hfid & _ & Hpend)].
        -- eapply frames_owned_update; eauto; try congruence.
           intros id j Hin. apply Hpend in Hin; [exact Hin | discriminate].
        -- eapply frames_owned_schedule; eauto; try congruence.
           intros id j Hin. apply Hpend in Hin; [|discriminate].
           cbn in Hin. destruct Hin as [Hin|Heq'].
           ++ left. split; [exact Hin|]. intros ->. eapply Hnof; eauto.
           ++ injection Heq' as -> ->. right. auto.
    + rewrite initAR_catch_eq in Hm. injection Hm as <- <- <-.
      eapply frames_owned_update; eauto; cbn; congruence.
    + eapply frames_owned_modest;
        [exact Hw | apply modest_source_ready | exact Hs | | exact Hm].
      intros q Hq. apply in_without in Hq as [Hq _]. exact Hq.
    + eapply frames_owned_modest;
        [exact Hw | apply modest_context_ready | exact Hs | | exact Hm].
      intros q Hq. apply in_without in Hq as [Hq _]. exact Hq.
    + eapply frames_owned_modest;
        [exact Hw | apply modest_model_loaded | exact Hs | | exact Hm].
      intros q Hq. apply in_without in Hq as [Hq _]. exact Hq.
    + eapply frames_owned_modest;
        [exact Hw | apply modest_model_error | exact Hs | | exact Hm].
      intros q Hq. apply in_without in Hq as [Hq _]. exact Hq.
    + eapply frames_owned_modest;
        [exact Hw | apply modest_onResize | exact Hs | | exact Hm].
      intros q Hq. apply in_without in Hq as [Hq _]. exact Hq.
    + eapply frames_owned_modest;
        [exact Hw | apply modest_onResize | exact Hs | | exact Hm].
      intros q Hq. exact Hq.
    + eapply frames_owned_modest;
        [exact Hw | apply modest_set_camera_visible | exact Hs | | exact Hm].
      intros q Hq. exact Hq.
    + (* a frame fires *)
      destruct (animate_spec i s (without (FrameCb id i) (logged (FrameFired id) w)))
        as (r1 & s1 & g1 & turn & Heq & Hmnt & Hpc & _ & _ & _ & _ & _ & _ & Hcase).
      rewrite Heq in Hm. injection Hm as <- <- <-.
      assert (Hown : animationFrameId s = Some id /\ pc s = Returned).
      { destruct Hw as [HF HP]. destruct (HF _ _ H) as (t & Ht & Hid & _).
        assert (t = s) by congruence. subst t. split; [exact Hid|].
        destruct (pc s) eqn:E; try reflexivity;
          (assert (animationFrameId s = None) by (eapply HP; eauto; congruence));
          congruence. }
      destruct Hown as [Hid Hret].
      destruct Hcase as [(Hfid & Hpend & _)|(Hm1 & _ & Hfid & Hpend & _)].
      * eapply frames_owned_update; eauto; [congruence|].
        intros id' j Hin. rewrite caught_pending, Hpend in Hin.
        apply in_without in Hin as [Hin _]. exact Hin.
      * eapply frames_owned_schedule; eauto; try congruence.
        intros id' j Hin. rewrite caught_pending, Hpend in Hin.
        apply elem_of_app in Hin as [Hin|Hin].
        -- apply in_without in Hin as [Hin Hne]. left. split; [exact Hin|].
           intros ->. destruct Hw as [HF _].
           destruct (HF _ _ Hin) as (t & Ht & Hid' & _). congruence.
        -- apply list_elem_of_singleton in Hin. injection Hin as -> ->.
           right. auto.
Qed.

Lemma frames_owned_initial c sz : frames_owned (initial c sz).
Proof.
  split; cbn.
  - intros id i Hin. apply elem_of_nil in Hin. contradiction.
  - intros i s Hs. discriminate.
Qed.

Lemma reachable_frames_owned c sz es w :
  run es (initial c sz) = Some w -> frames_owned w.
Proof.
  apply (run_invariant frames_owned).
  - intros w0 e w1 H0 Htr. eapply frames_owned_step; eauto.
  - apply frames_owned_initial.
Qed.

(** *** A torn-down session stays torn down *)

Lemma callback_keeps_unmounted w e i m g s r s' g' :
  callback w e i m g -> m s g = (r, s', g') ->
  isMounted s = false -> isMounted s' = false.
Proof.
  intros Hcb Hm Hs. inversion Hcb; subst; clear Hcb.
  - destruct (cleanup_spec i s (logged (Unmount i) w))
      as (s1 & g1 & turn & Heq & Hm1 & _).
    rewrite Heq in Hm. injection Hm as <- <- <-. exact Hm1.
  - rewrite initAR_second_script_eq in Hm. injection Hm as <- <- <-. exact Hs.
  - destruct (initAR_setup_spec i s
                (set_THREEx lib (logged (ScriptLoaded i ar_threex_js lib) w)))
      as (r1 & s1 & g1 & turn & Heq & _ & Hmnt & _).
    rewrite Heq in Hm. injection Hm as <- <- <-. congruence.
  - rewrite initAR_catch_eq in Hm. injection Hm as <- <- <-. exact Hs.
  - destruct (modest_source_ready i stream s
                (without (SourceInitCb i) (logged (SourceReady i stream) w)))
      as (r1 & s1 & g1 & turn & Heq & Hmnt & _).
    rewrite Heq in Hm. injection Hm as <- <- <-. congruence.
  - destruct (modest_context_ready i m0 s
                (without (ContextInitCb i) (logged (ContextReady i m0) w)))
      as (r1 & s1 & g1 & turn & Heq & Hmnt & _).
    rewrite Heq in Hm. injection Hm as <- <- <-. congruence.
  - destruct (modest_model_loaded i gltf s
                (without (ModelLoadCb i) (logged (ModelLoaded i gltf) w)))
      as (r1 & s1 & g1 & turn & Heq & Hmnt & _).
    rewrite Heq in Hm. injection Hm as <- <- <-. congruence.
  - destruct (modest_model_error i err s
                (without (ModelLoadCb i) (logged (ModelError i err) w)))
      as (r1 & s1 & g1 & turn & Heq & Hmnt & _).
    rewrite Heq in Hm. injection Hm as <- <- <-. congruence.
  - destruct (modest_onResize i s (without (TimeoutCb i) (logged (TimerFired i) w)))
      as (r1 & s1 & g1 & turn & Heq & Hmnt & _).
    rewrite Heq in Hm. injection Hm as <- <- <-. congruence.
  - destruct (modest_onResize i s (logged (ResizeDispatched i) w))
      as (r1 & s1 & g1 & turn & Heq & Hmnt & _).
    rewrite Heq in Hm. injection Hm as <- <- <-. congruence.
  - destruct (modest_set_camera_visible i v s (logged (CameraVisibility i v) w))
      as (r1 & s1 & g1 & turn & Heq & Hmnt & _).
    rewrite Heq in Hm. injection Hm as <- <- <-. congruence.
  - destruct (animate_spec i s (without (FrameCb id i) (logged (FrameFired id) w)))
      as (r1 & s1 & g1 & turn & Heq & Hmnt & _).
    rewrite Heq in Hm. injection Hm as <- <- <-. congruence.
Qed.

Lemma unmounted_kept w e w' i :
  transition w e w' -> unmounted w i -> unmounted w' i.
Proof.
  intros Htr (s & Hs & Hm).
  inversion Htr as [ | | | | e0 k m g t r t' g' Hcb Ht Hrun ]; subst.
  - destruct (effect_cases (mkWorld (sessions w) (logged Mount w)))
      as [->|(c & _ & _ & ->)]; cbn.
    + exists s. auto.
    + exists s. split; [|exact Hm]. cbn.
      rewrite lookup_app_l; [exact Hs | eapply lookup_lt_Some; eauto].
  - exists s. auto.
  - exists s. auto.
  - exists s. auto.
  - destruct (decide (i = k)) as [->|Hne].
    + exists t'. cbn. rewrite (lookup_update_same _ _ _ _ Ht).
      split; [reflexivity|]. assert (t = s) by congruence. subst t.
      eapply callback_keeps_unmounted; eauto.
    + exists s. cbn. rewrite lookup_update_other by exact Hne. auto.
Qed.

Lemma unmounted_stays es :
  forall w w' i, run es w = Some w' -> unmounted w i -> unmounted w' i.
Proof.
  induction es as [|e rest IH]; intros w w' i Hrun Hu; cbn in Hrun.
  - injection Hrun as <-. exact Hu.
  - destruct (step e w) as [w1|] eqn:Hs; [|discriminate].
    eapply IH; [exact Hrun|]. eapply unmounted_kept; [|exact Hu].
    apply step_transition. exact Hs.
Qed.

Lemma unmount_unmounts w i w' :
  step (Unmount i) w = Some w' -> unmounted w' i.
Proof.
  unfold step, handle. cbn [sessions globals].
  destruct (sessions w !! i) as [s|] eqn:Hs; [|discriminate].
  destruct (isMounted s); [|discriminate].
  unfold run_in. cbn [sessions globals]. rewrite Hs.
  destruct (cleanup_spec i s (log (Host (Unmount i)) (globals w)))
    as (s1 & g1 & turn & Heq & Hm1 & _).
  rewrite Heq. intros H. injection H as <-.
  exists s1. cbn. rewrite (lookup_update_same _ _ _ _ Hs). auto.
Qed.

(** *** One mounted session *)



(** The session named by the callback relation is the one looked up. *)
Ltac same_session :=
  repeat match goal with
         | H1 : sessions ?w !! ?i = Some ?a, H2 : sessions ?w !! ?i = Some ?b |- _ =>
           assert (b = a) by congruence; subst b; clear H2
         end.



(** *** What a transition adds to the log *)

Lemma turn_inert i kind turn :
  turn_of i kind turn -> (forall a, kind a -> inert_action a) ->
  Forall inert_entry turn.
Proof.
  unfold turn_of. intros H Hk. eapply Forall_impl; [exact H|].
  intros x (a & -> & Ha). cbn. auto.
Qed.

Lemma same_pcs_update w i s s' g' :
  sessions w !! i = Some s -> pc s' = pc s ->
  same_pcs w (mkWorld (<[i:=s']> (sessions w)) g').
Proof.
  intros Hs Hp j. cbn. destruct (decide (j = i)) as [->|Hne].
  - rewrite (lookup_update_same _ _ _ _ Hs), Hs. cbn. congruence.
  - rewrite lookup_update_other by exact Hne. reflexivity.
Qed.

Lemma added_modest w e i m g s r s' g' :
  modest i m -> sessions w !! i = Some s ->
  trace g = Host e :: trace (globals w) -> inert_entry (Host e) ->
  m s g = (r, s', g') ->
  exists new,
    trace (caught i r g') = new ++ trace (globals w) /\
    added w (mkWorld (<[i:=s']> (sessions w)) (caught i r g')) new.
Proof.
  intros Hmod Hs Htr He Hm.
  destruct (Hmod s g)
    as (r1 & s1 & g1 & turn & Heq & _ & Hpc & _ & _ & _ & _ & _ & _ & _ & Ht & Hk).
  rewrite Heq in Hm. injection Hm as <- <- <-.
  exists (turn ++ [Host e]). split.
  - rewrite Ht, Htr, <- app_assoc. reflexivity.
  - apply added_inert; [|eapply same_pcs_update; eauto].
    apply Forall_app. split; [|repeat constructor; exact He].
    eapply turn_inert; [exact Hk|]. intros a Ha. left. exact Ha.
Qed.

(** Every transition adds to the log in one of six ways. *)
Lemma transition_added w e w' :
  transition w e w' ->
  exists new, trace (globals w') = new ++ trace (globals w) /\ added w w' new.
Proof.
  intros Htr.
  inversion Htr as [ | | | | e0 i m g s r s' g' Hcb Hs Hm ]; subst.
  - destruct (effect_cases (mkWorld (sessions w) (logged Mount w)))
      as [->|(c & Hc & Ht & ->)]; cbn.
    + exists [Host Mount]. split; [reflexivity|].
      apply added_inert; [repeat constructor | intros j; reflexivity].
    + eexists. split; [|eapply added_mount; cbn; reflexivity]. reflexivity.
  - exists [Host RefDetach]. split; [reflexivity|].
    apply added_inert; [repeat constructor | intros j; reflexivity].
  - exists [Host (WindowResized x y)]. split; [reflexivity|].
    apply added_inert; [repeat constructor | intros j; reflexivity].
  - exists [Host (WebGLSupport ok)]. split; [reflexivity|].
    apply added_inert; [repeat constructor | intros j; reflexivity].
  - inversion Hcb; subst; clear Hcb; same_session.
    + destruct (cleanup_spec i s (logged (Unmount i) w))
        as (s1 & g1 & turn & Heq & _ & Hpc & _ & _ & _ & _ & _ & _ & _ & _ & _ & Ht & Hk & _).
      rewrite Heq in Hm. injection Hm as <- <- <-. cbn.
      exists (turn ++ [Host (Unmount i)]). split.
      * rewrite Ht. cbn. rewrite <- app_assoc. reflexivity.
      * apply added_inert; [|eapply same_pcs_update; eauto].
        apply Forall_app. split; [|repeat constructor].
        eapply turn_inert; [exact Hk|]. intros a Ha. right. right. exact Ha.
    + rewrite initAR_second_script_eq in Hm. injection Hm as <- <- <-. cbn.
      eexists. split; [|eapply added_script1; eauto]. reflexivity.
    + destruct (initAR_setup_spec i s
                  (set_THREEx lib (logged (ScriptLoaded i ar_threex_js lib) w)))
        as (r1 & s1 & g1 & turn & Heq & Hpc & _ & _ & Ht & Hcase).
      rewrite Heq in Hm. injection Hm as <- <- <-. cbn [globals sessions].
      destruct Hcase as [(_ & _ & _ & _ & _ & _ & _ & Hk & _)
                        |[(_ & _ & _ & Hep & _ & _ & _ & _ & _ & _ & ->)
                         |(_ & _ & _ & Hep & _ & _ & _
                           & (later & -> & Hk & Hsteps) & _)]].
      * exists (turn ++ [Host (ScriptLoaded i ar_threex_js lib)]). split.
        -- rewrite Ht. cbn. rewrite <- app_assoc. reflexivity.
        -- eapply added_abort; eauto.
      * exists (stopped_at_renderer i
                ++ [Did i marking; Host (ScriptLoaded i ar_threex_js lib)]).
        split.
        -- rewrite Ht. reflexivity.
        -- eapply added_setup; eauto. unfold stopped_at_renderer. turn_kind.
      * exists (later ++ [Did i marking; Host (ScriptLoaded i ar_threex_js lib)]).
        split.
        -- rewrite Ht. cbn. rewrite <- !app_assoc. reflexivity.
        -- eapply added_setup; eauto.
    + rewrite initAR_catch_eq in Hm. injection Hm as <- <- <-. cbn.
      eexists. split; [|eapply added_catch; eauto]. reflexivity.
    + eapply added_modest; [apply modest_source_ready | exact Hs | | | exact Hm];
        [reflexivity | exact I].
    + eapply added_modest; [apply modest_context_ready | exact Hs | | | exact Hm];
        [reflexivity | exact I].
    + eapply added_modest; [apply modest_model_loaded | exact Hs | | | exact Hm];
        [reflexivity | exact I].
    + eapply added_modest; [apply modest_model_error | exact Hs | | | exact Hm];
        [reflexivity | exact I].
    + eapply added_modest; [apply modest_onResize | exact Hs | | | exact Hm];
        [reflexivity | exact I].
    + eapply added_modest; [apply modest_onResize | exact Hs | | | exact Hm];
        [reflexivity | exact I].
    + eapply added_modest; [apply modest_set_camera_visible | exact Hs | | | exact Hm];
        [reflexivity | exact I].
    + destruct (animate_spec i s (without (FrameCb id i) (logged (FrameFired id) w)))
        as (r1 & s1 & g1 & turn & Heq & _ & Hpc & _ & _ & _ & _ & _ & Ht & Hcase).
      rewrite Heq in Hm. injection Hm as <- <- <-.
      exists (turn ++ [Host (FrameFired id)]). split.
      * cbn [globals]. rewrite Ht. cbn. rewrite <- app_assoc. reflexivity.
      * apply added_inert; [|eapply same_pcs_update; eauto].
        apply Forall_app. split; [|repeat constructor].
        destruct Hcase as [(_ & _ & _ & Hk & _)|(_ & _ & _ & _ & _ & Hk)].
        -- eapply turn_inert; [exact Hk|]. intros a Ha. left. exact Ha.
        -- eapply turn_inert; [exact Hk|]. intros a Ha. right. left. exact Ha.
Qed.

(** *** The order of script loads, marking and set-up in the log *)

Lemma scripts_differ : ar_js <> ar_threex_js.
Proof.
  intros H. apply (f_equal String.length) in H. vm_compute in H. discriminate.
Qed.

Lemma split_app {A} (l1 l2 f p : list A) x :
  l1 ++ l2 = f ++ x :: p ->
  (exists t, l1 = f ++ x :: t /\ p = t ++ l2) \/
  (exists f', l2 = f' ++ x :: p /\ f = l1 ++ f').
Proof.
  revert f. induction l1 as [|a l1 IH]; intros f H; cbn in H.
  - right. exists f. auto.
  - destruct f as [|b f]; cbn in H.
    + injection H as -> <-. left. exists l1. auto.
    + injection H as -> H. destruct (IH _ H) as [(t & -> & ->)|(f' & -> & ->)].
      * left. exists t. auto.
      * right. exists f'. auto.
Qed.

Lemma split_old {A} (l1 l2 f p : list A) x :
  l1 ++ l2 = f ++ x :: p -> x ∉ l1 ->
  exists f', l2 = f' ++ x :: p /\ f = l1 ++ f'.
Proof.
  intros H Hx. destruct (split_app _ _ _ _ _ H) as [(t & -> & _)|Hr]; [|exact Hr].
  exfalso. apply Hx. apply elem_of_app. right. apply list_elem_of_here.
Qed.

Lemma setup_not_inert a : setup_action a -> ~ inert_action a.
Proof. destruct a; cbn; unfold inert_action; cbn; tauto. Qed.

Lemma inert_not_late1 i x : inert_entry x -> ~ late1 i x.
Proof.
  intros Hx [[(lib & ->)|[(src & ->)|[->|(a & Ha & ->)]]]|[(src & lib & ->)| ->]];
    cbn in Hx; try contradiction.
  - unfold inert_action in Hx; cbn in Hx; tauto.
  - eapply setup_not_inert; eauto.
  - unfold inert_action in Hx; cbn in Hx; tauto.
Qed.

Lemma late2_late1 i x : late2 i x -> late1 i x.
Proof. intros H. left. exact H. Qed.

Lemma inert_absent new x : Forall inert_entry new -> ~ inert_entry x -> x ∉ new.
Proof. intros H Hx Hin. rewrite Forall_forall in H. apply Hx, H, Hin. Qed.

Lemma marked_in_order_later i new f p :
  marked_in_order i f p -> marked_in_order i (new ++ f) p.
Proof.
  intros (H1 & H2 & rest & turn & sz & -> & H3 & H4). split_and!; auto.
  exists (new ++ rest), turn, sz. rewrite app_assoc. auto.
Qed.

Lemma script_order_inert w w' new :
  script_order w -> trace (globals w') = new ++ trace (globals w) ->
  Forall inert_entry new -> same_pcs w w' -> script_order w'.
Proof.
  intros Hw Ht Hin Hsame.
  assert (Hpc : forall j, session_pc w' j = session_pc w j) by exact Hsame.
  constructor.
  - intros i x Hi Hx. rewrite Ht in Hx. apply elem_of_app in Hx as [Hx|Hx].
    + apply inert_not_late1. rewrite Forall_forall in Hin. auto.
    + eapply so_fresh; eauto. rewrite <- Hpc. exact Hi.
  - intros i Hi. rewrite Hpc in Hi. destruct (so_await1 w Hw i Hi) as [Hno Hyes].
    split.
    + intros x Hx. rewrite Ht in Hx. apply elem_of_app in Hx as [Hx|Hx]; auto.
      apply inert_not_late1. rewrite Forall_forall in Hin. auto.
    + rewrite Ht. apply elem_of_app. auto.
  - intros i Hi. rewrite Hpc in Hi.
    destruct (so_await2 w Hw i Hi) as (Hno & (lib & Hl) & Hyes). split_and!.
    + intros x Hx. rewrite Ht in Hx. apply elem_of_app in Hx as [Hx|Hx]; auto.
      intros Hl2. apply late2_late1 in Hl2. revert Hl2.
      apply inert_not_late1. rewrite Forall_forall in Hin. auto.
    + exists lib. rewrite Ht. apply elem_of_app. auto.
    + rewrite Ht. apply elem_of_app. auto.
  - intros i f p Hsplit. rewrite Ht in Hsplit.
    apply split_old in Hsplit as (f' & Hold & ->).
    + eapply so_second; eauto.
    + apply inert_absent; [exact Hin|]. cbn. unfold inert_action. cbn. tauto.
  - intros i f p Hsplit. rewrite Ht in Hsplit.
    apply split_old in Hsplit as (f' & Hold & ->).
    + apply marked_in_order_later. eapply so_mark; eauto.
    + apply inert_absent; [exact Hin|]. cbn. unfold inert_action. cbn. tauto.
  - intros i Hx. rewrite Ht in Hx. apply elem_of_app in Hx as [Hx|Hx].
    + exfalso. revert Hx. apply inert_absent; [exact Hin|]. cbn. tauto.
    + destruct (so_failed w Hw i Hx) as (H1 & H2 & H3 & H4 & H5). rewrite Hpc, Ht.
      split_and!; auto.
      * intros Hy. apply elem_of_app in Hy as [Hy|Hy]; [|auto].
        revert Hy. apply inert_absent; [exact Hin|].
        cbn. unfold inert_action. cbn. tauto.
      * intros Hy. apply elem_of_app in Hy as [Hy|Hy]; [|auto].
        revert Hy. apply inert_absent; [exact Hin|].
        cbn. unfold inert_action. cbn. tauto.
      * apply elem_of_app. auto.
      * intros a Ha Hy. apply elem_of_app in Hy as [Hy|Hy]; [|eapply H5; eauto].
        revert Hy. apply inert_absent; [exact Hin|].
        cbn. apply setup_not_inert. exact Ha.
Qed.

Lemma late1_of_session i j x : late1 j x -> of_session i x -> j = i.
Proof.
  intros [[(lib & ->)|[(src & ->)|[->|(a & Ha & ->)]]]|[(src & lib & ->)| ->]];
    cbn; auto.
Qed.

Lemma turn_of_session i kind turn : turn_of i kind turn -> Forall (of_session i) turn.
Proof.
  unfold turn_of. intros H. eapply Forall_impl; [exact H|].
  intros x (a & -> & _). reflexivity.
Qed.

(** The log grows by entries of session [i], whose program point
    becomes [p']: what has to be shown is what concerns [i] and the new
    entries. *)
Lemma script_order_extend w w' new i p' :
  script_order w ->
  trace (globals w') = new ++ trace (globals w) ->
  (forall j, session_pc w' j = if decide (j = i) then Some p' else session_pc w j) ->
  Forall (of_session i) new ->
  (p' = AwaitScript1 ->
   (forall x, x ∈ new ++ trace (globals w) -> ~ late1 i x) /\
   Did i (AppendScript ar_js) ∈ new ++ trace (globals w)) ->
  (p' = AwaitScript2 ->
   (forall x, x ∈ new ++ trace (globals w) -> ~ late2 i x) /\
   (exists lib, Host (ScriptLoaded i ar_js lib) ∈ new ++ trace (globals w)) /\
   Did i (AppendScript ar_js) ∈ new ++ trace (globals w)) ->
  (Did i (AppendScript ar_threex_js) ∈ new ->
   forall f p, new ++ trace (globals w) = f ++ Did i (AppendScript ar_threex_js) :: p ->
     exists lib p',
       p = Host (ScriptLoaded i ar_js lib) :: p' /\ Did i (AppendScript ar_js) ∈ p') ->
  (Did i marking ∈ new ->
   forall f p, new ++ trace (globals w) = f ++ Did i marking :: p ->
     marked_in_order i f p) ->
  (Host (ScriptError i ar_js) ∈ new ++ trace (globals w) ->
   p' = Returned /\
   (Did i (AppendScript ar_threex_js) ∉ new ++ trace (globals w)) /\
   (Did i marking ∉ new ++ trace (globals w)) /\
   Did i (ConsoleError ("Failed to load script: " ++ ar_js))
     ∈ new ++ trace (globals w) /\
   forall a, setup_action a -> Did i a ∉ new ++ trace (globals w)) ->
  script_order w'.
Proof.
  intros Hw Ht Hpc Hnew Oa Ob Oc Od Oe.
  assert (Hother : forall j x, j <> i -> x ∈ new -> ~ late1 j x).
  { intros j x Hj Hx Hl. apply Hj. eapply late1_of_session; [exact Hl|].
    rewrite Forall_forall in Hnew. auto. }
  assert (Hpc_other : forall j, j <> i -> session_pc w' j = session_pc w j).
  { intros j Hj. rewrite Hpc. destruct (decide (j = i)); congruence. }
  assert (Hpc_i : session_pc w' i = Some p').
  { rewrite Hpc. destruct (decide (i = i)); congruence. }
  constructor.
  - intros j x Hj Hx. destruct (decide (j = i)) as [->|Hne]; [congruence|].
    rewrite Ht in Hx. apply elem_of_app in Hx as [Hx|Hx]; [eauto|].
    eapply so_fresh; eauto. rewrite <- Hpc_other; auto.
  - intros j Hj. rewrite Ht. destruct (decide (j = i)) as [->|Hne].
    + apply Oa. congruence.
    + rewrite Hpc_other in Hj by exact Hne.
      destruct (so_await1 w Hw j Hj) as [Hno Hyes]. split.
      * intros x Hx. apply elem_of_app in Hx as [Hx|Hx]; eauto.
      * apply elem_of_app. auto.
  - intros j Hj. rewrite Ht. destruct (decide (j = i)) as [->|Hne].
    + apply Ob. congruence.
    + rewrite Hpc_other in Hj by exact Hne.
      destruct (so_await2 w Hw j Hj) as (Hno & (lib & Hl) & Hyes). split_and!.
      * intros x Hx. apply elem_of_app in Hx as [Hx|Hx]; eauto.
        intros Hl2. eapply Hother; eauto using late2_late1.
      * exists lib. apply elem_of_app. auto.
      * apply elem_of_app. auto.
  - intros j f p Hsplit. rewrite Ht in Hsplit.
    destruct (split_app _ _ _ _ _ Hsplit) as [(t & Hin & _)|(f' & Hold & ->)].
    + assert (Hk : Did j (AppendScript ar_threex_js) ∈ new).
      { rewrite Hin. apply elem_of_app. right. apply list_elem_of_here. }
      destruct (decide (j = i)) as [->|Hne]; [eauto|].
      exfalso. eapply Hother; eauto. right. right. reflexivity.
    + eapply so_second; eauto.
  - intros j f p Hsplit. rewrite Ht in Hsplit.
    destruct (split_app _ _ _ _ _ Hsplit) as [(t & Hin & _)|(f' & Hold & ->)].
    + assert (Hk : Did j marking ∈ new).
      { rewrite Hin. apply elem_of_app. right. apply list_elem_of_here. }
      destruct (decide (j = i)) as [->|Hne]; [eauto|].
      exfalso. eapply Hother; eauto. left. right. right. left. reflexivity.
    + apply marked_in_order_later. eapply so_mark; eauto.
  - intros j Hx. rewrite Ht in *. destruct (decide (j = i)) as [->|Hne].
    + rewrite Hpc_i. destruct (Oe Hx) as (-> & H2 & H3 & H4 & H5).
      split_and!; auto.
    + assert (Hl : late1 j (Host (ScriptError j ar_js))).
      { left. right. left. eauto. }
      apply elem_of_app in Hx as [Hx|Hx]; [exfalso; eapply Hother; eauto|].
      destruct (so_failed w Hw j Hx) as (H1 & H2 & H3 & H4 & H5).
      rewrite Hpc_other by exact Hne. split_and!; auto.
      * intros Hy. apply elem_of_app in Hy as [Hy|Hy]; [|auto].
        eapply Hother; eauto. right. right. reflexivity.
      * intros Hy. apply elem_of_app in Hy as [Hy|Hy]; [|auto].
        eapply Hother; eauto. left. right. right. left. reflexivity.
      * apply elem_of_app. auto.
      * intros a Ha Hy. apply elem_of_app in Hy as [Hy|Hy]; [|eapply H5; eauto].
        eapply Hother; eauto. left. right. right. right. eauto.
Qed.

Lemma pc_after_update w w' i s s' j :
  sessions w' = <[i:=s']> (sessions w) -> sessions w !! i = Some s ->
  session_pc w' j = if decide (j = i) then Some (pc s') else session_pc w j.
Proof.
  intros Hw Hs. unfold session_pc. rewrite Hw.
  destruct (decide (j = i)) as [->|Hne].
  - rewrite (lookup_update_same _ _ _ _ Hs). reflexivity.
  - rewrite lookup_update_other by exact Hne. reflexivity.
Qed.

Lemma pc_after_mount w w' s0 j :
  sessions w' = sessions w ++ [s0] ->
  session_pc w' j =
  if decide (j = length (sessions w)) then Some (pc s0) else session_pc w j.
Proof.
  intros Hw. unfold session_pc. rewrite Hw.
  destruct (decide (j = length (sessions w))) as [->|Hne].
  - rewrite lookup_app_r by lia. rewrite Nat.sub_diag. reflexivity.
  - destruct (decide (j < length (sessions w))) as [Hlt|Hge].
    + rewrite lookup_app_l by exact Hlt. reflexivity.
    + rewrite !lookup_ge_None_2; [reflexivity | lia |].
      rewrite length_app. cbn. lia.
Qed.

Lemma pc_fresh w : session_pc w (length (sessions w)) = None.
Proof. unfold session_pc. rewrite lookup_ge_None_2 by lia. reflexivity. Qed.

Lemma session_pc_lookup w i s : sessions w !! i = Some s -> session_pc w i = Some (pc s).
Proof. unfold session_pc. intros ->. reflexivity. Qed.

(** Closes a goal whose hypothesis [H] says that a given entry is late. *)
Ltac absurd_late2 H :=
  destruct H as [(? & H)|[(? & H)|[H|(? & ? & H)]]];
  try discriminate H; simplify_eq; try contradiction;
  try (exfalso; eapply scripts_differ; eauto; fail).

Ltac absurd_late1 H :=
  destruct H as [H|[(? & ? & H)|H]];
  [ absurd_late2 H
  | try discriminate H; simplify_eq
  | try discriminate H; simplify_eq;
    try (exfalso; eapply scripts_differ; eauto; fail) ].

(** Membership in a short list written out, case by case. *)
Ltac members H :=
  repeat (apply elem_of_cons in H as [H|H]); [..|apply elem_of_nil in H; contradiction].

Lemma split_first {A} (l r f t : list A) x :
  l ++ x :: r = f ++ x :: t -> x ∉ l ->
  (f = l /\ t = r) \/ x ∈ r.
Proof.
  revert f. induction l as [|a l IH]; intros f H Hx; cbn in H.
  - destruct f as [|b f]; cbn in H.
    + injection H as ->. auto.
    + injection H as _ ->. right. apply elem_of_app. right. apply list_elem_of_here.
  - destruct f as [|b f]; cbn in H.
    + injection H as -> _. exfalso. apply Hx. apply list_elem_of_here.
    + injection H as -> H. destruct (IH _ H) as [[-> ->]|Hr]; auto.
      intros Hin. apply Hx. apply list_elem_of_further. exact Hin.
Qed.

Lemma turn_member i kind turn x :
  turn_of i kind turn -> x ∈ turn -> exists a, x = Did i a /\ kind a.
Proof. unfold turn_of. rewrite Forall_forall. auto. Qed.

Lemma script_order_step w e w' :
  script_order w -> transition w e w' -> script_order w'.
Proof.
  intros Hw Htr. destruct (transition_added _ _ _ Htr) as (new & Ht & Hadd).
  destruct Hadd as [new Hin Hsame
                   | s0 Hss Hp0
                   | i s s' lib Hs Hp Hss Hp'
                   | i s s' lib turn Hs Hp Hss Hp' Hk
                   | i s s' lib later Hs Hp Hss Hp' Hep Hk Hsteps
                   | i s s' src Hs Hp Hss Hp'].
  - eapply script_order_inert; eauto.
  - (* a session is created *)
    pose proof (pc_fresh w) as Hfr.
    assert (Hno : forall x,
               x ∈ [Did (length (sessions w)) (AppendScript ar_js);
                    Did (length (sessions w)) SetWindowTHREE; Host Mount]
                   ++ trace (globals w) ->
               ~ late1 (length (sessions w)) x).
    { intros x Hx Hl. apply elem_of_app in Hx as [Hx|Hx].
      - members Hx; subst x; absurd_late1 Hl.
      - eapply so_fresh; eauto. }
    eapply (script_order_extend w w' _ (length (sessions w)) AwaitScript1);
      [exact Hw | exact Ht | | | | | | | ].
    + intros j. rewrite (pc_after_mount w w' s0 j Hss), Hp0. reflexivity.
    + repeat constructor.
    + intros _. split; [exact Hno|]. apply list_elem_of_here.
    + discriminate.
    + intros Hx. exfalso. eapply Hno; [apply elem_of_app; left; exact Hx|].
      right. right. reflexivity.
    + intros Hx. exfalso. eapply Hno; [apply elem_of_app; left; exact Hx|].
      left. right. right. left. reflexivity.
    + intros Hx. exfalso. eapply Hno; [exact Hx|]. left. right. left. eauto.
  - (* the first script has loaded *)
    destruct (so_await1 w Hw i) as [Hno Hyes];
      [rewrite (session_pc_lookup _ _ _ Hs), Hp; reflexivity|].
    eapply (script_order_extend w w' _ i AwaitScript2);
      [exact Hw | exact Ht | | | | | | | ].
    + intros j. rewrite (pc_after_update w w' i s s' j Hss Hs), Hp'. reflexivity.
    + repeat constructor.
    + discriminate.
    + intros _. split_and!.
      * intros x Hx Hl. apply elem_of_app in Hx as [Hx|Hx].
        -- members Hx; subst x; absurd_late2 Hl.
        -- eapply Hno; eauto using late2_late1.
      * exists lib. apply list_elem_of_further, list_elem_of_here.
      * apply elem_of_app. auto.
    + intros _ f p Hsplit. destruct f as [|x f]; cbn in Hsplit.
      * injection Hsplit as <-. eauto.
      * injection Hsplit as _ Hsplit. exfalso.
        assert (Hin : Did i (AppendScript ar_threex_js)
                        ∈ Host (ScriptLoaded i ar_js lib) :: trace (globals w)).
        { rewrite Hsplit. apply elem_of_app. right. apply list_elem_of_here. }
        apply elem_of_cons in Hin as [Hin|Hin]; [discriminate|].
        eapply Hno; [exact Hin|]. right. right. reflexivity.
    + intros Hx. members Hx; discriminate.
    + intros Hx. exfalso. apply elem_of_app in Hx as [Hx|Hx].
      * members Hx; discriminate.
      * eapply Hno; [exact Hx|]. left. right. left. eauto.
  - (* the second script has loaded, and set-up is abandoned *)
    destruct (so_await2 w Hw i) as (Hno & Hfirst & Hyes);
      [rewrite (session_pc_lookup _ _ _ Hs), Hp; reflexivity|].
    assert (Hturn : forall x, x ∈ turn -> exists a, x = Did i a /\ modest_action a)
      by (intros x; apply turn_member; exact Hk).
    eapply (script_order_extend w w' _ i Returned);
      [exact Hw | exact Ht | | | | | | | ].
    + intros j. rewrite (pc_after_update w w' i s s' j Hss Hs), Hp'. reflexivity.
    + apply Forall_app. split; [eapply turn_of_session; eauto | repeat constructor].
    + discriminate.
    + discriminate.
    + intros Hx. exfalso. apply elem_of_app in Hx as [Hx|Hx].
      * destruct (Hturn _ Hx) as (a & Ha & Hm). injection Ha as <-. exact Hm.
      * members Hx; discriminate.
    + intros Hx. exfalso. apply elem_of_app in Hx as [Hx|Hx].
      * destruct (Hturn _ Hx) as (a & Ha & Hm). injection Ha as <-. exact Hm.
      * members Hx; discriminate.
    + intros Hx. exfalso. apply elem_of_app in Hx as [Hx|Hx].
      * apply elem_of_app in Hx as [Hx|Hx].
        -- destruct (Hturn _ Hx) as (a & Ha & _). discriminate.
        -- members Hx; discriminate.
      * eapply Hno; [exact Hx|]. right. left. eauto.
  - (* the second script has loaded, and set-up runs *)
    destruct (so_await2 w Hw i) as (Hno & Hfirst & Hyes);
      [rewrite (session_pc_lookup _ _ _ Hs), Hp; reflexivity|].
    assert (Hturn : forall x, x ∈ later -> exists a, x = Did i a /\ in_setup_turn a)
      by (intros x; apply turn_member; exact Hk).
    assert (Hnomark : Did i marking ∉ later).
    { intros Hx. destruct (Hturn _ Hx) as (a & Ha & Hm). injection Ha as <-.
      destruct Hm as [Hm|[Hm|(ms & Hm)]]; cbn in Hm; try contradiction.
      discriminate. }
    eapply (script_order_extend w w' _ i Returned);
      [exact Hw | exact Ht | | | | | | | ].
    + intros j. rewrite (pc_after_update w w' i s s' j Hss Hs), Hp'. reflexivity.
    + apply Forall_app. split; [eapply turn_of_session; eauto | repeat constructor].
    + discriminate.
    + discriminate.
    + intros Hx. exfalso. apply elem_of_app in Hx as [Hx|Hx].
      * destruct (Hturn _ Hx) as (a & Ha & Hm). injection Ha as <-.
        destruct Hm as [Hm|[Hm|(ms & Hm)]]; cbn in Hm; try contradiction.
        discriminate.
      * members Hx; discriminate.
    + intros _ f p Hsplit. rewrite <- app_assoc in Hsplit. cbn in Hsplit.
      destruct (split_first _ _ _ _ _ Hsplit Hnomark) as [[-> ->]|Hin].
      * split_and!.
        -- exists lib, (trace (globals w)). auto.
        -- intros x Hx. apply elem_of_cons in Hx as [->|Hx].
           ++ split; intros; discriminate.
           ++ split.
              ** intros src ->. eapply Hno; [exact Hx|]. right. left. eauto.
              ** intros a Ha ->. eapply Hno; [exact Hx|]. right. right. right. eauto.
        -- exists [], later, (innerSize (globals w)). split_and!; auto.
           intros e0 Hx. destruct (Hturn _ Hx) as (a & Ha & _). discriminate.
      * exfalso. apply elem_of_cons in Hin as [Hin|Hin]; [discriminate|].
        eapply Hno; [exact Hin|]. right. right. left. reflexivity.
    + intros Hx. exfalso. apply elem_of_app in Hx as [Hx|Hx].
      * apply elem_of_app in Hx as [Hx|Hx].
        -- destruct (Hturn _ Hx) as (a & Ha & _). discriminate.
        -- members Hx; discriminate.
      * eapply Hno; [exact Hx|]. right. left. eauto.
  - (* a script failed to load *)
    eapply (script_order_extend w w' _ i Returned);
      [exact Hw | exact Ht | | | | | | | ].
    + intros j. rewrite (pc_after_update w w' i s s' j Hss Hs), Hp'. reflexivity.
    + repeat constructor.
    + discriminate.
    + discriminate.
    + intros Hx. members Hx; discriminate.
    + intros Hx. members Hx; discriminate.
    + intros Hx. apply awaited_inv in Hp as [[Hp ->]|[Hp ->]].
      * destruct (so_await1 w Hw i) as [Hno Hyes];
          [rewrite (session_pc_lookup _ _ _ Hs), Hp; reflexivity|].
        split_and!.
        -- reflexivity.
        -- intros Hy. apply elem_of_app in Hy as [Hy|Hy].
           ++ members Hy; discriminate.
           ++ eapply Hno; [exact Hy|]. right. right. reflexivity.
        -- intros Hy. apply elem_of_app in Hy as [Hy|Hy].
           ++ members Hy; discriminate.
           ++ eapply Hno; [exact Hy|]. left. right. right. left. reflexivity.
        -- apply list_elem_of_here.
        -- intros a Ha Hy. apply elem_of_app in Hy as [Hy|Hy].
           ++ members Hy; [|discriminate]. injection Hy as ->. exact Ha.
           ++ eapply Hno; [exact Hy|]. left. right. right. right. eauto.
      * exfalso.
        destruct (so_await2 w Hw i) as (Hno & _);
          [rewrite (session_pc_lookup _ _ _ Hs), Hp; reflexivity|].
        apply elem_of_app in Hx as [Hx|Hx].
        -- members Hx; [discriminate|]. apply scripts_differ. congruence.
        -- eapply Hno; [exact Hx|]. right. left. eauto.
Qed.

Lemma script_order_initial c sz : script_order (initial c sz).
Proof.
  constructor; cbn.
  - intros i x _ Hx. apply elem_of_nil in Hx. contradiction.
  - intros i Hi. discriminate.
  - intros i Hi. discriminate.
  - intros i f p H. destruct f; discriminate.
  - intros i f p H. destruct f; discriminate.
  - intros i Hx. apply elem_of_nil in Hx. contradiction.
Qed.

Lemma reachable_script_order c sz es w :
  run es (initial c sz) = Some w -> script_order w.
Proof.
  apply (run_invariant script_order).
  - intros w0 e w1 H0 Htr. eapply script_order_step; eauto.
  - apply script_order_initial.
Qed.

Lemma scripts_requested_step w e w' :
  scripts_requested w -> transition w e w' -> scripts_requested w'.
Proof.
  intros [HA HB] Htr. destruct (transition_added _ _ _ Htr) as (new & Ht & Hadd).
  assert (Hlen : forall i, i < length (sessions w') ->
            i < length (sessions w) \/ Did i (AppendScript ar_js) ∈ new).
  { intros i Hi.
    destruct Hadd as [new Hin Hsame
                     | s0 Hss Hp0
                     | k s s' lib Hs Hp Hss Hp'
                     | k s s' lib turn Hs Hp Hss Hp' Hk
                     | k s s' lib later Hs Hp Hss Hp' Hep Hk Hsteps
                     | k s s' src Hs Hp Hss Hp'];
      try (left; rewrite Hss, length_insert in Hi; exact Hi).
    - left. apply lookup_lt_is_Some_2 in Hi as [t Hti].
      specialize (Hsame i). rewrite Hti in Hsame. cbn in Hsame.
      destruct (sessions w !! i) eqn:E; [|discriminate].
      eapply lookup_lt_Some; eauto.
    - rewrite Hss, length_app in Hi. cbn in Hi.
      destruct (decide (i = length (sessions w))) as [->|Hne]; [right; here | left; lia]. }
  split.
  - intros i Hi. rewrite Ht. apply elem_of_app.
    destruct (Hlen i Hi) as [Hold|Hnew]; auto.
  - intros i lib f p Hsplit. rewrite Ht in Hsplit.
    destruct (split_app _ _ _ _ _ Hsplit) as [(t & Hin & _)|(f' & Hold & ->)].
    + destruct Hadd as [new Hin' Hsame
                       | s0 Hss Hp0
                       | k s s' lib' Hs Hp Hss Hp'
                       | k s s' lib' turn Hs Hp Hss Hp' Hk
                       | k s s' lib' later Hs Hp Hss Hp' Hep Hk Hsteps
                       | k s s' src Hs Hp Hss Hp'].
      * exfalso. rewrite Forall_forall in Hin'.
        apply (Hin' (Host (ScriptLoaded i ar_js lib))).
        rewrite Hin. apply elem_of_app. right. apply list_elem_of_here.
      * exfalso.
        assert (Hx : Host (ScriptLoaded i ar_js lib)
                       ∈ [Did (length (sessions w)) (AppendScript ar_js);
                          Did (length (sessions w)) SetWindowTHREE; Host Mount]).
        { rewrite Hin. apply elem_of_app. right. apply list_elem_of_here. }
        absent Hx.
      * destruct f as [|a [|b f]]; cbn in Hin.
        -- discriminate.
        -- simplify_eq. exists []. reflexivity.
        -- injection Hin as _ _ Hin. destruct f; discriminate.
      * exfalso.
        assert (Hx : Host (ScriptLoaded i ar_js lib)
                       ∈ turn ++ [Host (ScriptLoaded k ar_threex_js lib')]).
        { rewrite Hin. apply elem_of_app. right. apply list_elem_of_here. }
        apply elem_of_app in Hx as [Hx|Hx].
        -- destruct (turn_member _ _ _ _ Hk Hx) as (a & Ha & _). discriminate.
        -- apply list_elem_of_singleton in Hx. apply scripts_differ. congruence.
      * exfalso.
        assert (Hx : Host (ScriptLoaded i ar_js lib)
                       ∈ later ++ [Did k marking; Host (ScriptLoaded k ar_threex_js lib')]).
        { rewrite Hin. apply elem_of_app. right. apply list_elem_of_here. }
        apply elem_of_app in Hx as [Hx|Hx].
        -- destruct (turn_member _ _ _ _ Hk Hx) as (a & Ha & _). discriminate.
        -- apply elem_of_cons in Hx as [Hx|Hx]; [discriminate|].
           apply list_elem_of_singleton in Hx. apply scripts_differ. congruence.
      * exfalso.
        assert (Hx : Host (ScriptLoaded i ar_js lib)
                       ∈ [Did k (ConsoleError ("Failed to load script: " ++ src));
                          Host (ScriptError k src)]).
        { rewrite Hin. apply elem_of_app. right. apply list_elem_of_here. }
        absent Hx.
    + destruct (HB _ _ _ _ Hold) as (f'' & ->).
      exists (new ++ f''). rewrite app_assoc. reflexivity.
Qed.

Lemma reachable_scripts_requested c sz es w :
  run es (initial c sz) = Some w -> scripts_requested w.
Proof.
  apply (run_invariant scripts_requested).
  - intros w0 e w1 H0 Htr. eapply scripts_requested_step; eauto.
  - split; cbn.
    + intros i Hi. lia.
    + intros i lib f p H. destruct f; discriminate.
Qed.

(** *** Frames in the log *)

Lemma renders_mirror_step w e w' :
  renders_mirror w -> transition w e w' -> renders_mirror w'.
Proof.
  intros Hw Htr. destruct (transition_added _ _ _ Htr) as (new & Ht & Hadd).
  intros k sv cv Hx. rewrite Ht in Hx.
  apply elem_of_app in Hx as [Hx|Hx]; [|eapply Hw; eauto].
  destruct Hadd as [new Hin Hsame
                   | s0 Hss Hp0
                   | i s s' lib Hs Hp Hss Hp'
                   | i s s' lib turn Hs Hp Hss Hp' Hk
                   | i s s' lib later Hs Hp Hss Hp' Hep Hk Hsteps
                   | i s s' src Hs Hp Hss Hp'].
  - rewrite Forall_forall in Hin. specialize (Hin _ Hx). cbn in Hin.
    destruct Hin as [Hm|[Hm|Hm]]; cbn in Hm; [contradiction | exact Hm | contradiction].
  - members Hx; discriminate.
  - members Hx; discriminate.
  - apply elem_of_app in Hx as [Hx|Hx]; [|members Hx; discriminate].
    destruct (turn_member _ _ _ _ Hk Hx) as (a & Ha & Hm).
    injection Ha as <- <-. contradiction.
  - apply elem_of_app in Hx as [Hx|Hx]; [|members Hx; discriminate].
    destruct (turn_member _ _ _ _ Hk Hx) as (a & Ha & Hm).
    injection Ha as <- <-.
    destruct Hm as [Hm|[Hm|(ms & Hm)]]; cbn in Hm;
      [contradiction | exact Hm | discriminate].
  - members Hx; discriminate.
Qed.

Lemma reachable_renders_mirror c sz es w :
  run es (initial c sz) = Some w -> renders_mirror w.
Proof.
  apply (run_invariant renders_mirror).
  - intros w0 e w1 H0 Htr. eapply renders_mirror_step; eauto.
  - intros i sv cv Hx. apply elem_of_nil in Hx. contradiction.
Qed.

(** *** The resize listeners *)

Lemma listeners_kept w e w' :
  transition w e w' ->
  forall k, k ∈ resizeListeners (globals w) -> k ∈ resizeListeners (globals w').
Proof.
  intros Htr k Hk.
  inversion Htr as [ | | | | e0 i m g s r s' g' Hcb Hs Hm ]; subst; cbn.
  - destruct (effect_cases (mkWorld (sessions w) (logged Mount w)))
      as [->|(c & _ & _ & ->)]; exact Hk.
  - exact Hk.
  - exact Hk.
  - exact Hk.
  - rewrite caught_resizeListeners.
    inversion Hcb; subst; clear Hcb; same_session.
    + destruct (cleanup_spec i s (logged (Unmount i) w))
        as (s1 & g1 & turn & Heq & _ & _ & _ & _ & _ & _ & _ & _ & Hl & _).
      rewrite Heq in Hm. injection Hm as <- <- <-. rewrite Hl. exact Hk.
    + rewrite initAR_second_script_eq in Hm. injection Hm as <- <- <-. exact Hk.
    + destruct (initAR_setup_spec i s
                  (set_THREEx lib (logged (ScriptLoaded i ar_threex_js lib) w)))
        as (r1 & s1 & g1 & turn & Heq & _ & _ & _ & _ & Hcase).
      rewrite Heq in Hm. injection Hm as <- <- <-.
      destruct Hcase as [(_ & _ & _ & _ & _ & Hl & _)
                        |[(_ & _ & _ & _ & _ & _ & _ & _ & Hl & _)
                         |(_ & _ & _ & _ & _ & _ & Hl & _)]];
        rewrite Hl; [exact Hk | exact Hk |]. apply elem_of_app. left. exact Hk.
    + rewrite initAR_catch_eq in Hm. injection Hm as <- <- <-. exact Hk.
    + destruct (modest_source_ready i stream s
                  (without (SourceInitCb i) (logged (SourceReady i stream) w)))
        as (r1 & s1 & g1 & turn & Heq & _ & _ & _ & _ & _ & _ & Hl & _).
      rewrite Heq in Hm. injection Hm as <- <- <-. rewrite Hl. exact Hk.
    + destruct (modest_context_ready i m0 s
                  (without (ContextInitCb i) (logged (ContextReady i m0) w)))
        as (r1 & s1 & g1 & turn & Heq & _ & _ & _ & _ & _ & _ & Hl & _).
      rewrite Heq in Hm. injection Hm as <- <- <-. rewrite Hl. exact Hk.
    + destruct (modest_model_loaded i gltf s
                  (without (ModelLoadCb i) (logged (ModelLoaded i gltf) w)))
        as (r1 & s1 & g1 & turn & Heq & _ & _ & _ & _ & _ & _ & Hl & _).
      rewrite Heq in Hm. injection Hm as <- <- <-. rewrite Hl. exact Hk.
    + destruct (modest_model_error i err s
                  (without (ModelLoadCb i) (logged (ModelError i err) w)))
        as (r1 & s1 & g1 & turn & Heq & _ & _ & _ & _ & _ & _ & Hl & _).
      rewrite Heq in Hm. injection Hm as <- <- <-. rewrite Hl. exact Hk.
    + destruct (modest_onResize i s
                  (without (TimeoutCb i) (logged (TimerFired i) w)))
        as (r1 & s1 & g1 & turn & Heq & _ & _ & _ & _ & _ & _ & Hl & _).
      rewrite Heq in Hm. injection Hm as <- <- <-. rewrite Hl. exact Hk.
    + destruct (modest_onResize i s (logged (ResizeDispatched i) w))
        as (r1 & s1 & g1 & turn & Heq & _ & _ & _ & _ & _ & _ & Hl & _).
      rewrite Heq in Hm. injection Hm as <- <- <-. rewrite Hl. exact Hk.
    + destruct (modest_set_camera_visible i v s (logged (CameraVisibility i v) w))
        as (r1 & s1 & g1 & turn & Heq & _ & _ & _ & _ & _ & _ & Hl & _).
      rewrite Heq in Hm. injection Hm as <- <- <-. rewrite Hl. exact Hk.
    + destruct (animate_spec i s (without (FrameCb id i) (logged (FrameFired id) w)))
        as (r1 & s1 & g1 & turn & Heq & _ & _ & _ & _ & _ & _ & Hl & _).
      rewrite Heq in Hm. injection Hm as <- <- <-. rewrite Hl. exact Hk.
Qed.

Lemma listener_stays es :
  forall w w' k, run es w = Some w' ->
    k ∈ resizeListeners (globals w) -> k ∈ resizeListeners (globals w').
Proof.
  induction es as [|e rest IH]; intros w w' k Hrun Hk; cbn in Hrun.
  - injection Hrun as <-. exact Hk.
  - destruct (step e w) as [w1|] eqn:Hs; [|discriminate].
    eapply IH; [exact Hrun|]. eapply listeners_kept; [|exact Hk].
    apply step_transition. exact Hs.
Qed.

(** *** A source that is not ready when [init] returns *)

Lemma no_frames_keep w ss g' new :
  no_frames w ->
  THREEx g' ≫= initCompletesSync = None ->
  (forall p, frame_handle p <> None -> p ∈ pending g' -> p ∈ pending (globals w)) ->
  trace g' = new ++ trace (globals w) ->
  (forall i sv cv, Did i (Render sv cv) ∉ new) ->
  no_frames (mkWorld ss g').
Proof.
  intros (Hlib & Hp & Hr) Hlib' Hsub Ht Hnew. split_and!; cbn.
  - exact Hlib'.
  - intros p Hin. destruct (frame_handle p) as [id|] eqn:E; [|reflexivity].
    rewrite <- E. apply Hp. apply Hsub; [congruence | exact Hin].
  - intros i sv cv Hx. rewrite Ht in Hx.
    apply elem_of_app in Hx as [Hx|Hx]; [eapply Hnew | eapply Hr]; eauto.
Qed.

Lemma no_render_in_turn i kind turn e :
  turn_of i kind turn -> (forall sv cv, ~ kind (Render sv cv)) ->
  forall k sv cv, Did k (Render sv cv) ∉ turn ++ [Host e].
Proof.
  intros Hk Hno k sv cv Hx. apply elem_of_app in Hx as [Hx|Hx].
  - destruct (turn_member _ _ _ _ Hk Hx) as (a & Ha & Hm).
    injection Ha as <- <-. eapply Hno; eauto.
  - members Hx; discriminate.
Qed.

Lemma no_frames_modest w e i m g s r s' g' :
  no_frames w -> modest i m ->
  THREEx g = THREEx (globals w) ->
  (forall p, p ∈ pending g -> p ∈ pending (globals w)) ->
  trace g = Host e :: trace (globals w) ->
  m s g = (r, s', g') ->
  no_frames (mkWorld (<[i:=s']> (sessions w)) (caught i r g')).
Proof.
  intros Hw Hmod Hlib Hsub Htr Hm.
  destruct (Hmod s g)
    as (r1 & s1 & g1 & turn & Heq & _ & _ & _ & _ & _ & Htx & _ & _ & Hpend & Ht & Hk).
  rewrite Heq in Hm. injection Hm as <- <- <-.
  eapply (no_frames_keep w _ _ (turn ++ [Host e])); [exact Hw | | | | ].
  - rewrite caught_THREEx, Htx, Hlib. apply Hw.
  - intros p Hp Hin. rewrite caught_pending in Hin. apply Hsub. apply Hpend; auto.
  - rewrite Ht, Htr, <- app_assoc. reflexivity.
  - eapply no_render_in_turn; [exact Hk|]. intros sv cv H. exact H.
Qed.

Lemma no_frames_step w e w' :
  no_frames w -> transition w e w' -> async_event e -> no_frames w'.
Proof.
  intros Hw Htr He.
  inversion Htr as [ | | | | e0 i m g s r s' g' Hcb Hs Hm ]; subst.
  - destruct (effect_cases (mkWorld (sessions w) (logged Mount w)))
      as [->|(c & _ & _ & ->)]; cbn.
    + eapply (no_frames_keep w _ _ [Host Mount]);
        [exact Hw | apply Hw | intros p _ Hin; exact Hin | reflexivity |].
      intros k sv cv Hx. members Hx; discriminate.
    + eapply (no_frames_keep w _ _ [_; _; Host Mount]);
        [exact Hw | apply Hw | intros p _ Hin; exact Hin | reflexivity |].
      intros k sv cv Hx. members Hx; discriminate.
  - eapply (no_frames_keep w _ _ [Host RefDetach]);
      [exact Hw | apply Hw | intros p _ Hin; exact Hin | reflexivity |].
    intros k sv cv Hx. members Hx; discriminate.
  - eapply (no_frames_keep w _ _ [Host (WindowResized x y)]);
      [exact Hw | apply Hw | intros p _ Hin; exact Hin | reflexivity |].
    intros k sv cv Hx. members Hx; discriminate.
  - eapply (no_frames_keep w _ _ [Host (WebGLSupport ok)]);
      [exact Hw | apply Hw | intros p _ Hin; exact Hin | reflexivity |].
    intros k sv cv Hx. members Hx; discriminate.
  - inversion Hcb; subst; clear Hcb; same_session.
    + destruct (cleanup_spec i s (logged (Unmount i) w))
        as (s1 & g1 & turn & Heq & _ & _ & _ & _ & _ & _ & _ & Hpend & _ & _ & _
            & Ht & Hk & Htx).
      rewrite Heq in Hm. injection Hm as <- <- <-. cbn [caught].
      eapply (no_frames_keep w _ _ (turn ++ [Host (Unmount i)])); [exact Hw | | | | ].
      * rewrite Htx. apply Hw.
      * intros p _ Hin. rewrite Hpend in Hin.
        apply list_elem_of_filter in Hin as [_ Hin]. exact Hin.
      * rewrite Ht. cbn. rewrite <- app_assoc. reflexivity.
      * eapply no_render_in_turn; [exact Hk|]. intros sv cv H. exact H.
    + rewrite initAR_second_script_eq in Hm. injection Hm as <- <- <-.
      eapply (no_frames_keep w _ _ [_; Host _]);
        [exact Hw | exact He | intros p _ Hin; exact Hin | reflexivity |].
      intros k sv cv Hx. members Hx; discriminate.
    + destruct (initAR_setup_spec i s
                  (set_THREEx lib (logged (ScriptLoaded i ar_threex_js lib) w)))
        as (r1 & s1 & g1 & turn & Heq & _ & _ & Htx & Ht & Hcase).
      rewrite Heq in Hm. injection Hm as <- <- <-.
      cbn [logged set_THREEx log set_trace THREEx trace] in He, Htx, Ht, Hcase |- *.
      assert (Hlib : THREEx (caught i r1 g1) ≫= initCompletesSync = None)
        by (rewrite caught_THREEx, Htx; exact He).
      assert (Htr' : trace (caught i r1 g1)
                     = (turn ++ [Host (ScriptLoaded i ar_threex_js lib)])
                         ++ trace (globals w))
        by (rewrite Ht, <- app_assoc; reflexivity).
      destruct Hcase as [(_ & _ & _ & _ & Hpend & _ & _ & Hk & _)
                        |[(_ & _ & _ & _ & _ & _ & _ & Hpend & _ & _ & Hturn)
                         |(-> & _ & _ & _ & _ & _ & _
                           & (later & Hturn & Hkl & _) & Hfr)]]; cbn [caught] in *.
      * eapply no_frames_keep; [exact Hw | exact Hlib | | exact Htr' | ].
        -- intros p _ Hin. rewrite caught_pending, Hpend in Hin. exact Hin.
        -- eapply no_render_in_turn; [exact Hk|]. intros sv cv H. exact H.
      * eapply no_frames_keep; [exact Hw | exact Hlib | | exact Htr' | ].
        -- intros p _ Hin. rewrite caught_pending, Hpend in Hin. exact Hin.
        -- rewrite Hturn. intros k sv cv Hx. members Hx; discriminate.
      * destruct Hfr as [(_ & _ & _ & Hpend & Hno)|([x Hx] & _)]; [|congruence].
        eapply no_frames_keep; [exact Hw | exact Hlib | | exact Htr' | ].
        -- intros p Hp Hin. apply Hpend; auto.
        -- intros k sv cv Hx. apply elem_of_app in Hx as [Hx|Hx];
             [|members Hx; discriminate].
           destruct (decide (k = i)) as [->|Hne]; [eapply Hno; eauto|].
           rewrite Hturn in Hx. apply elem_of_app in Hx as [Hx|Hx];
             [|members Hx; congruence].
           destruct (turn_member _ _ _ _ Hkl Hx) as (a & Ha & _). congruence.
    + rewrite initAR_catch_eq in Hm. injection Hm as <- <- <-.
      eapply (no_frames_keep w _ _ [_; Host _]);
        [exact Hw | apply Hw | intros p _ Hin; exact Hin | reflexivity |].
      intros k sv cv Hx. members Hx; discriminate.
    + eapply no_frames_modest;
        [exact Hw | apply modest_source_ready | | | | exact Hm]; try reflexivity.
      intros q Hq. apply in_without in Hq as [Hq _]. exact Hq.
    + eapply no_frames_modest;
        [exact Hw | apply modest_context_ready | | | | exact Hm]; try reflexivity.
      intros q Hq. apply in_without in Hq as [Hq _]. exact Hq.
    + eapply no_frames_modest;
        [exact Hw | apply modest_model_loaded | | | | exact Hm]; try reflexivity.
      intros q Hq. apply in_without in Hq as [Hq _]. exact Hq.
    + eapply no_frames_modest;
        [exact Hw | apply modest_model_error | | | | exact Hm]; try reflexivity.
      intros q Hq. apply in_without in Hq as [Hq _]. exact Hq.
    + eapply no_frames_modest;
        [exact Hw | apply modest_onResize | | | | exact Hm]; try reflexivity.
      intros q Hq. apply in_without in Hq as [Hq _]. exact Hq.
    + eapply no_frames_modest;
        [exact Hw | apply modest_onResize | | | | exact Hm]; try reflexivity.
      intros q Hq. exact Hq.
    + eapply no_frames_modest;
        [exact Hw | apply modest_set_camera_visible | | | | exact Hm];
        try reflexivity.
      intros q Hq. exact Hq.
    + exfalso. destruct Hw as (_ & Hp & _). specialize (Hp _ H). discriminate.
Qed.

(** With such a library no run ever schedules or renders a frame. *)
Lemma no_frame_without_sync_source es :
  forall w w', no_frames w -> run es w = Some w' -> Forall async_event es ->
               no_frames w'.
Proof.
  induction es as [|e rest IH]; intros w w' Hw Hrun Has; cbn in Hrun.
  - injection Hrun as <-. exact Hw.
  - destruct (step e w) as [w1|] eqn:Hs; [|discriminate].
    apply Forall_cons in Has as [He Hrest].
    eapply IH; [|exact Hrun|exact Hrest].
    eapply no_frames_step; [exact Hw | apply step_transition; exact Hs | exact He].
Qed.

(** * The claims *)

(** ** Mount on an initialised surface *)

(** C1. A mount notification on a display surface that already carries
    the "initialized" marker does nothing: the effect returns the world
    it was given (no session is created, no script is requested, no
    closure variable or shared object changes), and all the host records
    is the notification itself. *)
Theorem mount_on_initialized_surface (w : World) (c : Canvas) :
  canvasRef (globals w) = Some c ->
  truthy (getAttribute c) = true ->
  effect w = w /\
  step Mount w = Some (mkWorld (sessions w) (log (Host Mount) (globals w))).
Proof.
  intros Hc Ht. split.
  - unfold effect. rewrite Hc, Ht. reflexivity.
  - unfold step, handle, effect. cbn. rewrite Hc, Ht. reflexivity.
Qed.

(** The surface of a session that finished its set-up. *)
Lemma mount_on_initialized_surface_witness :
  let w := world_after (Mount :: loaded 0 arjs) (initial blank (640, 480)%Z) in
  let c := mkCanvas (Some "true") in
  (canvasRef (globals w) = Some c /\ truthy (getAttribute c) = true /\
   length (sessions w) = 1) /\
  (effect w = w /\
   step Mount w = Some (mkWorld (sessions w) (log (Host Mount) (globals w)))).
Proof.
  intros w c. split.
  - vm_compute. auto.
  - apply (mount_on_initialized_surface w c); vm_compute; reflexivity.
Defined.

(** ** Unmount at any point *)

(** What the cleanup function does, at every point of the mount
    sequence (every world a run of the host reaches, and every session
    in it, whether or not any script or resource load has resolved): it
    returns normally, leaves the mounted flag false, every track of the
    stream that is attached at that moment ended, the renderer (if one
    was built) disposed, the surface behind the ref unmarked, and no
    frame callback of the session in the host's queue; and whatever the
    host delivers after the unmount, no frame callback of that session
    is queued again.  A stream the tracking library attaches later is
    outside its reach: claim C2 is settled under "The camera after an
    early unmount". *)
Lemma unmount_is_safe c sz es w i s :
  run es (initial c sz) = Some w ->
  sessions w !! i = Some s ->
  (exists s' g',
     cleanup i s (globals w) = (Ok tt, s', g') /\
     isMounted s' = false /\ stopped s' /\ released s' /\ unmarked g' /\
     forall id, FrameCb id i ∉ pending g') /\
  (forall w1 es' w',
     step (Unmount i) w = Some w1 -> run es' w1 = Some w' ->
     forall id, FrameCb id i ∉ pending (globals w')).
Proof.
  intros Hrun Hs. pose proof (reachable_frames_owned _ _ _ _ Hrun) as Hw. split.
  - destruct (cleanup_spec i s (globals w))
      as (s' & g' & turn & Heq & Hm & _ & _ & _ & Hst & Hrel & Hun & Hpend & _).
    exists s', g'. split_and!; auto.
    intros id Hin. rewrite Hpend in Hin.
    apply list_elem_of_filter in Hin as [Hne Hin].
    destruct Hw as [HF _]. destruct (HF _ _ Hin) as (t & Ht & Hid & _).
    assert (t = s) by congruence. subst t.
    rewrite Hid in Hne. cbn in Hne. congruence.
  - intros w1 es' w' Hstep Hrun' id Hin.
    assert (Hw1 : frames_owned w1).
    { eapply frames_owned_step; [exact Hw | apply step_transition; exact Hstep]. }
    assert (Hw' : frames_owned w').
    { eapply (run_invariant frames_owned); [|exact Hw1|exact Hrun'].
      intros w0 e w2 H0 Htr. eapply frames_owned_step; eauto. }
    destruct (unmounted_stays _ _ _ _ Hrun' (unmount_unmounts _ _ _ Hstep))
      as (t & Ht & Hm).
    destruct Hw' as [HF _]. destruct (HF _ _ Hin) as (t' & Ht' & _ & Hm').
    congruence.
Qed.

(** ** One session per surface *)





(** ** When the surface is marked *)

(** C4, as stated, fails: [setAttribute] (line 96) is the first statement
    after the entry-point check, and the scene, renderer, tracking source
    and the rest (lines 98-165) are built after it. *)
Lemma marking_precedes_setup :
  ~ (forall c sz es w, run es (initial c sz) = Some w -> set_up_before_marking w).
Proof.
  intros H.
  pose (es := Mount :: loaded 0 arjs).
  pose (w := world_after es (initial blank (640, 480)%Z)).
  assert (Hrun : run es (initial blank (640, 480)%Z) = Some w)
    by (vm_compute; reflexivity).
  specialize (H _ _ _ _ Hrun 0 (take 19 (trace (globals w)))
                (drop 20 (trace (globals w)))).
  assert (Hin : Did 0 NewScene ∈ drop 20 (trace (globals w))).
  { apply H; [vm_compute; reflexivity|]. apply list_elem_of_here. }
  vm_compute in Hin. absent Hin.
Qed.

(** C4, amended.  Whenever a session marks the surface, the entry just
    before in the log is the successful load of the second script, with
    the three entry points present in [window.THREEx]; the first script
    loaded before that; no script of the session ever failed and none of
    its set-up calls was made before the marking.  The steps (b) to (j)
    follow the marking in the same turn, before the host delivers
    anything else: every one of them, unless the renderer cannot be
    created, in which case the turn ends there, with the scene and the
    camera made and the exception of the constructor reported. *)
Theorem marked_after_scripts_before_setup c sz es w i future past :
  run es (initial c sz) = Some w ->
  trace (globals w) = future ++ Did i marking :: past ->
  marked_in_order i future past.
Proof.
  intros Hrun Hsplit. eapply so_mark; [|exact Hsplit].
  eapply reachable_script_order; eauto.
Qed.

(** The marking by a session whose set-up went through, seen after it
    was unmounted, and the marking by a second session, mounted when
    the host had no WebGL context to give. *)
Lemma marked_after_scripts_before_setup_witness :
  let es := Mount :: loaded 0 arjs ++ [Unmount 0; WebGLSupport false; Mount]
            ++ loaded 1 arjs in
  let w := world_after es (initial blank (640, 480)%Z) in
  let future0 := take 35 (trace (globals w)) in
  let past0 := drop 36 (trace (globals w)) in
  let future1 := take 4 (trace (globals w)) in
  let past1 := drop 5 (trace (globals w)) in
  (run es (initial blank (640, 480)%Z) = Some w /\
   trace (globals w) = future0 ++ Did 0 marking :: past0 /\
   trace (globals w) = future1 ++ Did 1 marking :: past1 /\
   future1 = stopped_at_renderer 1) /\
  marked_in_order 0 future0 past0 /\ marked_in_order 1 future1 past1.
Proof.
  intros es w future0 past0 future1 past1. split.
  - split_and!; vm_compute; reflexivity.
  - split.
    + apply (marked_after_scripts_before_setup blank (640, 480)%Z es w);
        vm_compute; reflexivity.
    + apply (marked_after_scripts_before_setup blank (640, 480)%Z es w);
        vm_compute; reflexivity.
Defined.

(** ** The two scripts *)

(** C8. In every run, every session requests the first script when it
    is mounted; the successful load of the first script of a session is
    directly followed by that session's request for the second, and the
    second is requested nowhere else: each request for it directly
    follows the load of the first script of that session, whose request
    came before.  Once the first script of a session has failed to load,
    [initAR] has returned, the error is on the console, the second
    script was never requested, the surface was not marked and no set-up
    call was made by that session. *)
Theorem scripts_load_in_sequence c sz es w :
  run es (initial c sz) = Some w ->
  (forall i, i < length (sessions w) ->
     Did i (AppendScript ar_js) ∈ trace (globals w)) /\
  (forall i lib future past,
     trace (globals w) = future ++ Host (ScriptLoaded i ar_js lib) :: past ->
     exists future', future = future' ++ [Did i (AppendScript ar_threex_js)]) /\
  (forall i future past,
     trace (globals w) = future ++ Did i (AppendScript ar_threex_js) :: past ->
     exists lib past',
       past = Host (ScriptLoaded i ar_js lib) :: past' /\
       Did i (AppendScript ar_js) ∈ past') /\
  (forall i, Host (ScriptError i ar_js) ∈ trace (globals w) ->
     session_pc w i = Some Returned /\
     (Did i (AppendScript ar_threex_js) ∉ trace (globals w)) /\
     (Did i marking ∉ trace (globals w)) /\
     Did i (ConsoleError ("Failed to load script: " ++ ar_js)) ∈ trace (globals w) /\
     forall a, setup_action a -> Did i a ∉ trace (globals w)).
Proof.
  intros Hrun. pose proof (reachable_script_order _ _ _ _ Hrun) as Hw.
  destruct (reachable_scripts_requested _ _ _ _ Hrun) as [HA HB].
  split_and!.
  - exact HA.
  - exact HB.
  - intros i future past. apply (so_second w Hw).
  - intros i. apply (so_failed w Hw).
Qed.

(** A session whose first script fails; after its unmount, one whose
    scripts load one after the other. *)
Lemma scripts_load_in_sequence_witness :
  let es := [Mount; ScriptError 0 ar_js; Unmount 0; Mount] ++ loaded 1 arjs in
  let w := world_after es (initial blank (640, 480)%Z) in
  (run es (initial blank (640, 480)%Z) = Some w /\
   length (sessions w) = 2 /\
   Host (ScriptError 0 ar_js) ∈ trace (globals w) /\
   Host (ScriptLoaded 1 ar_js (Some arjs)) ∈ trace (globals w) /\
   Did 1 (AppendScript ar_threex_js) ∈ trace (globals w)) /\
  (forall i, i < length (sessions w) ->
     Did i (AppendScript ar_js) ∈ trace (globals w)) /\
  (forall i lib future past,
     trace (globals w) = future ++ Host (ScriptLoaded i ar_js lib) :: past ->
     exists future', future = future' ++ [Did i (AppendScript ar_threex_js)]) /\
  (forall i future past,
     trace (globals w) = future ++ Did i (AppendScript ar_threex_js) :: past ->
     exists lib past',
       past = Host (ScriptLoaded i ar_js lib) :: past' /\
       Did i (AppendScript ar_js) ∈ past') /\
  (forall i, Host (ScriptError i ar_js) ∈ trace (globals w) ->
     session_pc w i = Some Returned /\
     (Did i (AppendScript ar_threex_js) ∉ trace (globals w)) /\
     (Did i marking ∉ trace (globals w)) /\
     Did i (ConsoleError ("Failed to load script: " ++ ar_js)) ∈ trace (globals w) /\
     forall a, setup_action a -> Did i a ∉ trace (globals w)).
Proof.
  intros es w. split.
  - split_and!; [vm_compute; reflexivity | vm_compute; reflexivity
                | vm_compute; here | vm_compute; here | vm_compute; here].
  - apply (scripts_load_in_sequence blank (640, 480)%Z es w).
    vm_compute. reflexivity.
Defined.

(** ** Visibility on every frame *)

(** C6. Every render call a run ever issues is made with the scene's
    [visible] flag equal to the camera's: false on the frames where the
    camera is invisible, true on the others. *)
Theorem rendered_frames_mirror_camera c sz es w i sv cv :
  run es (initial c sz) = Some w ->
  Did i (Render sv cv) ∈ trace (globals w) ->
  sv = cv.
Proof.
  intros Hrun. apply (reachable_renders_mirror _ _ _ _ Hrun).
Qed.

(** A frame rendered while the camera is hidden, after one where it was
    shown. *)
Lemma rendered_frames_mirror_camera_witness :
  let es := Mount :: loaded 0 arjs_sync
            ++ [FrameFired 1; CameraVisibility 0 false; FrameFired 2] in
  let w := world_after es (initial blank (640, 480)%Z) in
  (run es (initial blank (640, 480)%Z) = Some w /\
   Did 0 (Render false false) ∈ trace (globals w) /\
   Did 0 (Render true true) ∈ trace (globals w)) /\
  false = false.
Proof.
  intros es w. split.
  - split_and!; [vm_compute; reflexivity | vm_compute; here | vm_compute; here].
  - apply (rendered_frames_mirror_camera blank (640, 480)%Z es w 0 false false).
    + vm_compute. reflexivity.
    + vm_compute. here.
Defined.

(** ** The resize listener *)

(** C10. When a session that registered its resize listener is
    unmounted, the cleanup ends the camera tracks, cancels the frame
    callback, disposes the renderer and clears the marker of the surface
    behind the ref, and the listener is still registered on the window:
    right after the unmount, where the host can still dispatch a resize
    to it, and in every world reached later. *)
Theorem resize_listener_survives_unmount c sz es w i s :
  run es (initial c sz) = Some w ->
  sessions w !! i = Some s -> isMounted s = true ->
  i ∈ resizeListeners (globals w) ->
  exists w' s',
    step (Unmount i) w = Some w' /\ sessions w' !! i = Some s' /\
    isMounted s' = false /\ stopped s' /\ released s' /\ unmarked (globals w') /\
    (forall id, FrameCb id i ∉ pending (globals w')) /\
    i ∈ resizeListeners (globals w') /\
    is_Some (step (ResizeDispatched i) w') /\
    forall es' w'', run es' w' = Some w'' -> i ∈ resizeListeners (globals w'').
Proof.
  intros Hrun Hs Hm Hl.
  destruct (cleanup_spec i s (logged (Unmount i) w))
    as (s' & g' & turn & Heq & Hm' & _ & _ & _ & Hst & Hrel & Hun & Hpend & Hls & _).
  assert (Hstep : step (Unmount i) w = Some (mkWorld (<[i:=s']> (sessions w)) g')).
  { unfold step, handle. cbn [sessions globals]. rewrite Hs, Hm.
    unfold run_in. cbn [sessions globals]. rewrite Hs.
    unfold logged in Heq. rewrite Heq. reflexivity. }
  assert (Hl' : i ∈ resizeListeners g') by (rewrite Hls; exact Hl).
  exists (mkWorld (<[i:=s']> (sessions w)) g'), s'. cbn. split_and!; auto.
  - eapply lookup_update_same; eauto.
  - intros id Hin. rewrite Hpend in Hin.
    apply list_elem_of_filter in Hin as [Hne Hin]. cbn in Hin.
    destruct (reachable_frames_owned _ _ _ _ Hrun) as [HF _].
    destruct (HF _ _ Hin) as (t & Ht & Hid & _).
    assert (t = s) by congruence. subst t.
    rewrite Hid in Hne. cbn in Hne. congruence.
  - unfold step, handle. cbn [sessions globals].
    assert (Hl2 : i ∈ resizeListeners (log (Host (ResizeDispatched i)) g'))
      by exact Hl'.
    rewrite (bool_decide_eq_true_2 _ Hl2).
    unfold run_in. cbn [sessions globals].
    rewrite (lookup_update_same _ _ _ _ Hs).
    destruct (onResize i s' _) as [[r1 s1] g1]. eexists. reflexivity.
  - intros es' w'' Hrun'. eapply listener_stays; [exact Hrun'|]. exact Hl'.
Qed.

(** A session with a live camera and a scheduled frame. *)
Lemma resize_listener_survives_unmount_witness :
  let es := Mount :: loaded 0 arjs_sync ++ [FrameFired 1] in
  let w := world_after es (initial blank (640, 480)%Z) in
  let s := default closure (sessions w !! 0) in
  (run es (initial blank (640, 480)%Z) = Some w /\
   sessions w !! 0 = Some s /\ isMounted s = true /\
   0 ∈ resizeListeners (globals w)) /\
  exists w' s',
    step (Unmount 0) w = Some w' /\ sessions w' !! 0 = Some s' /\
    isMounted s' = false /\ stopped s' /\ released s' /\ unmarked (globals w') /\
    (forall id, FrameCb id 0 ∉ pending (globals w')) /\
    0 ∈ resizeListeners (globals w') /\
    is_Some (step (ResizeDispatched 0) w') /\
    forall es' w'', run es' w' = Some w'' -> 0 ∈ resizeListeners (globals w'').
Proof.
  intros es w s. split.
  - split_and!; [vm_compute; reflexivity .. | vm_compute; here].
  - apply (resize_listener_survives_unmount blank (640, 480)%Z es w 0 s).
    + vm_compute. reflexivity.
    + vm_compute. reflexivity.
    + vm_compute. reflexivity.
    + vm_compute. here.
Defined.

(** ** Loads that resolve after unmount *)

(** C5 does not hold of the code.  The continuation of the script loads
    checks [isMounted] (line 86) and leaves a torn-down session alone;
    the three other callbacks do not.  On a session unmounted right
    after its set-up, the model load still adds the model to the anchor
    group, the tracking context's completion still copies the projection
    matrix into the camera, and the tracking source's completion still
    schedules [onResize], which then resizes against the disposed
    renderer. *)
Theorem loads_after_unmount_touch_session :
  let unmounted_first := [Mount; Unmount 0] ++ loaded 0 arjs in
  let unmounted_later :=
    Mount :: loaded 0 arjs
    ++ [Unmount 0; ModelLoaded 0 42; ContextReady 0 7;
        SourceReady 0 [mkTrack Live]; TimerFired 0] in
  (exists w s,
     run unmounted_first (initial blank (640, 480)%Z) = Some w /\
     sessions w !! 0 = Some s /\
     s = mkSession false None None None None None None None Returned /\
     existsb is_marking (trace (globals w)) = false /\
     pending (globals w) = []) /\
  (exists w s,
     run unmounted_later (initial blank (640, 480)%Z) = Some w /\
     sessions w !! 0 = Some s /\
     isMounted s = false /\
     disposed <$> renderer s = Some true /\
     markerRoot s = Some (mkGroup [mkModel 42 (1#10, 1#10, 1#10)%Q (1#2)%Q]) /\
     camera s = Some (mkCamera true 7) /\
     arToolkitSource s = Some (mkSource true (Some (mkVideo (Some [mkTrack Live])))) /\
     take 11 (trace (globals w)) =
       [ Did 0 CopyElementSizeToController; Did 0 CopyElementSizeToRenderer;
         Did 0 OnResizeElement; Host (TimerFired 0);
         Did 0 (SetTimeout 500); Host (SourceReady 0 [mkTrack Live]);
         Did 0 (ProjectionMatrixCopy 7); Host (ContextReady 0 7);
         Did 0 (GroupAdd (mkModel 42 (1#10, 1#10, 1#10)%Q (1#2)%Q));
         Host (ModelLoaded 0 42);
         Did 0 (RemoveAttribute "data-initialized") ]).
Proof.
  split; eexists _, _; split_and!; vm_compute; reflexivity.
Qed.

(** ** A model that fails to load *)

(** C7 does not hold of the code.  [animate] is called once, at the end
    of the set-up (line 165); the tracking source is not ready yet, so
    the guard of line 159 returns before a frame is requested, and
    nothing calls [animate] again.  When the source then reports ready
    and the model fails to load, the error is on the console and the
    anchor group is empty, but no frame is scheduled, none was rendered
    and the host has no frame to deliver. *)
Theorem render_loop_dead_after_model_failure :
  let es := Mount :: loaded 0 arjs
            ++ [SourceReady 0 [mkTrack Live]; ContextReady 0 7; ModelError 0 "404"] in
  exists w s,
    run es (initial blank (640, 480)%Z) = Some w /\
    sessions w !! 0 = Some s /\
    isMounted s = true /\
    ready <$> arToolkitSource s = Some true /\
    markerRoot s = Some (mkGroup []) /\
    head (trace (globals w)) = Some (Did 0 (ConsoleError "An error happened: 404")) /\
    existsb is_frame (pending (globals w)) = false /\
    existsb is_render (trace (globals w)) = false /\
    step (FrameFired 1) w = None.
Proof.
  eexists _, _; split_and!; vm_compute; reflexivity.
Qed.

(** ** Errors while a request is handled *)

(** A handler that ends the response and then throws: the client keeps
    the 200 and the handler's body, the status code the [catch] block
    sets is never sent, and its [end] makes the finished response raise
    an error. *)
Lemma error_after_end :
  let parse := fun (u : string) (_ : bool) => Ok u in
  let handle := fun (_ : Server.Request) (res : Server.Response) (_ : string) =>
                  (@Throw unit "EPIPE", Server.end_ "<html>" res) in
  let out := Server.listener parse handle (Server.mkRequest "/") Server.fresh in
  Server.settled_as out = Ok tt /\
  Server.console out = [["Error occurred handling"; "/"; "EPIPE"]] /\
  Server.on_wire (Server.response out) = Some 200%Z /\
  Server.body (Server.response out) = ["<html>"] /\
  Server.statusCode (Server.response out) = 500%Z /\
  Server.raisedErrors (Server.response out) = ["ERR_STREAM_WRITE_AFTER_END"].
Proof. cbn. split_and!; reflexivity. Qed.

(** C9, as stated, fails: a response that has gone out cannot be
    converted.  When the handler has ended the response and then throws,
    the client has the 200 and the handler's body; the [catch] block
    still logs the error, but its status code reaches nobody and its
    [end] only makes the finished response raise an error. *)
Lemma sent_response_stays_200 :
  ~ (forall parse handle req err res',
       Server.thrown parse handle req Server.fresh = Some (err, res') ->
       Server.generic_500 (Server.response (Server.listener parse handle req Server.fresh))).
Proof.
  intros H.
  pose (parse := fun (u : string) (_ : bool) => Ok u).
  pose (handle := fun (_ : Server.Request) (res : Server.Response) (_ : string) =>
                    (@Throw unit "EPIPE", Server.end_ "<html>" res)).
  destruct (H parse handle (Server.mkRequest "/") "EPIPE"
              (Server.end_ "<html>" Server.fresh) eq_refl) as [Hwire _].
  vm_compute in Hwire. discriminate.
Qed.

(** C9, amended.  Whatever [url.parse] and the framework's handler do,
    the promise of the request listener is fulfilled: nothing thrown
    while the request is handled leaves the listener.  What was thrown
    goes to the console, with the URL of the request, and the status
    code of the response is set to 500; when nothing of the response
    had been sent, the client gets exactly that: status code 500 and the
    body [internal server error], and the response is finished.  A
    request handled without an exception is answered by the handler
    alone. *)
Theorem unsent_errors_become_500
    (parse : string -> bool -> Result string)
    (handle : Server.Request -> Server.Response -> string -> Result unit * Server.Response)
    (req : Server.Request) (res : Server.Response) :
  let out := Server.listener parse handle req res in
  Server.settled_as out = Ok tt /\
  (Server.thrown parse handle req res = None ->
   Server.console out = [] /\
   exists u, parse (Server.url req) true = Ok u /\
             handle req res u = (Ok tt, Server.response out)) /\
  (forall err res',
     Server.thrown parse handle req res = Some (err, res') ->
     Server.console out = [["Error occurred handling"; Server.url req; err]] /\
     Server.statusCode (Server.response out) = 500%Z /\
     (Server.progress res' = Server.NotSent ->
      Server.response out =
        Server.mkResponse 500 (Server.Finished 500)
                          (Server.body res' ++ ["internal server error"])
                          (Server.raisedErrors res') /\
      (Server.body res' = [] -> Server.generic_500 (Server.response out)))).
Proof.
  cbn zeta. unfold Server.listener, Server.thrown.
  destruct (parse (Server.url req) true) as [u|err0]; cbn.
  - destruct (handle req res u) as [[[]|err0] res1] eqn:Hh; cbn.
    + split_and!; [reflexivity | | discriminate].
      intros _. split; [reflexivity|]. exists u. auto.
    + split_and!; [reflexivity | discriminate |].
      intros err res' Heq. injection Heq as <- <-.
      split_and!; try reflexivity.
      * unfold Server.end_. cbn. destruct (Server.progress res1); reflexivity.
      * intros Hp. unfold Server.end_. cbn. rewrite Hp. split; [reflexivity|].
        intros Hb. unfold Server.generic_500, Server.on_wire. cbn. rewrite Hb.
        split; reflexivity.
  - split_and!; [reflexivity | discriminate |].
    intros err res' Heq. injection Heq as <- <-.
    split_and!; try reflexivity.
    + unfold Server.end_. cbn. destruct (Server.progress res); reflexivity.
    + intros Hp. unfold Server.end_. cbn. rewrite Hp. split; [reflexivity|].
      intros Hb. unfold Server.generic_500, Server.on_wire. cbn. rewrite Hb.
      split; reflexivity.
Qed.

(** A handler whose promise rejects before anything was sent. *)
Lemma unsent_errors_become_500_witness :
  let parse := fun (u : string) (_ : bool) => Ok u in
  let handle := fun (_ : Server.Request) (res : Server.Response) (_ : string) =>
                  (@Throw unit "ENOENT", res) in
  let req := Server.mkRequest "/" in
  let out := Server.listener parse handle req Server.fresh in
  Server.thrown parse handle req Server.fresh = Some ("ENOENT", Server.fresh) /\
  Server.console out = [["Error occurred handling"; "/"; "ENOENT"]] /\
  Server.response out =
    Server.mkResponse 500 (Server.Finished 500) ["internal server error"] [] /\
  Server.generic_500 (Server.response out).
Proof.
  intros parse handle req out.
  destruct (unsent_errors_become_500 parse handle req Server.fresh) as (_ & _ & H).
  destruct (H "ENOENT" Server.fresh eq_refl) as (Hc & _ & Hr).
  destruct (Hr eq_refl) as [Hres Hgen].
  split_and!; [reflexivity | exact Hc | exact Hres | exact (Hgen eq_refl)].
Defined.

(** * Further properties of the component *)

(** ** The callbacks, read by read *)

Lemma cleanup_exact i s g : cleanup i s g = (Ok tt, torn_down s, cleaned i s g).
Proof.
  destruct s as [mnt rnd scn cam sr ctx fid root p].
  destruct g as [cv tx sz pend nh ls tr gl].
  unfold cleanup, torn_down, cleaned, cleanup_calls, tracks_of. run_body.
  destruct sr as [[rd [[[tracks|]]|]]|]; simpl;
    try rewrite stop_each_spec; simpl;
    destruct rnd as [r|]; simpl; destruct cv as [c|]; simpl;
    rewrite <- ?app_assoc; reflexivity.
Qed.

Lemma initAR_setup_skipped i s g :
  isMounted s = false \/ canvasRef g = None ->
  initAR_setup i s g = (Ok tt, set_pc Returned s, g).
Proof.
  destruct s as [mnt rnd scn cam sr ctx fid root p].
  destruct g as [cv tx sz pend nh ls tr gl].
  cbn. intros [->| ->]; [|destruct mnt]; vm_compute; reflexivity.
Qed.

Lemma initAR_setup_missing i s g :
  isMounted s = true -> is_Some (canvasRef g) -> ~ entry_points (THREEx g) ->
  initAR_setup i s g =
  (Ok tt, set_pc Returned s,
   log (Did i (ConsoleError "AR.js components on THREEx failed to load.")) g).
Proof.
  destruct s as [mnt rnd scn cam sr ctx fid root p].
  destruct g as [cv tx sz pend nh ls tr gl].
  cbn. intros -> [c ->] Hno.
  destruct tx as [[[] [] [] sync]|]; try (vm_compute; reflexivity).
  exfalso. apply Hno. split_and!; reflexivity.
Qed.

Lemma initAR_setup_failed i s g :
  isMounted s = true -> is_Some (canvasRef g) -> entry_points (THREEx g) ->
  webgl g = false ->
  exists g',
    initAR_setup i s g = (Throw webgl_error, begun s, g') /\
    canvasRef g' = Some (mkCanvas (Some "true")) /\
    THREEx g' = THREEx g /\ innerSize g' = innerSize g /\
    pending g' = pending g /\ nextHandle g' = nextHandle g /\
    resizeListeners g' = resizeListeners g /\
    webgl g' = webgl g /\
    trace (caught i (Throw webgl_error) g')
      = stopped_at_renderer i ++ Did i marking :: trace g.
Proof.
  destruct s as [mnt rnd scn cam sr ctx fid root p].
  destruct g as [cv tx sz pend nh ls tr gl].
  cbn. intros -> [c ->] (E1 & E2 & E3) ->.
  destruct tx as [[a b d sync]|]; cbn in E1, E2, E3; [subst a b d | discriminate].
  eexists. split; [vm_compute; reflexivity|].
  cbn. split_and!; reflexivity.
Qed.

Lemma initAR_setup_built i s g :
  isMounted s = true -> is_Some (canvasRef g) -> entry_points (THREEx g) ->
  webgl g = true ->
  exists g' later,
    initAR_setup i s g = (Ok tt, assembled s g, g') /\
    canvasRef g' = Some (mkCanvas (Some "true")) /\
    THREEx g' = THREEx g /\ innerSize g' = innerSize g /\
    pending g' = pending g ++ requested i g /\
    nextHandle g' =
      length (filter (fun p => frame_handle p <> None) (requested i g)) + nextHandle g /\
    resizeListeners g' = resizeListeners g ++ [i] /\
    webgl g' = webgl g /\
    trace g' = later ++ Did i marking :: trace g /\
    turn_of i in_setup_turn later /\
    (forall j err, Did j (Uncaught err) ∉ later).
Proof.
  destruct s as [mnt rnd scn cam sr ctx fid root p].
  destruct g as [cv tx sz pend nh ls tr gl].
  cbn. intros -> [c ->] (E1 & E2 & E3) ->.
  destruct tx as [[a b d sync]|]; cbn in E1, E2, E3; [subst a b d | discriminate].
  destruct sync as [stream|].
  all: lazymatch goal with
       | |- exists g' later, ?m = _ /\ _ =>
         let v := eval lazy -[app filter String.append fst snd] in m in
         lazymatch v with
         | (_, _, ?g1) => exists g1; eexists; split; [vm_compute; reflexivity|]
         end
       end.
  all: cbn; split_and!; try reflexivity.
  all: lazymatch goal with
       | |- _ = _ ++ Did _ _ :: _ => unfold marking; suffix
       | |- _ => idtac
       end.
  all: try (rewrite <- ?app_assoc; reflexivity).
  all: lazymatch goal with
       | |- turn_of _ _ _ => turn_kind
       | |- _ => intros j err Hin; absent Hin
       end.
Qed.

Lemma source_ready_exact i stream s g :
  is_Some (arToolkitSource s) ->
  source_ready i stream s g =
  (Ok tt, set_arToolkitSource (Some (mkSource true (Some (mkVideo (Some stream))))) s,
   set_pending (pending g ++ [TimeoutCb i]) (log (Did i (SetTimeout 500)) g)).
Proof.
  destruct s as [mnt rnd scn cam sr ctx fid root p].
  destruct g as [cv tx sz pend nh ls tr gl].
  cbn. intros [src ->]. vm_compute. reflexivity.
Qed.

Lemma context_ready_exact i m s g cam :
  camera s = Some cam -> is_Some (arToolkitContext s) ->
  context_ready i m s g =
  (Ok tt,
   set_camera (Some (mkCamera (camera_visible cam) m))
              (set_arToolkitContext (Some (mkContext true m)) s),
   log (Did i (ProjectionMatrixCopy m)) g).
Proof.
  destruct s as [mnt rnd scn cm sr ctx fid root p].
  destruct g as [cv tx sz pend nh ls tr gl].
  cbn. intros -> [c ->]. destruct cam. vm_compute. reflexivity.
Qed.

Lemma model_loaded_exact i gltf s g root :
  markerRoot s = Some root ->
  model_loaded i gltf s g =
  (Ok tt, set_markerRoot (Some (mkGroup (group_children root ++ [model_of gltf]))) s,
   log (Did i (GroupAdd (model_of gltf))) g).
Proof.
  destruct s as [mnt rnd scn cm sr ctx fid rt p].
  destruct g as [cv tx sz pend nh ls tr gl].
  cbn. intros ->. destruct root. vm_compute. reflexivity.
Qed.

Lemma onResize_exact i s g ctx :
  is_Some (arToolkitSource s) -> is_Some (renderer s) ->
  arToolkitContext s = Some ctx ->
  onResize i s g = (Ok tt, s, set_trace (resize_calls i ctx ++ trace g) g).
Proof.
  destruct s as [mnt rnd scn cm sr cx fid rt p].
  destruct g as [cv tx sz pend nh ls tr gl].
  cbn. intros [src ->] [r ->] ->. destruct ctx as [[] pm]; vm_compute; reflexivity.
Qed.

Lemma animate_idle i s g :
  isMounted s = false \/
  (exists src, arToolkitSource s = Some src /\ ready src = false) ->
  animate i s g = (Ok tt, s, g).
Proof.
  destruct s as [mnt rnd scn cm sr cx fid rt p].
  destruct g as [cv tx sz pend nh ls tr gl].
  cbn. intros [->|([rd dom] & -> & Hr)].
  - vm_compute. reflexivity.
  - cbn in Hr. subst rd. destruct mnt; vm_compute; reflexivity.
Qed.

Lemma animate_run i s g sc cam :
  isMounted s = true -> source_is_ready s ->
  is_Some (arToolkitContext s) -> is_Some (renderer s) ->
  scene s = Some sc -> camera s = Some cam ->
  animate i s g =
  (Ok tt,
   set_scene (Some (mkScene (camera_visible cam) (scene_children sc)))
             (set_animationFrameId (Some (nextHandle g)) s),
   framed i (camera_visible cam) g).
Proof.
  destruct s as [mnt rnd scn cm sr cx fid rt p].
  destruct g as [cv tx sz pend nh ls tr gl].
  cbn. intros -> ([rd dom] & Hs & Hr) [c ->] [r ->] -> ->.
  cbn in Hs, Hr. subst sr rd. destruct sc, cam. vm_compute. reflexivity.
Qed.

Lemma callback_handed w e i m g : callback w e i m g -> g = handed e i w.
Proof. intros H. inversion H; reflexivity. Qed.

Lemma entry_points_dec x : entry_points x \/ ~ entry_points x.
Proof.
  unfold entry_points.
  destruct (entry hasArToolkitContext x), (entry hasArToolkitSource x),
    (entry hasArMarkerControls x);
    first [ left; split_and!; reflexivity | right; intros (? & ? & ?); discriminate ].
Qed.

Lemma ready_or_not s :
  is_Some (arToolkitSource s) ->
  source_is_ready s \/ (exists src, arToolkitSource s = Some src /\ ready src = false).
Proof.
  intros [src Hs]. destruct (ready src) eqn:Hr.
  - left. exists src. auto.
  - right. exists src. auto.
Qed.

(** In a wired world a callback has one of the outcomes of [outcome]:
    it reads no variable that is not assigned. *)
Lemma callback_outcome w e i m g s r s' g' :
  wired w -> callback w e i m g -> sessions w !! i = Some s ->
  m s g = (r, s', g') ->
  outcome i s g e s' (caught i r g').
Proof.
  intros (HP & HL & _) Hcb Hs Hm.
  assert (Hheld : forall p, p ∈ pending (globals w) -> owner p = i -> built s).
  { intros p Hin Hown. destruct (HP p Hin) as (t & Ht & Hb).
    rewrite Hown in Ht. congruence. }
  inversion Hcb; subst; clear Hcb;
    repeat lazymatch goal with
           | H : sessions w !! i = Some ?t |- _ =>
             lazymatch t with
             | s => fail
             | _ => assert (t = s) by congruence; subst t; clear H
             end
           end.
  - rewrite cleanup_exact in Hm. injection Hm as <- <- <-.
    constructor; assumption.
  - rewrite initAR_second_script_eq in Hm. injection Hm as <- <- <-.
    constructor; assumption.
  - set (g := set_THREEx lib (logged (ScriptLoaded i ar_threex_js lib) w)) in *.
    destruct (isMounted s) eqn:Hmnt;
      [destruct (canvasRef g) as [c|] eqn:Hc;
       [destruct (entry_points_dec (THREEx g)) as [His|Hno];
        [destruct (webgl g) eqn:Hgl|]|]|].
    + destruct (initAR_setup_built i s g) as (g1 & later & Heq & Hfacts);
        [exact Hmnt | rewrite Hc; eexists; reflexivity | exact His | exact Hgl |].
      rewrite Heq in Hm. injection Hm as <- <- <-.
      destruct Hfacts as (? & ? & ? & ? & ? & ? & ? & ? & ? & ?).
      eapply out_built; eauto.
    + destruct (initAR_setup_failed i s g) as (g1 & Heq & Hfacts);
        [exact Hmnt | rewrite Hc; eexists; reflexivity | exact His | exact Hgl |].
      rewrite Heq in Hm. injection Hm as <- <- <-.
      destruct Hfacts as (? & ? & ? & ? & ? & ? & ? & ?).
      eapply out_failed; eauto.
    + rewrite initAR_setup_missing in Hm;
        [| exact Hmnt | rewrite Hc; eexists; reflexivity | exact Hno].
      injection Hm as <- <- <-. apply out_missing; auto.
    + rewrite initAR_setup_skipped in Hm by (right; exact Hc).
      injection Hm as <- <- <-. apply out_skipped; auto.
    + rewrite initAR_setup_skipped in Hm by (left; exact Hmnt).
      injection Hm as <- <- <-. apply out_skipped; auto.
  - rewrite initAR_catch_eq in Hm. injection Hm as <- <- <-.
    constructor; assumption.
  - assert (Hb : built s) by (apply (Hheld (SourceInitCb i)); auto).
    pose proof Hb as (_ & _ & _ & Hsrc & _).
    rewrite source_ready_exact in Hm by exact Hsrc. injection Hm as <- <- <-.
    constructor; assumption.
  - assert (Hb : built s) by (apply (Hheld (ContextInitCb i)); auto).
    pose proof Hb as (_ & _ & [cam Hcam] & _ & Hctx & _).
    rewrite (context_ready_exact _ _ _ _ cam) in Hm by auto.
    injection Hm as <- <- <-. constructor; assumption.
  - assert (Hb : built s) by (apply (Hheld (ModelLoadCb i)); auto).
    pose proof Hb as (_ & _ & _ & _ & _ & [root Hroot]).
    rewrite (model_loaded_exact _ _ _ _ root) in Hm by auto.
    injection Hm as <- <- <-. constructor; assumption.
  - assert (Hb : built s) by (apply (Hheld (ModelLoadCb i)); auto).
    unfold model_error, act, setG in Hm. injection Hm as <- <- <-.
    constructor; assumption.
  - assert (Hb : built s) by (apply (Hheld (TimeoutCb i)); auto).
    pose proof Hb as (Hr & _ & _ & Hsrc & [ctx Hctx] & _).
    rewrite (onResize_exact _ _ _ ctx) in Hm by auto.
    injection Hm as <- <- <-. constructor; assumption.
  - assert (Hb : built s).
    { destruct (HL i) as (t & Ht & Hb); auto. congruence. }
    pose proof Hb as (Hr & _ & _ & Hsrc & [ctx Hctx] & _).
    rewrite (onResize_exact _ _ _ ctx) in Hm by auto.
    injection Hm as <- <- <-. constructor; assumption.
  - unfold set_camera_visible, setS in Hm. injection Hm as <- <- <-.
    constructor.
  - assert (Hb : built s) by (apply (Hheld (FrameCb id i)); auto).
    pose proof Hb as (Hr & [sc Hsc] & [cam Hcam] & Hsrc & Hctx & _).
    destruct (isMounted s) eqn:Hmnt.
    + destruct (ready_or_not s Hsrc) as [Hrd|Hnot].
      * rewrite (animate_run _ _ _ sc cam) in Hm by auto.
        injection Hm as <- <- <-.
        exact (out_frame i s _ id sc cam Hb Hmnt Hrd Hsc Hcam).
      * rewrite animate_idle in Hm by (right; exact Hnot).
        injection Hm as <- <- <-.
        apply out_frame_idle; [exact Hb|]. right. intros (src & Hs1 & Hr1).
        destruct Hnot as (src' & Hs2 & Hr2). congruence.
    + rewrite animate_idle in Hm by (left; exact Hmnt).
      injection Hm as <- <- <-.
      apply out_frame_idle; [exact Hb|]. left. exact Hmnt.
Qed.

(** Every transition of a wired world, with the callback's reads
    resolved. *)
Lemma transition_cases w e w' :
  wired w -> transition w e w' ->
  (e = Mount /\ w' = effect (mkWorld (sessions w) (logged Mount w))) \/
  (e = RefDetach /\
   w' = mkWorld (sessions w) (set_canvasRef None (logged RefDetach w))) \/
  (exists x y, e = WindowResized x y /\
     w' = mkWorld (sessions w) (set_innerSize (x, y) (logged e w))) \/
  (exists ok, e = WebGLSupport ok /\
     w' = mkWorld (sessions w) (set_webgl ok (logged e w))) \/
  (exists i s s' g' m,
     callback w e i m (handed e i w) /\
     sessions w !! i = Some s /\ outcome i s (handed e i w) e s' g' /\
     w' = mkWorld (<[i:=s']> (sessions w)) g').
Proof.
  intros Hw Htr.
  inversion Htr as [ | | | | e0 i m g s r s' g' Hcb Hs Hm ]; subst.
  - left. auto.
  - right. left. auto.
  - right. right. left. eauto.
  - right. right. right. left. eauto.
  - right. right. right. right.
    pose proof (callback_outcome _ _ _ _ _ _ _ _ _ Hw Hcb Hs Hm) as Hout.
    pose proof (callback_handed _ _ _ _ _ Hcb) as Hg. rewrite Hg in Hout, Hcb.
    exists i, s, s', (caught i r g'), m. auto.
Qed.

Lemma handed_facts e i w :
  canvasRef (handed e i w) = canvasRef (globals w) /\
  innerSize (handed e i w) = innerSize (globals w) /\
  nextHandle (handed e i w) = nextHandle (globals w) /\
  resizeListeners (handed e i w) = resizeListeners (globals w) /\
  trace (handed e i w) = Host e :: trace (globals w) /\
  (forall p, p ∈ pending (handed e i w) -> p ∈ pending (globals w)).
Proof.
  destruct e; cbn; split_and!; try reflexivity;
    intros p Hin; try apply list_elem_of_filter in Hin; tauto.
Qed.

Lemma handed_webgl e i w : webgl (handed e i w) = webgl (globals w).
Proof. destruct e; reflexivity. Qed.

Lemma built_not_bare s : built s -> bare s -> False.
Proof. intros ([r Hr] & _) (Hn & _). congruence. Qed.

Lemma built_not_stalled s : built s -> stalled s -> False.
Proof. intros ([r Hr] & _) (_ & Hn & _). congruence. Qed.

Lemma stalled_not_bare s : stalled s -> bare s -> False.
Proof. intros (_ & _ & Hsc & _) (_ & Hn & _). congruence. Qed.

Lemma stalled_begun s : bare s -> stalled (begun s).
Proof.
  intros (E1 & E2 & E3 & E4 & E5 & E6 & E7). unfold stalled, begun. cbn.
  split_and!; eauto.
Qed.

(** Updating session [i] keeps a world wired when the session keeps its
    objects, only gains callbacks once it has them all, and logs no
    exception but that of a set-up stopped at the renderer. *)
Lemma wired_update w i s s' g' new :
  wired w -> sessions w !! i = Some s ->
  (built s -> built s') -> (bare s -> built s' \/ bare s' \/ stalled s') ->
  (stalled s -> stalled s') ->
  (pc s' <> Returned -> pc s <> Returned /\ (bare s -> bare s')) ->
  (forall p, p ∈ pending g' ->
     p ∈ pending (globals w) \/ (owner p = i /\ built s')) ->
  (forall j, j ∈ resizeListeners g' ->
     j ∈ resizeListeners (globals w) \/ (j = i /\ built s')) ->
  trace g' = new ++ trace (globals w) ->
  (forall j err, Did j (Uncaught err) ∈ new ->
     j = i /\ err = webgl_error /\ stalled s') ->
  wired (mkWorld (<[i:=s']> (sessions w)) g').
Proof.
  intros (HP & HL & HS & HB & HU) Hs Hb Hn Hst Hpc Hpend Hls Htr Hnew.
  assert (Hkeep : forall j t, sessions w !! j = Some t -> built t ->
            exists t', <[i:=s']> (sessions w) !! j = Some t' /\ built t').
  { intros j t Ht Hbt. destruct (decide (j = i)) as [->|Hne].
    - exists s'. rewrite (lookup_update_same _ _ _ _ Hs).
      split; [reflexivity|]. apply Hb. congruence.
    - exists t. rewrite lookup_update_other by exact Hne. auto. }
  split_and!; cbn.
  - intros p Hin. destruct (Hpend p Hin) as [Hold|[Hown Hbs]].
    + destruct (HP p Hold) as (t & Ht & Hbt). eauto.
    + exists s'. rewrite Hown, (lookup_update_same _ _ _ _ Hs). auto.
  - intros j Hin. destruct (Hls j Hin) as [Hold|[-> Hbs]].
    + destruct (HL j Hold) as (t & Ht & Hbt). eauto.
    + exists s'. rewrite (lookup_update_same _ _ _ _ Hs). auto.
  - intros j t Ht. apply lookup_updated in Ht as [[-> ->]|[Hne Ht]]; [|eauto].
    destruct (HS _ _ Hs) as [Hbs|[Hbs|Hbs]]; auto.
  - intros j t Ht Hp. apply lookup_updated in Ht as [[-> ->]|[Hne Ht]]; [|eauto].
    destruct (Hpc Hp) as [Hp' Hbb]. apply Hbb. eapply HB; eauto.
  - intros j err Hin. rewrite Htr in Hin. apply elem_of_app in Hin as [Hin|Hin].
    + destruct (Hnew _ _ Hin) as (-> & -> & Hs'). split; [reflexivity|].
      exists s'. rewrite (lookup_update_same _ _ _ _ Hs). auto.
    + destruct (HU _ _ Hin) as (-> & t & Ht & Hbt). split; [reflexivity|].
      destruct (decide (j = i)) as [->|Hne].
      * exists s'. rewrite (lookup_update_same _ _ _ _ Hs).
        split; [reflexivity|]. apply Hst. congruence.
      * exists t. rewrite lookup_update_other by exact Hne. auto.
Qed.

(** Logging what the host does keeps a world wired. *)
Lemma wired_logged w g e :
  wired w -> pending g = pending (globals w) ->
  resizeListeners g = resizeListeners (globals w) ->
  trace g = Host e :: trace (globals w) ->
  wired (mkWorld (sessions w) g).
Proof.
  intros (HP & HL & HS & HB & HU) Hp Hl Ht. split_and!; cbn; auto.
  - rewrite Hp. exact HP.
  - rewrite Hl. exact HL.
  - intros j err Hin. rewrite Ht in Hin.
    apply elem_of_cons in Hin as [Hin|Hin]; [discriminate|]. eauto.
Qed.

Lemma cleanup_calls_quiet i s g j err : Did j (Uncaught err) ∉ cleanup_calls i s g.
Proof.
  unfold cleanup_calls. intros Hin.
  repeat (apply elem_of_app in Hin as [Hin|Hin]).
  - destruct (canvasRef g); [absent Hin | inversion Hin].
  - destruct (renderer s); [absent Hin | inversion Hin].
  - apply elem_of_replicate in Hin as [Hin _]. discriminate.
  - absent Hin.
Qed.

Lemma resize_calls_quiet i ctx j err : Did j (Uncaught err) ∉ resize_calls i ctx.
Proof. unfold resize_calls. destruct (arController ctx); intros Hin; absent Hin. Qed.

(** [built] of the session a callback leaves, from [built] before. *)
Ltac keep_built :=
  let H := fresh in
  intros H; unfold built in H; destruct H as (? & ? & ? & ? & ? & ?);
  unfold built, torn_down, shown, assembled, begun; repeat case_match; cbn;
  rewrite ?fmap_is_Some; split_and!; eauto;
  lazymatch goal with
  | H : is_Some None |- _ => destruct H; discriminate
  end.

Ltac is_built :=
  first
    [ assumption
    | lazymatch goal with Hb : built ?s |- built _ => revert Hb; keep_built end
    | unfold built, assembled; repeat case_match; cbn; split_and!; eauto ].

(** [bare] of the session a callback leaves, from [H : bare s]. *)
Ltac is_bare H :=
  first
    [ exfalso; eapply built_not_bare; [eassumption | exact H]
    | destruct H as (E1 & E2 & E3 & E4 & E5 & E6 & E7);
      unfold bare, torn_down, shown; cbn;
      rewrite ?E1, ?E2, ?E3, ?E4, ?E5, ?E6, ?E7; cbn; split_and!; auto ].

Ltac keep_bare :=
  let H := fresh in
  intros H;
  first [ left; clear H; is_built; fail
        | right; right; apply stalled_begun; exact H
        | right; left; is_bare H ].

(** [stalled] of the session a callback leaves, from [stalled] before. *)
Ltac keep_stalled :=
  let H := fresh in
  intros H;
  first
    [ exfalso; eapply built_not_stalled; [eassumption | exact H]
    | exfalso; destruct H as (H & _);
      repeat match goal with
             | Hp : context [pc _] |- _ =>
               lazymatch Hp with
               | H => fail
               | _ => rewrite H in Hp; cbn in Hp; discriminate Hp
               end
             end; fail
    | destruct H as (E0 & E1 & E2 & (? & E3) & E4 & E5 & E6 & E7);
      unfold stalled, torn_down, shown; cbn;
      rewrite ?E0, ?E1, ?E2, ?E3, ?E4, ?E5, ?E6, ?E7; cbn; split_and!; eauto ].

Ltac keep_pc :=
  let Hp := fresh "Hp" in let Hb := fresh "Hb" in
  intros Hp; try unfold torn_down in Hp; try unfold shown in Hp;
  try unfold assembled in Hp; try unfold begun in Hp;
  repeat case_match; cbn in Hp;
  first [ done
        | split; [first [exact Hp | congruence] | intros Hb; is_bare Hb] ].

(** No exception among the entries of a list written out. *)
Ltac quiet_in Hin :=
  first
    [ exact (cleanup_calls_quiet _ _ _ _ _ Hin)
    | exact (resize_calls_quiet _ _ _ _ Hin)
    | lazymatch goal with
      | H : forall j err, Did j (Uncaught err) ∉ ?l |- _ => exact (H _ _ Hin)
      end
    | apply elem_of_nil in Hin; contradiction
    | apply elem_of_cons in Hin as [Hin|Hin]; [discriminate Hin | quiet_in Hin]
    | apply elem_of_app in Hin as [Hin|Hin]; quiet_in Hin ].

(** The only exception among the entries a callback adds is that of the
    renderer's constructor. *)
Ltac quiet :=
  let Hin := fresh "Hin" in
  intros ? ? Hin;
  first
    [ exfalso; quiet_in Hin
    | unfold stopped_at_renderer in Hin; cbn [app] in Hin;
      apply elem_of_cons in Hin as [Hin|Hin];
      [ injection Hin as -> ->; split_and!;
        [reflexivity | reflexivity | apply stalled_begun; assumption]
      | exfalso; quiet_in Hin ] ].

Lemma requested_owner i g p : p ∈ requested i g -> owner p = i.
Proof.
  unfold requested. intros Hin.
  destruct (THREEx g ≫= initCompletesSync);
    repeat (apply elem_of_cons in Hin as [->|Hin]; [reflexivity|]);
    apply elem_of_nil in Hin; contradiction.
Qed.

(** No callback changes what the host can do, and none throws while
    the host can create a WebGL context. *)
Lemma outcome_webgl i s g e s' g' :
  outcome i s g e s' g' ->
  webgl g' = webgl g /\
  (webgl g = true ->
   exists turn, trace g' = turn ++ trace g /\
                forall j err, Did j (Uncaught err) ∉ turn).
Proof.
  intros Hout. inversion Hout; subst; clear Hout.
  all: split; [first [reflexivity | assumption]|].
  all: intros Hgl; try congruence.
  all: lazymatch goal with
       | H : trace ?g1 = ?later ++ _ :: _ |- _ =>
         exists (later ++ [Did i marking]); split;
         [rewrite H, <- app_assoc; reflexivity|]
       | |- context [cleaned] =>
         exists (cleanup_calls i s g); split; [reflexivity|]
       | |- context [resize_calls _ ?ctx] =>
         exists (resize_calls i ctx); split; [reflexivity|]
       | |- _ => eexists; split; [cbn; suffix|]
       end.
  all: let Hin := fresh "Hin" in intros ? ? Hin; quiet_in Hin.
Qed.

(** ** Callbacks only run on sessions that have their objects *)

Lemma wired_step w e w' : wired w -> transition w e w' -> wired w'.
Proof.
  intros Hw Htr.
  destruct (transition_cases _ _ _ Hw Htr)
    as [[-> ->]|[[-> ->]|[(x & y & -> & ->)|[(ok & -> & ->)
                         |(i & s & s' & g' & m & Hcb & Hs & Hout & ->)]]]].
  - assert (Hl : wired (mkWorld (sessions w) (logged Mount w)))
      by (eapply wired_logged; [exact Hw | reflexivity..]).
    destruct (effect_cases (mkWorld (sessions w) (logged Mount w)))
      as [->|(c & _ & _ & ->)]; [exact Hl|].
    destruct Hl as (HP & HL & HS & HB & HU). cbn in *. split_and!; cbn.
    + intros p Hin. destruct (HP p Hin) as (t & Ht & Hb). exists t.
      split; [|exact Hb]. apply lookup_app_l_Some. exact Ht.
    + intros j Hin. destruct (HL j Hin) as (t & Ht & Hb). exists t.
      split; [|exact Hb]. apply lookup_app_l_Some. exact Ht.
    + intros j t Ht. apply lookup_appended in Ht as [[-> ->]|[_ Ht]]; [|eauto].
      right. left. unfold bare. cbn. split_and!; reflexivity.
    + intros j t Ht Hp. apply lookup_appended in Ht as [[-> ->]|[_ Ht]]; [|eauto].
      unfold bare. cbn. split_and!; reflexivity.
    + intros j err Hin.
      do 2 (apply elem_of_cons in Hin as [Hin|Hin]; [discriminate|]).
      destruct (HU _ _ Hin) as (-> & t & Ht & Hst). split; [reflexivity|].
      exists t. split; [|exact Hst]. apply lookup_app_l_Some. exact Ht.
  - eapply wired_logged; [exact Hw | reflexivity..].
  - eapply wired_logged; [exact Hw | reflexivity..].
  - eapply wired_logged; [exact Hw | reflexivity..].
  - destruct (handed_facts e i w) as (Hc & Hsz & Hnh & Hls & Htrace & Hpend).
    assert (Hloading : pc s <> Returned -> bare s).
    { destruct Hw as (_ & _ & _ & HB & _). eauto. }
    inversion Hout; subst; clear Hout.
    all: try lazymatch goal with
             | H : pc _ = AwaitScript2 |- _ =>
               pose proof (Hloading ltac:(congruence)) as Hbare
             end.
    all: eapply wired_update; [exact Hw | exact Hs | ..].
    all: cbn [pending resizeListeners trace log set_trace set_pending cleaned framed].
    all: try (rewrite Htrace).
    all: lazymatch goal with
         | |- built _ -> built _ => keep_built
         | |- bare _ -> _ \/ _ => keep_bare
         | |- stalled _ -> stalled _ => keep_stalled
         | |- pc _ <> Returned -> _ => keep_pc
         | |- forall p, p ∈ _ -> p ∈ pending _ \/ _ =>
           let Hin := fresh "Hin" in
           intros p Hin;
           repeat match goal with
                  | H : pending ?g = _ |- _ => rewrite H in Hin; clear H
                  end;
           repeat match type of Hin with
                  | _ ∈ filter _ _ => apply list_elem_of_filter in Hin as [_ Hin]
                  | _ ∈ _ ++ _ => apply elem_of_app in Hin as [Hin|Hin]
                  end;
           first
             [ left; apply Hpend; exact Hin
             | right; split;
               [ first [ eapply requested_owner; exact Hin
                       | apply list_elem_of_singleton in Hin as ->; reflexivity ]
               | is_built ] ]
         | |- forall j, j ∈ _ -> j ∈ resizeListeners _ \/ _ =>
           let Hin := fresh "Hin" in
           intros j Hin;
           repeat match goal with
                  | H : resizeListeners ?g = _ |- _ => rewrite H in Hin; clear H
                  end;
           try (apply elem_of_app in Hin as [Hin|Hin]);
           first
             [ left; exact Hin
             | right; split;
               [ apply list_elem_of_singleton in Hin; exact Hin | is_built ] ]
         | |- _ => idtac
         end.
    all: lazymatch goal with
         | |- _ = _ ++ _ =>
           repeat match goal with
                  | H : trace ?g = _ |- _ => rewrite H; clear H
                  end;
           rewrite ?Htrace; cbn [app]; suffix
         | |- _ => idtac
         end.
    all: quiet.
Qed.

Lemma wired_initial c sz : wired (initial c sz).
Proof.
  split_and!; cbn.
  - intros p Hin. inversion Hin.
  - intros i Hin. inversion Hin.
  - intros i s Hs. discriminate.
  - intros i s Hs. discriminate.
  - intros i err Hin. inversion Hin.
Qed.

Lemma reachable_wired c sz es w : run es (initial c sz) = Some w -> wired w.
Proof.
  apply (run_invariant wired).
  - intros w0 e w1 H0 Htr. eapply wired_step; eauto.
  - apply wired_initial.
Qed.

(** ** Frame handles *)

Lemma handles_update w i s s' g' :
  handles w -> sessions w !! i = Some s ->
  (source_is_ready s -> source_is_ready s') ->
  (animationFrameId s' = animationFrameId s /\
   nextHandle g' = nextHandle (globals w) \/
   animationFrameId s' = Some (nextHandle (globals w)) /\
   nextHandle g' = S (nextHandle (globals w)) /\ source_is_ready s') ->
  handles (mkWorld (<[i:=s']> (sessions w)) g').
Proof.
  intros (H1 & HR & HD) Hs Hrd Hcase. split_and!; cbn.
  - destruct Hcase as [[_ ->]|(_ & -> & _)]; lia.
  - intros j t h Ht Hh. apply lookup_updated in Ht as [[-> ->]|[Hne Ht]].
    + destruct Hcase as [[Hf ->]|(Hf & -> & Hr)].
      * rewrite Hf in Hh. destruct (HR _ _ _ Hs Hh). auto.
      * rewrite Hf in Hh. injection Hh as <-. split; [lia | exact Hr].
    + destruct (HR _ _ _ Ht Hh) as [Hb Hr]. split; [|exact Hr].
      destruct Hcase as [[_ ->]|(_ & -> & _)]; lia.
  - intros j k sj sk h Hj Hk Hhj Hhk.
    apply lookup_updated in Hj as [[-> ->]|[Hnj Hj]];
      apply lookup_updated in Hk as [[-> ->]|[Hnk Hk]]; auto.
    + destruct Hcase as [[Hf _]|(Hf & _ & _)].
      * rewrite Hf in Hhj. eapply HD; eauto.
      * rewrite Hf in Hhj. injection Hhj as <-.
        destruct (HR _ _ _ Hk Hhk). lia.
    + destruct Hcase as [[Hf _]|(Hf & _ & _)].
      * rewrite Hf in Hhk. eapply HD; eauto.
      * rewrite Hf in Hhk. injection Hhk as <-.
        destruct (HR _ _ _ Hj Hhj). lia.
    + eapply HD; eauto.
Qed.

(** The source stays ready when it was. *)
Ltac keep_ready :=
  let src := fresh "src" in let Hsrc := fresh "Hsrc" in let Hr := fresh "Hr" in
  intros (src & Hsrc & Hr);
  first
    [ lazymatch goal with
      | Hb : bare _ |- _ => destruct Hb as (_ & _ & _ & Hb & _); congruence
      end
    | unfold source_is_ready, torn_down, shown; repeat case_match; cbn;
      first
        [ eexists; split; reflexivity
        | exists src; split; assumption
        | rewrite Hsrc; cbn; eexists; split; [reflexivity | exact Hr] ] ].

Lemma handles_step w e w' :
  wired w -> handles w -> transition w e w' -> handles w'.
Proof.
  intros Hw Hh Htr.
  destruct (transition_cases _ _ _ Hw Htr)
    as [[-> ->]|[[-> ->]|[(x & y & -> & ->)|[(ok & -> & ->)
                         |(i & s & s' & g' & m & Hcb & Hs & Hout & ->)]]]].
  - destruct (effect_cases (mkWorld (sessions w) (logged Mount w)))
      as [->|(c & _ & _ & ->)]; [exact Hh|].
    destruct Hh as (H1 & HR & HD). split_and!; cbn; [exact H1 | |].
    + intros j t h Ht Hf. apply lookup_appended in Ht as [[-> ->]|[_ Ht]]; [discriminate|].
      eapply HR; eauto.
    + intros j k sj sk h Hj Hk Hfj Hfk.
      apply lookup_appended in Hj as [[-> ->]|[_ Hj]]; [discriminate|].
      apply lookup_appended in Hk as [[-> ->]|[_ Hk]]; [discriminate|].
      eapply HD; eauto.
  - exact Hh.
  - exact Hh.
  - exact Hh.
  - destruct (handed_facts e i w) as (Hc & Hsz & Hnh & Hls & Htrace & Hpend).
    assert (Hloading : pc s <> Returned -> bare s).
    { destruct Hw as (_ & _ & _ & HB & _). eauto. }
    inversion Hout; subst; clear Hout.
    all: try lazymatch goal with
             | H : pc _ = AwaitScript2 |- _ =>
               pose proof (Hloading ltac:(congruence)) as Hbare
             end.
    all: eapply handles_update; [exact Hh | exact Hs | ..].
    all: lazymatch goal with
         | |- source_is_ready _ -> _ => keep_ready
         | |- _ => idtac
         end.
    all: first
      [ left; split; [unfold shown; repeat case_match; reflexivity | cbn; exact Hnh]
      | idtac ].
    + unfold assembled, requested in *.
      destruct (THREEx _ ≫= initCompletesSync) as [stream|]; cbn in *.
      * right. split_and!; auto.
        eexists. split; reflexivity.
      * left. auto.
    + left. split; [reflexivity | congruence].
    + right. cbn. split_and!; auto.
Qed.

Lemma handles_initial c sz : handles (initial c sz).
Proof. split_and!; cbn; [lia | intros; discriminate | intros; discriminate]. Qed.

(** The three invariants of the frame queue together. *)
Lemma reachable_frames c sz es w :
  run es (initial c sz) = Some w -> wired w /\ handles w /\ frames_owned w.
Proof.
  intros Hrun. split; [eapply reachable_wired; eauto|].
  split; [|eapply reachable_frames_owned; eauto].
  revert Hrun.
  apply (run_invariant (fun w => wired w /\ handles w)
           (fun w0 e w1 H Htr =>
              conj (wired_step _ _ _ (proj1 H) Htr)
                   (handles_step _ _ _ (proj1 H) (proj2 H) Htr))
           es (initial c sz) w (conj (wired_initial c sz) (handles_initial c sz))).
Qed.

Lemma frame_owner_found id i ps :
  FrameCb id i ∈ ps -> (forall j, FrameCb id j ∈ ps -> j = i) ->
  frame_owner id ps = Some i.
Proof.
  intros Hin Huniq. unfold frame_owner.
  destruct (list_find _ ps) as [[k p]|] eqn:E.
  - apply list_find_Some in E as (Hk & Hp & _).
    destruct p; cbn in Hp; try discriminate. injection Hp as ->.
    f_equal. apply Huniq. eapply list_elem_of_lookup_2; eauto.
  - apply list_find_None in E. rewrite Forall_forall in E.
    exfalso. apply (E _ Hin). reflexivity.
Qed.

(** A frame the host holds is the only one under its handle. *)
Lemma frame_unique w id i j :
  handles w -> frames_owned w ->
  FrameCb id i ∈ pending (globals w) -> FrameCb id j ∈ pending (globals w) ->
  j = i.
Proof.
  intros (_ & _ & HD) (HF & _) Hi Hj.
  destruct (HF _ _ Hi) as (si & Hsi & Hfi & _).
  destruct (HF _ _ Hj) as (sj & Hsj & Hfj & _).
  eapply HD; eauto.
Qed.

Lemma step_unmount w i w' :
  step (Unmount i) w = Some w' ->
  exists s, sessions w !! i = Some s /\ isMounted s = true /\
    w' = mkWorld (<[i:=torn_down s]> (sessions w)) (cleaned i s (logged (Unmount i) w)).
Proof.
  unfold step, handle. cbn [sessions globals].
  destruct (sessions w !! i) as [s|] eqn:Hs; [|discriminate].
  destruct (isMounted s) eqn:Hm; [|discriminate].
  unfold run_in. cbn [sessions globals]. rewrite Hs, cleanup_exact.
  intros H. injection H as <-. exists s. auto.
Qed.

(** X1. While a session is mounted and its tracking source is ready,
    the render loop keeps going: the host holds a frame callback only
    of such a session; it can deliver it, and [animate] then asks for
    exactly one next frame under a fresh handle, updates the tracking
    context and renders with the scene's visibility set to the camera's.
    After the frame the session has one frame callback in the queue, the
    new one. *)
Theorem frame_renders_and_reschedules c sz es w id i :
  run es (initial c sz) = Some w ->
  FrameCb id i ∈ pending (globals w) ->
  exists s cam w',
    sessions w !! i = Some s /\ camera s = Some cam /\
    isMounted s = true /\ source_is_ready s /\
    step (FrameFired id) w = Some w' /\
    trace (globals w') =
      [Did i (Render (camera_visible cam) (camera_visible cam)); Did i ContextUpdate;
       Did i (RequestAnimationFrame (nextHandle (globals w))); Host (FrameFired id)]
      ++ trace (globals w) /\
    id <> nextHandle (globals w) /\
    (forall id', FrameCb id' i ∈ pending (globals w') <-> id' = nextHandle (globals w)).
Proof.
  intros Hrun Hin.
  destruct (reachable_frames _ _ _ _ Hrun) as (Hw & Hh & Hf).
  pose proof Hf as (HF & _). destruct (HF _ _ Hin) as (s & Hs & Hfid & Hmnt).
  pose proof Hh as (_ & HR & _). destruct (HR _ _ _ Hs Hfid) as [Hrange Hready].
  pose proof Hw as (HP & _). destruct (HP _ Hin) as (t & Ht & Hb).
  cbn in Ht. assert (t = s) by congruence. subst t.
  destruct Hb as (Hr & [sc Hsc] & [cam Hcam] & Hsrc & Hctx & _).
  set (g := without (FrameCb id i) (logged (FrameFired id) w)).
  set (s1 := set_scene (Some (mkScene (camera_visible cam) (scene_children sc)))
                       (set_animationFrameId (Some (nextHandle g)) s)).
  assert (Hstep : step (FrameFired id) w =
                  Some (mkWorld (<[i:=s1]> (sessions w)) (framed i (camera_visible cam) g))).
  { unfold step, handle. cbn [sessions globals].
    change (pending (log (Host (FrameFired id)) (globals w))) with (pending (globals w)).
    rewrite (frame_owner_found id i) by (eauto using frame_unique).
    unfold fire. cbn [sessions globals].
    change (pending (log (Host (FrameFired id)) (globals w))) with (pending (globals w)).
    rewrite (bool_decide_eq_true_2 _ Hin).
    unfold run_in. cbn [sessions globals]. rewrite Hs.
    change (set_pending _ _) with g.
    rewrite (animate_run _ _ _ sc cam) by auto. reflexivity. }
  exists s, cam. eexists.
  split_and!; [exact Hs | exact Hcam | exact Hmnt | exact Hready | exact Hstep
              | reflexivity | lia |].
  intros id'. cbn. rewrite elem_of_app, list_elem_of_filter, list_elem_of_singleton.
  split.
  - intros [[Hne Hold]|Heq]; [|congruence].
    destruct (HF _ _ Hold) as (t & Ht' & Hft & _).
    assert (t = s) by congruence. subst t. congruence.
  - intros ->. right. reflexivity.
Qed.

(** The first frame of a session whose source was ready at once. *)
Lemma frame_renders_and_reschedules_witness :
  let es := Mount :: loaded 0 arjs_sync in
  let w := world_after es (initial blank (640, 480)%Z) in
  (run es (initial blank (640, 480)%Z) = Some w /\
   FrameCb 1 0 ∈ pending (globals w)) /\
  exists s cam w',
    sessions w !! 0 = Some s /\ camera s = Some cam /\
    isMounted s = true /\ source_is_ready s /\
    step (FrameFired 1) w = Some w' /\
    trace (globals w') =
      [Did 0 (Render (camera_visible cam) (camera_visible cam)); Did 0 ContextUpdate;
       Did 0 (RequestAnimationFrame (nextHandle (globals w))); Host (FrameFired 1)]
      ++ trace (globals w) /\
    1 <> nextHandle (globals w) /\
    (forall id', FrameCb id' 0 ∈ pending (globals w') <-> id' = nextHandle (globals w)).
Proof.
  intros es w. split.
  - split; [vm_compute; reflexivity | vm_compute; here].
  - apply (frame_renders_and_reschedules blank (640, 480)%Z es w 1 0).
    + vm_compute. reflexivity.
    + vm_compute. here.
Defined.

(** X2. Unmounting a session cancels nothing but that session's own
    frame callback: the frame callbacks of other sessions, and the
    session's own timer, tracking and loader callbacks, stay with the
    host. *)
Theorem unmount_cancels_own_frame_only c sz es w i w' p :
  run es (initial c sz) = Some w ->
  step (Unmount i) w = Some w' ->
  p ∈ pending (globals w) -> (forall id, p <> FrameCb id i) ->
  p ∈ pending (globals w').
Proof.
  intros Hrun Hstep Hin Hother.
  destruct (reachable_frames _ _ _ _ Hrun) as (_ & (_ & HR & HD) & (HF & _)).
  destruct (step_unmount _ _ _ Hstep) as (s & Hs & _ & ->). cbn.
  apply list_elem_of_filter. split; [|exact Hin].
  destruct p as [k|k|k|k|id j]; cbn; try discriminate.
  intros Heq. injection Heq as Heq.
  destruct (HF _ _ Hin) as (t & Ht & Hft & _).
  destruct (HR _ _ _ Ht Hft) as [Hrange _].
  destruct (animationFrameId s) as [h|] eqn:Hh; cbn in Heq; [|lia].
  subst h. assert (i = j) by (eapply HD; eauto). subst j.
  apply (Hother id). reflexivity.
Qed.

(** Two sessions on one surface, each with a frame scheduled: the frame
    of the second survives the unmount of the first. *)
Lemma unmount_cancels_own_frame_only_witness :
  let es := [Mount; Mount] ++ loaded 0 arjs_sync ++ loaded 1 arjs_sync in
  let w := world_after es (initial blank (640, 480)%Z) in
  let w' := world_after [Unmount 0] w in
  (run es (initial blank (640, 480)%Z) = Some w /\
   step (Unmount 0) w = Some w' /\
   FrameCb 1 0 ∈ pending (globals w) /\
   FrameCb 2 1 ∈ pending (globals w) /\
   (forall id, FrameCb 2 1 <> FrameCb id 0)) /\
  FrameCb 2 1 ∈ pending (globals w').
Proof.
  intros es w w'. split.
  - split_and!; [vm_compute; reflexivity | vm_compute; reflexivity
                | vm_compute; here | vm_compute; here | discriminate].
  - apply (unmount_cancels_own_frame_only blank (640, 480)%Z es w 0 w' (FrameCb 2 1)).
    + vm_compute. reflexivity.
    + vm_compute. reflexivity.
    + vm_compute. here.
    + discriminate.
Defined.

(** ** Nothing is read before it is assigned *)

Lemma calm_step w e w' :
  wired w -> calm w -> transition w e w' -> e <> WebGLSupport false -> calm w'.
Proof.
  intros Hw [Hgl Hq] Htr He.
  assert (Hlog : forall x, (forall j err, x <> Did j (Uncaught err)) ->
            forall j err, Did j (Uncaught err) ∉ x :: trace (globals w)).
  { intros x Hx j err Hin. apply elem_of_cons in Hin as [Hin|Hin].
    - eapply Hx; eauto.
    - eapply Hq; eauto. }
  destruct (transition_cases _ _ _ Hw Htr)
    as [[-> ->]|[[-> ->]|[(x & y & -> & ->)|[(ok & -> & ->)
                         |(k & s & s' & g' & m & Hcb & Hs & Hout & ->)]]]].
  - destruct (effect_cases (mkWorld (sessions w) (logged Mount w)))
      as [->|(c & _ & _ & ->)]; (split; [exact Hgl|]); cbn.
    + apply Hlog. discriminate.
    + intros j err Hin.
      do 2 (apply elem_of_cons in Hin as [Hin|Hin]; [discriminate|]).
      revert j err Hin. apply Hlog. discriminate.
  - split; [exact Hgl | apply Hlog; discriminate].
  - split; [exact Hgl | apply Hlog; discriminate].
  - split; [|apply Hlog; discriminate]. cbn. destruct ok; congruence.
  - destruct (handed_facts e k w) as (_ & _ & _ & _ & Htrace & _).
    destruct (outcome_webgl _ _ _ _ _ _ Hout) as [Hsame Hquiet].
    rewrite handed_webgl in Hsame, Hquiet.
    destruct (Hquiet Hgl) as (turn & Heq & Hturn).
    split; cbn; [congruence|].
    intros j err Hin. rewrite Heq, Htrace in Hin.
    apply elem_of_app in Hin as [Hin|Hin]; [eapply Hturn; eauto|].
    revert j err Hin. apply Hlog. discriminate.
Qed.

Lemma calm_run es :
  forall w w', wired w -> calm w -> run es w = Some w' ->
    Forall (fun e => e <> WebGLSupport false) es -> calm w'.
Proof.
  induction es as [|e rest IH]; intros w w' Hw Hc Hrun Hes; cbn in Hrun.
  - injection Hrun as <-. exact Hc.
  - destruct (step e w) as [w1|] eqn:Hstep; [|discriminate].
    apply step_transition in Hstep. apply Forall_cons in Hes as [He Hrest].
    eapply IH; [eapply wired_step; eauto | eapply calm_step; eauto
               | exact Hrun | exact Hrest].
Qed.

(** X3. No callback of the component ever reads a closure variable
    that was not assigned: the callbacks and resize listeners the host
    holds belong to sessions whose [renderer], [scene], [camera],
    tracking source, tracking context and anchor group were all
    assigned before the host was handed them.  The one exception a run
    can show is the one the renderer's constructor throws (line 103)
    when the host has no WebGL context to give: it ends the set-up of
    that session, which keeps its scene and camera and nothing else.
    While the host has WebGL contexts to give, nothing is ever thrown. *)
Theorem only_the_renderer_throws c sz es w :
  run es (initial c sz) = Some w ->
  (forall i err, Did i (Uncaught err) ∈ trace (globals w) ->
     err = webgl_error /\
     exists s, sessions w !! i = Some s /\ stalled s) /\
  (Forall (fun e => e <> WebGLSupport false) es ->
   forall i err, Did i (Uncaught err) ∉ trace (globals w)) /\
  (forall p, p ∈ pending (globals w) ->
     exists s, sessions w !! owner p = Some s /\ built s) /\
  (forall i, i ∈ resizeListeners (globals w) ->
     exists s, sessions w !! i = Some s /\ built s).
Proof.
  intros Hrun. destruct (reachable_wired _ _ _ _ Hrun) as (HP & HL & _ & _ & HU).
  split_and!; auto.
  intros Hes.
  assert (Hc : calm (initial c sz)).
  { split; cbn; [reflexivity|]. intros i err Hin. inversion Hin. }
  exact (proj2 (calm_run es _ _ (wired_initial c sz) Hc Hrun Hes)).
Qed.

(** A session whose set-up stops at the renderer, next to one whose
    resize, timer and loader callbacks run after it was unmounted; and
    the same callbacks on a host that has WebGL throughout. *)
Lemma only_the_renderer_throws_witness :
  let later := [SourceReady 1 [mkTrack Live]; Unmount 1; TimerFired 1;
                ResizeDispatched 1; ModelLoaded 1 7; ContextReady 1 3;
                ResizeDispatched 1] in
  let es := [WebGLSupport false; Mount] ++ loaded 0 arjs
            ++ [Unmount 0; WebGLSupport true; Mount] ++ loaded 1 arjs ++ later in
  let es' := [Mount; Unmount 0; Mount] ++ loaded 1 arjs ++ later in
  let w := world_after es (initial blank (640, 480)%Z) in
  let w' := world_after es' (initial blank (640, 480)%Z) in
  (run es (initial blank (640, 480)%Z) = Some w /\
   Did 0 (Uncaught webgl_error) ∈ trace (globals w) /\
   resizeListeners (globals w) = [1] /\
   run es' (initial blank (640, 480)%Z) = Some w' /\
   Forall (fun e => e <> WebGLSupport false) es' /\
   length (trace (globals w')) = 53) /\
  ((forall i err, Did i (Uncaught err) ∈ trace (globals w) ->
      err = webgl_error /\
      exists s, sessions w !! i = Some s /\ stalled s) /\
   (forall p, p ∈ pending (globals w) ->
      exists s, sessions w !! owner p = Some s /\ built s) /\
   (forall i, i ∈ resizeListeners (globals w) ->
      exists s, sessions w !! i = Some s /\ built s)) /\
  (forall i err, Did i (Uncaught err) ∉ trace (globals w')).
Proof.
  intros later es es' w w'.
  assert (Hes : Forall (fun e => e <> WebGLSupport false) es')
    by (repeat constructor; discriminate).
  split; [|split].
  - split_and!; [vm_compute; reflexivity | vm_compute; here | vm_compute; reflexivity
                | vm_compute; reflexivity | exact Hes | vm_compute; reflexivity].
  - destruct (only_the_renderer_throws blank (640, 480)%Z es w) as (H1 & _ & H3 & H4);
      [vm_compute; reflexivity|].
    split_and!; assumption.
  - destruct (only_the_renderer_throws blank (640, 480)%Z es' w') as (_ & H2 & _);
      [vm_compute; reflexivity|].
    exact (H2 Hes).
Defined.

(** ** The guards of the effect and of [initAR] *)

Lemma truthy_false a : truthy a = false <-> a = None \/ a = Some "".
Proof.
  destruct a as [s|]; cbn.
  - rewrite Bool.negb_false_iff, String.eqb_eq. split.
    + intros ->. auto.
    + intros [H|H]; congruence.
  - split; auto.
Qed.

(** X4. A mount starts a session exactly when the ref holds a canvas
    whose [data-initialized] attribute is absent or empty (the guards of
    lines 46 and 49: a missing ref or a non-empty attribute make the
    effect return at once).  The session it starts has [isMounted] set,
    no resources, and has requested the first script; nothing else of
    the world changes. *)
Theorem mount_starts_session_iff w :
  (length (sessions (effect w)) = S (length (sessions w)) <->
   exists c, canvasRef (globals w) = Some c /\
             (getAttribute c = None \/ getAttribute c = Some "")) /\
  (length (sessions (effect w)) <> S (length (sessions w)) -> effect w = w) /\
  (length (sessions (effect w)) = S (length (sessions w)) ->
   effect w =
   mkWorld (sessions w ++ [mkSession true None None None None None None None AwaitScript1])
           (log (Did (length (sessions w)) (AppendScript ar_js))
                (log (Did (length (sessions w)) SetWindowTHREE) (globals w)))).
Proof.
  destruct (effect_cases w) as [Heq|(c & Hc & Ht & Heq)]; rewrite Heq; cbn.
  - split_and!; try (intros; lia || reflexivity).
    split; [lia|]. intros (c & Hc & Hattr).
    apply truthy_false in Hattr. unfold effect in Heq. rewrite Hc, Hattr in Heq.
    apply (f_equal (fun x => length (sessions x))) in Heq. cbn in Heq.
    rewrite length_app in Heq. cbn in Heq. lia.
  - rewrite length_app. cbn. split_and!.
    + split; [|lia]. intros _. exists c. split; [exact Hc|].
      apply truthy_false. exact Ht.
    + lia.
    + reflexivity.
Qed.

(** A canvas whose attribute is present but empty. *)
Lemma mount_starts_session_iff_witness :
  let w := initial (Some (mkCanvas (Some ""))) (640, 480)%Z in
  length (sessions (effect w)) = S (length (sessions w)) /\
  effect w =
  mkWorld (sessions w ++ [mkSession true None None None None None None None AwaitScript1])
          (log (Did (length (sessions w)) (AppendScript ar_js))
               (log (Did (length (sessions w)) SetWindowTHREE) (globals w))).
Proof.
  intros w. destruct (mount_starts_session_iff w) as (H1 & _ & H3).
  assert (Hl : length (sessions (effect w)) = S (length (sessions w))).
  { apply H1. eexists. split; [reflexivity | right; reflexivity]. }
  split; [exact Hl | exact (H3 Hl)].
Defined.

(** X5. Unmounting any session removes the marker from the surface, so
    the next mount on a surface that is still there starts a new
    session, which requests the first script, whatever other sessions
    of the surface are doing. *)
Theorem remount_after_unmount w i w1 :
  step (Unmount i) w = Some w1 ->
  is_Some (canvasRef (globals w)) ->
  canvasRef (globals w1) = Some (mkCanvas None) /\
  exists w2,
    step Mount w1 = Some w2 /\
    sessions w2 = sessions w1 ++ [set_pc AwaitScript1 closure] /\
    head (trace (globals w2)) = Some (Did (length (sessions w)) (AppendScript ar_js)).
Proof.
  intros Hstep [c Hc].
  destruct (step_unmount _ _ _ Hstep) as (s & Hs & Hm & ->). cbn.
  rewrite Hc. cbn. split; [reflexivity|].
  unfold step, handle, effect. cbn. rewrite Hc. cbn.
  eexists. split_and!; try reflexivity.
  rewrite length_insert. reflexivity.
Qed.

(** Unmounting the first of two sessions that share the surface. *)
Lemma remount_after_unmount_witness :
  let es := [Mount; Mount] ++ loaded 0 arjs ++ loaded 1 arjs in
  let w := world_after es (initial blank (640, 480)%Z) in
  let w1 := world_after [Unmount 0] w in
  (step (Unmount 0) w = Some w1 /\ is_Some (canvasRef (globals w)) /\
   (isMounted <$> sessions w1 !! 1) = Some true) /\
  canvasRef (globals w1) = Some (mkCanvas None) /\
  exists w2,
    step Mount w1 = Some w2 /\
    sessions w2 = sessions w1 ++ [set_pc AwaitScript1 closure] /\
    head (trace (globals w2)) = Some (Did (length (sessions w)) (AppendScript ar_js)).
Proof.
  intros es w w1. split.
  - split_and!; [vm_compute; reflexivity | eexists; vm_compute; reflexivity
                | vm_compute; reflexivity].
  - apply (remount_after_unmount w 0 w1).
    + vm_compute. reflexivity.
    + eexists. vm_compute. reflexivity.
Defined.

Lemma step_script2 w i s lib :
  sessions w !! i = Some s -> pc s = AwaitScript2 ->
  step (ScriptLoaded i ar_threex_js lib) w =
  run_in i (initAR_setup i)
         (mkWorld (sessions w)
                  (set_THREEx lib (log (Host (ScriptLoaded i ar_threex_js lib)) (globals w)))).
Proof.
  intros Hs Hp. unfold step, handle, session_pc. cbn [sessions globals].
  rewrite Hs. cbn [fmap option_fmap option_map]. rewrite Hp. cbn [awaited resume].
  rewrite bool_decide_eq_true_2 by reflexivity. reflexivity.
Qed.

(** X6. When the second script has loaded but [window.THREEx] lacks one
    of the three entry points, [initAR] logs one error and returns: the
    surface is not marked, nothing is built, the host is handed no
    callback and no listener, and the session stays as it was, with
    [initAR] finished.  When instead the ref no longer holds the canvas,
    [initAR] returns without a word. *)
Theorem setup_aborts_without_entry_points_or_canvas w i s lib :
  sessions w !! i = Some s -> pc s = AwaitScript2 -> isMounted s = true ->
  let g := set_THREEx lib (log (Host (ScriptLoaded i ar_threex_js lib)) (globals w)) in
  (is_Some (canvasRef (globals w)) -> ~ entry_points lib ->
   step (ScriptLoaded i ar_threex_js lib) w =
   Some (mkWorld (<[i:=set_pc Returned s]> (sessions w))
                 (log (Did i (ConsoleError "AR.js components on THREEx failed to load.")) g))) /\
  (canvasRef (globals w) = None ->
   step (ScriptLoaded i ar_threex_js lib) w =
   Some (mkWorld (<[i:=set_pc Returned s]> (sessions w)) g)).
Proof.
  intros Hs Hp Hm g. split.
  - intros Hc Hno. rewrite (step_script2 _ _ s) by assumption.
    unfold run_in. cbn [sessions globals]. rewrite Hs.
    fold g. rewrite initAR_setup_missing by assumption. reflexivity.
  - intros Hc. rewrite (step_script2 _ _ s) by assumption.
    unfold run_in. cbn [sessions globals]. rewrite Hs.
    fold g. rewrite initAR_setup_skipped by (right; exact Hc). reflexivity.
Qed.

(** A build of the library without [ArMarkerControls]. *)
Lemma setup_aborts_without_entry_points_or_canvas_witness :
  let lib := Some (mkLib true true false None) in
  let w := world_after [Mount; ScriptLoaded 0 ar_js lib] (initial blank (640, 480)%Z) in
  let s := set_pc AwaitScript2 closure in
  let g := set_THREEx lib (log (Host (ScriptLoaded 0 ar_threex_js lib)) (globals w)) in
  (sessions w !! 0 = Some s /\ pc s = AwaitScript2 /\ isMounted s = true /\
   is_Some (canvasRef (globals w)) /\ ~ entry_points lib) /\
  (is_Some (canvasRef (globals w)) -> ~ entry_points lib ->
   step (ScriptLoaded 0 ar_threex_js lib) w =
   Some (mkWorld (<[0:=set_pc Returned s]> (sessions w))
                 (log (Did 0 (ConsoleError "AR.js components on THREEx failed to load.")) g))) /\
  (canvasRef (globals w) = None ->
   step (ScriptLoaded 0 ar_threex_js lib) w =
   Some (mkWorld (<[0:=set_pc Returned s]> (sessions w)) g)).
Proof.
  intros lib w s g. split.
  - split_and!; try (vm_compute; reflexivity).
    + eexists. vm_compute. reflexivity.
    + intros (_ & _ & H). vm_compute in H. discriminate.
  - apply (setup_aborts_without_entry_points_or_canvas w 0 s lib);
      vm_compute; reflexivity.
Defined.

(** ** A session unmounted while its scripts load *)

Lemma cleanup_calls_own i s g : Forall (fun x => exists a, x = Did i a) (cleanup_calls i s g).
Proof.
  unfold cleanup_calls.
  repeat apply Forall_app_2.
  - destruct (canvasRef g); repeat constructor. eexists. reflexivity.
  - destruct (renderer s); repeat constructor. eexists. reflexivity.
  - apply Forall_replicate. eexists. reflexivity.
  - repeat constructor. eexists. reflexivity.
Qed.

Lemma resize_calls_own i ctx : Forall (fun x => exists a, x = Did i a) (resize_calls i ctx).
Proof.
  unfold resize_calls. destruct (arController ctx); repeat constructor;
    eexists; reflexivity.
Qed.

Lemma turn_of_own i kind turn :
  turn_of i kind turn -> Forall (fun x => exists a, x = Did i a) turn.
Proof.
  unfold turn_of. intros H. eapply Forall_impl; [exact H|].
  intros x (a & -> & _). eexists. reflexivity.
Qed.

Lemma stopped_at_renderer_turn i : turn_of i in_setup_turn (stopped_at_renderer i).
Proof. unfold stopped_at_renderer. turn_kind. Qed.

(** What a callback of session [i] logs are calls of session [i]. *)
Lemma outcome_entries i s g e s' g' :
  outcome i s g e s' g' ->
  exists turn, trace g' = turn ++ trace g /\
               Forall (fun x => exists a, x = Did i a) turn.
Proof.
  intros Hout. inversion Hout; subst; clear Hout.
  all: lazymatch goal with
       | H : trace ?g1 = ?later ++ _ :: _ |- _ =>
         exists (later ++ [Did i marking]); split;
         [ rewrite H, <- app_assoc; reflexivity
         | apply Forall_app_2;
           [eapply turn_of_own; first [eassumption | apply stopped_at_renderer_turn]|];
           repeat constructor; eexists; reflexivity ]
       | |- _ => idtac
       end.
  all: try (exists (cleanup_calls i s g); split; [reflexivity | apply cleanup_calls_own]).
  all: try (exists (resize_calls i ctx); split; [reflexivity | apply resize_calls_own]).
  all: eexists; (split; [cbn; suffix|]); repeat constructor; eexists; reflexivity.
Qed.

Lemma shown_bare v s : bare s -> shown v s = s.
Proof. intros (_ & _ & Hc & _). unfold shown. rewrite Hc. reflexivity. Qed.

Lemma dormant_step w e w' i :
  wired w -> dormant w i -> transition w e w' ->
  dormant w' i /\
  exists new, trace (globals w') = new ++ trace (globals w) /\
              forall a, Did i a ∈ new -> loading_call a.
Proof.
  intros Hw (s & Hs & Hm & Hb) Htr.
  destruct (transition_cases _ _ _ Hw Htr)
    as [[-> ->]|[[-> ->]|[(x & y & -> & ->)|[(ok & -> & ->)
                         |(k & t & t' & g' & m & Hcb & Ht & Hout & ->)]]]].
  - destruct (effect_cases (mkWorld (sessions w) (logged Mount w)))
      as [->|(c & _ & _ & ->)]; cbn.
    + split; [exists s; auto|]. exists [Host Mount]. split; [reflexivity|].
      intros a Hin. absent Hin.
    + split.
      * exists s. split; [|auto]. apply lookup_app_l_Some. exact Hs.
      * eexists [_; _; _]. split; [reflexivity|].
        intros a Hin. apply lookup_lt_Some in Hs.
        repeat (apply elem_of_cons in Hin as [Hin|Hin];
                [try discriminate; injection Hin as -> _; lia|]).
        inversion Hin.
  - split; [exists s; auto|]. exists [Host RefDetach]. split; [reflexivity|].
    intros a Hin. absent Hin.
  - split; [exists s; auto|]. eexists [_]. split; [reflexivity|].
    intros a Hin. absent Hin.
  - split; [exists s; auto|]. eexists [_]. split; [reflexivity|].
    intros a Hin. absent Hin.
  - destruct (handed_facts e k w) as (_ & _ & _ & _ & Htrace & _).
    destruct (decide (k = i)) as [->|Hne].
    + assert (t = s) by congruence. subst t.
      assert (Hnb : ~ built s) by (intros Hbs; eapply built_not_bare; eauto).
      inversion Hout; subst; clear Hout; try congruence; try contradiction.
      all: try lazymatch goal with
               | |- context [shown ?v ?x] => rewrite (shown_bare v x Hb)
               end.
      all: split;
        [ eexists; cbn; rewrite (lookup_update_same _ _ _ _ Hs);
          split; [reflexivity|]; split; [exact Hm|];
          let H := fresh in pose proof Hb as H; is_bare H
        | cbn [globals trace log set_trace]; rewrite Htrace;
          eexists; split; [suffix|] ].
      all: intros a Hin;
        repeat (apply elem_of_cons in Hin as [Hin|Hin];
                [try discriminate; injection Hin as ->;
                 first [left; reflexivity | right; eexists; reflexivity]|]);
        inversion Hin.
    + split.
      * exists s. cbn. rewrite lookup_update_other by auto. auto.
      * destruct (outcome_entries _ _ _ _ _ _ Hout) as (turn & Heq & Hown).
        cbn. rewrite Heq, Htrace. exists (turn ++ [Host e]).
        split; [rewrite <- app_assoc; reflexivity|].
        intros a Hin. apply elem_of_app in Hin as [Hin|Hin]; [|absent Hin].
        rewrite Forall_forall in Hown. destruct (Hown _ Hin) as (b & Hb').
        congruence.
Qed.

Lemma dormant_run es :
  forall w w' i, wired w -> dormant w i -> run es w = Some w' ->
    wired w' /\ dormant w' i /\
    exists new, trace (globals w') = new ++ trace (globals w) /\
                forall a, Did i a ∈ new -> loading_call a.
Proof.
  induction es as [|e rest IH]; intros w w' i Hw Hd Hrun; cbn in Hrun.
  - injection Hrun as <-. split_and!; auto. exists []. split; [reflexivity|].
    intros a Hin. inversion Hin.
  - destruct (step e w) as [w1|] eqn:Hstep; [|discriminate].
    apply step_transition in Hstep.
    destruct (dormant_step _ _ _ _ Hw Hd Hstep) as (Hd1 & new1 & Ht1 & Hk1).
    destruct (IH _ _ _ (wired_step _ _ _ Hw Hstep) Hd1 Hrun)
      as (Hw' & Hd' & new2 & Ht2 & Hk2).
    split_and!; auto. exists (new2 ++ new1).
    split; [rewrite Ht2, Ht1, app_assoc; reflexivity|].
    intros a Hin. apply elem_of_app in Hin as [Hin|Hin]; auto.
Qed.

(** X7. A session that is unmounted before its set-up ran (its scene,
    the first variable the set-up assigns, is still unassigned) never
    sets anything up (the guard of line 86): whatever the host delivers
    afterwards, the session keeps no renderer, scene, camera, tracking
    object or frame handle, the host holds no callback and no resize
    listener of it, and all it still does is request the second script
    (when the first one arrives) and log an error (when a script fails);
    it never marks the surface. *)
Theorem unmounted_before_setup_builds_nothing c sz es w i s es' w' :
  run es (initial c sz) = Some w ->
  sessions w !! i = Some s -> isMounted s = false -> scene s = None ->
  run es' w = Some w' ->
  (exists s', sessions w' !! i = Some s' /\ isMounted s' = false /\ bare s') /\
  (forall p, p ∈ pending (globals w') -> owner p <> i) /\
  (i ∉ resizeListeners (globals w')) /\
  exists new,
    trace (globals w') = new ++ trace (globals w) /\
    (Did i marking ∉ new) /\
    forall a, Did i a ∈ new ->
      a = AppendScript ar_threex_js \/ exists msg, a = ConsoleError msg.
Proof.
  intros Hrun Hs Hm Hr Hrun'.
  pose proof (reachable_wired _ _ _ _ Hrun) as Hw.
  assert (Hd : dormant w i).
  { exists s. split_and!; auto.
    destruct Hw as (_ & _ & HS & _).
    destruct (HS _ _ Hs) as [(_ & [sc Hsc] & _)|[Hb|(_ & _ & Hsc & _)]]; auto;
      congruence. }
  destruct (dormant_run _ _ _ _ Hw Hd Hrun')
    as ((HP & HL & _) & (s' & Hs' & Hm' & Hb') & new & Htr & Hk).
  split_and!.
  - exists s'. auto.
  - intros p Hin Hown. destruct (HP _ Hin) as (t & Ht & Hbt).
    rewrite Hown in Ht. assert (t = s') by congruence. subst t.
    eapply built_not_bare; eauto.
  - intros Hin. destruct (HL _ Hin) as (t & Ht & Hbt).
    assert (t = s') by congruence. subst t. eapply built_not_bare; eauto.
  - exists new. split_and!; auto.
    intros Hin. destruct (Hk _ Hin) as [H|[msg H]]; discriminate.
Qed.

(** A session unmounted between its two script loads, next to one that
    goes on to set itself up. *)
Lemma unmounted_before_setup_builds_nothing_witness :
  let es := [Mount; ScriptLoaded 0 ar_js (Some arjs); Unmount 0] in
  let es' := [ScriptLoaded 0 ar_threex_js (Some arjs); Mount] ++ loaded 1 arjs_sync in
  let w := world_after es (initial blank (640, 480)%Z) in
  let w' := world_after es' w in
  let s := default closure (sessions w !! 0) in
  (run es (initial blank (640, 480)%Z) = Some w /\
   sessions w !! 0 = Some s /\ isMounted s = false /\ scene s = None /\
   run es' w = Some w') /\
  (exists s', sessions w' !! 0 = Some s' /\ isMounted s' = false /\ bare s') /\
  (forall p, p ∈ pending (globals w') -> owner p <> 0) /\
  (0 ∉ resizeListeners (globals w')) /\
  exists new,
    trace (globals w') = new ++ trace (globals w) /\
    (Did 0 marking ∉ new) /\
    forall a, Did 0 a ∈ new ->
      a = AppendScript ar_threex_js \/ exists msg, a = ConsoleError msg.
Proof.
  intros es es' w w' s. split.
  - split_and!; vm_compute; reflexivity.
  - apply (unmounted_before_setup_builds_nothing blank (640, 480)%Z es w 0 s es' w');
      vm_compute; reflexivity.
Defined.

(** ** The scene graph and the anchor group *)

(** Which objects of its session a callback replaces. *)
Lemma outcome_fields i s g e s' g' :
  outcome i s g e s' g' ->
  (scene_children <$> scene s' = scene_children <$> scene s /\
   (renderer s' = None <-> renderer s = None) \/
   s' = assembled s g \/ s' = begun s /\ pc s = AwaitScript2) /\
  (markerRoot s' = markerRoot s \/ s' = assembled s g \/
   exists gltf root, e = ModelLoaded i gltf /\ markerRoot s = Some root /\
     markerRoot s' = Some (mkGroup (group_children root ++ [model_of gltf]))) /\
  (arToolkitContext s' = arToolkitContext s \/ s' = assembled s g \/
   exists m, e = ContextReady i m /\ arToolkitContext s' = Some (mkContext true m)).
Proof.
  intros Hout. inversion Hout; subst; clear Hout.
  all: split_and!.
  all: try (left; unfold shown; repeat case_match; reflexivity).
  all: try (right; left; reflexivity).
  all: try (right; right; split; [reflexivity | assumption]).
  all: try (left; split;
            [ unfold shown; repeat case_match; reflexivity
            | unfold shown, torn_down; repeat case_match; cbn;
              rewrite ?fmap_None; tauto ]).
  - right. right. eexists. split; reflexivity.
  - right. right. eexists _, _. split_and!; eauto.
  - left. cbn. lazymatch goal with H : scene s = Some _ |- _ => rewrite H end.
    split; [reflexivity | tauto].
Qed.

(** The callbacks a callback of session [i] hands to the host are its
    own; only the set-up asks the loader for the model. *)
Lemma outcome_pending i s g e s' g' p :
  outcome i s g e s' g' -> p ∈ pending g' ->
  p ∈ pending g \/
  owner p = i /\ (p = ModelLoadCb i -> s' = assembled s g).
Proof.
  intros Hout Hin. inversion Hout; subst; clear Hout; cbn in Hin; auto.
  - apply list_elem_of_filter in Hin as [_ Hin]. auto.
  - lazymatch goal with H : pending g' = _ |- _ => rewrite H in Hin end.
    apply elem_of_app in Hin as [Hin|Hin]; auto.
    right. split; [eapply requested_owner; eauto | reflexivity].
  - left. congruence.
  - apply elem_of_app in Hin as [Hin|Hin]; auto.
    apply list_elem_of_singleton in Hin as ->. right. split; [reflexivity | discriminate].
  - apply elem_of_app in Hin as [Hin|Hin]; auto.
    apply list_elem_of_singleton in Hin as ->. right. split; [reflexivity | discriminate].
Qed.

Lemma anchored_assembled s g :
  (forall sc, scene (assembled s g) = Some sc ->
     scene_children sc = match renderer (assembled s g) with
                         | Some _ => scene_graph
                         | None => [CameraNode]
                         end) /\
  (forall root, markerRoot (assembled s g) = Some root -> group_children root = []).
Proof.
  unfold assembled. destruct (THREEx g ≫= initCompletesSync); cbn;
    split; intros x Hx; injection Hx as <-; reflexivity.
Qed.

Lemma anchored_step w e w' :
  wired w -> anchored w -> transition w e w' -> anchored w'.
Proof.
  intros Hw Ha Htr.
  destruct (transition_cases _ _ _ Hw Htr)
    as [[-> ->]|[[-> ->]|[(x & y & -> & ->)|[(ok & -> & ->)
                         |(k & s & s' & g' & m & Hcb & Hs & Hout & ->)]]]].
  - destruct (effect_cases (mkWorld (sessions w) (logged Mount w)))
      as [->|(c & _ & _ & ->)]; [exact Ha|].
    intros j t Ht. cbn in *. apply lookup_appended in Ht as [[-> ->]|[_ Ht]].
    + cbn. split; intros ? ?; discriminate.
    + exact (Ha _ _ Ht).
  - exact Ha.
  - exact Ha.
  - exact Ha.
  - destruct (handed_facts e k w) as (_ & _ & _ & _ & _ & Hpend).
    destruct (outcome_fields _ _ _ _ _ _ Hout) as (Hsc & Hroot & _).
    assert (Hnew : forall j, ModelLoadCb j ∈ pending g' ->
              ModelLoadCb j ∈ pending (globals w) \/ (j = k /\ s' = assembled s (handed e k w))).
    { intros j Hin. destruct (outcome_pending _ _ _ _ _ _ _ Hout Hin) as [Hold|[Hown Hb]].
      - left. auto.
      - cbn in Hown. subst j. right. auto. }
    intros j t Ht. cbn in Ht. apply lookup_updated in Ht as [[-> ->]|[Hne Ht]].
    + destruct (Ha _ _ Hs) as [Hscene Hgroup]. split.
      * intros sc Hsc'. destruct Hsc as [[Hsame Hrn]|[->|[-> Hpc]]].
        -- rewrite Hsc' in Hsame. cbn in Hsame.
           destruct (scene s) as [sc0|] eqn:E; [|discriminate].
           cbn in Hsame. injection Hsame as ->. rewrite (Hscene _ eq_refl).
           destruct (renderer s'), (renderer s); try reflexivity.
           ++ destruct Hrn as [_ Hrn]. discriminate (Hrn eq_refl).
           ++ destruct Hrn as [Hrn _]. discriminate (Hrn eq_refl).
        -- eapply anchored_assembled; eauto.
        -- destruct Hw as (_ & _ & _ & HB & _).
           destruct (HB _ _ Hs ltac:(congruence)) as (Hnone & _).
           cbn in Hsc' |- *. rewrite Hnone. injection Hsc' as <-. reflexivity.
      * intros root Hr. cbn [globals].
        destruct Hroot as [Hsame|[->|(gltf & root0 & -> & Hr0 & Hr1)]].
        -- rewrite Hsame in Hr. destruct (Hgroup _ Hr) as [He|[Hone Hspent]]; auto.
           right. split; [exact Hone|]. intros Hin.
           destruct (Hnew _ Hin) as [Hold|[_ ->]]; [contradiction|].
           destruct (anchored_assembled s (handed e k w)) as [_ Hempty].
           rewrite <- Hsame in Hr.
           rewrite (Hempty _ Hr) in Hone. destruct Hone. discriminate.
        -- left. eapply anchored_assembled; eauto.
        -- assert (Hheld : ModelLoadCb k ∈ pending (globals w))
             by (inversion Hcb; assumption).
           rewrite Hr1 in Hr. injection Hr as <-. cbn.
           destruct (Hgroup _ Hr0) as [->|[_ Hspent]]; [|contradiction].
           right. split; [eexists; reflexivity|].
           inversion Hout; subst. cbn. intros Hin.
           apply list_elem_of_filter in Hin as [Hin _]. congruence.
    + destruct (Ha _ _ Ht) as [Hscene Hgroup]. split; [exact Hscene|].
      intros root Hr. destruct (Hgroup _ Hr) as [He|[Hone Hspent]]; auto.
      right. split; [exact Hone|]. cbn. intros Hin.
      destruct (Hnew _ Hin) as [Hold|[-> _]]; congruence.
Qed.

Lemma anchored_initial c sz : anchored (initial c sz).
Proof. intros i s Hs. discriminate. Qed.

Lemma reachable_anchored c sz es w :
  run es (initial c sz) = Some w -> anchored w.
Proof.
  intros Hrun.
  apply (run_invariant (fun w => wired w /\ anchored w)
           (fun w0 e w1 H Htr =>
              conj (wired_step _ _ _ (proj1 H) Htr)
                   (anchored_step _ _ _ (proj1 H) (proj2 H) Htr))
           es (initial c sz) w (conj (wired_initial c sz) (anchored_initial c sz)) Hrun).
Qed.

(** X8. The scene of a session that has its renderer always holds the
    four nodes the set-up added, in the order it added them: the camera,
    the anchor group, the ambient light and the directional light.  No
    callback adds a node or removes one, and the cleanup leaves the
    scene as it is.  A session whose set-up stopped at the renderer's
    constructor (lines 99-101 ran, lines 138-156 did not) keeps a scene
    that holds the camera only. *)
Theorem scene_graph_is_fixed c sz es w i s sc :
  run es (initial c sz) = Some w ->
  sessions w !! i = Some s -> scene s = Some sc ->
  (is_Some (renderer s) ->
   scene_children sc = [CameraNode; MarkerRootNode; AmbientLightNode; DirectionalLightNode]) /\
  (renderer s = None -> scene_children sc = [CameraNode]).
Proof.
  intros Hrun Hs Hsc. destruct (reachable_anchored _ _ _ _ Hrun _ _ Hs) as [H _].
  rewrite (H _ Hsc). split.
  - intros [r ->]. reflexivity.
  - intros ->. reflexivity.
Qed.

(** The scene of a session after frames were rendered and it was
    unmounted, and that of a session mounted while the host had no
    WebGL context to give. *)
Lemma scene_graph_is_fixed_witness :
  let es := Mount :: loaded 0 arjs_sync
            ++ [FrameFired 1; CameraVisibility 0 false; FrameFired 2; Unmount 0;
                WebGLSupport false; Mount] ++ loaded 1 arjs_sync in
  let w := world_after es (initial blank (640, 480)%Z) in
  let s0 := default closure (sessions w !! 0) in
  let s1 := default closure (sessions w !! 1) in
  let sc0 := mkScene false scene_graph in
  let sc1 := mkScene true [CameraNode] in
  (run es (initial blank (640, 480)%Z) = Some w /\
   sessions w !! 0 = Some s0 /\ scene s0 = Some sc0 /\ is_Some (renderer s0) /\
   sessions w !! 1 = Some s1 /\ scene s1 = Some sc1 /\ renderer s1 = None) /\
  scene_children sc0 = [CameraNode; MarkerRootNode; AmbientLightNode; DirectionalLightNode] /\
  scene_children sc1 = [CameraNode].
Proof.
  intros es w s0 s1 sc0 sc1.
  assert (H0 : is_Some (renderer s0)) by (eexists; vm_compute; reflexivity).
  assert (H1 : renderer s1 = None) by (vm_compute; reflexivity).
  split.
  - split_and!; try (vm_compute; reflexivity). exact H0.
  - split.
    + apply (scene_graph_is_fixed blank (640, 480)%Z es w 0 s0 sc0);
        [vm_compute; reflexivity .. | exact H0].
    + apply (scene_graph_is_fixed blank (640, 480)%Z es w 1 s1 sc1);
        [vm_compute; reflexivity .. | exact H1].
Defined.

(** X9. The anchor group of a session holds at most one model: the one
    the loader delivered, scaled to a tenth and raised by one half.
    Once it is there the host no longer holds the loader's callback, so
    no second model can follow. *)
Theorem anchor_holds_one_model c sz es w i s root :
  run es (initial c sz) = Some w ->
  sessions w !! i = Some s -> markerRoot s = Some root ->
  length (group_children root) <= 1 /\
  (forall m, m ∈ group_children root ->
     scale m = (1#10, 1#10, 1#10)%Q /\ position_y m = (1#2)%Q) /\
  (group_children root <> [] -> ModelLoadCb i ∉ pending (globals w)).
Proof.
  intros Hrun Hs Hr. destruct (reachable_anchored _ _ _ _ Hrun _ _ Hs) as [_ H].
  destruct (H _ Hr) as [->|[[gltf ->] Hspent]].
  - split_and!; [cbn; lia | intros m Hin; inversion Hin | congruence].
  - split_and!; [cbn; lia | | auto].
    intros m Hin. apply list_elem_of_singleton in Hin as ->. split; reflexivity.
Qed.

(** The group after the model arrived. *)
Lemma anchor_holds_one_model_witness :
  let es := Mount :: loaded 0 arjs ++ [ModelLoaded 0 42; Unmount 0] in
  let w := world_after es (initial blank (640, 480)%Z) in
  let s := default closure (sessions w !! 0) in
  let root := mkGroup [model_of 42] in
  (run es (initial blank (640, 480)%Z) = Some w /\
   sessions w !! 0 = Some s /\ markerRoot s = Some root) /\
  length (group_children root) <= 1 /\
  (forall m, m ∈ group_children root ->
     scale m = (1#10, 1#10, 1#10)%Q /\ position_y m = (1#2)%Q) /\
  (group_children root <> [] -> ModelLoadCb 0 ∉ pending (globals w)).
Proof.
  intros es w s root. split.
  - split_and!; vm_compute; reflexivity.
  - apply (anchor_holds_one_model blank (640, 480)%Z es w 0 s root);
      vm_compute; reflexivity.
Defined.

(** ** The controller's canvas *)

Lemma cleanup_calls_no_copy i s g j :
  Did j CopyElementSizeToController ∉ cleanup_calls i s g.
Proof.
  unfold cleanup_calls. intros Hin.
  repeat (apply elem_of_app in Hin as [Hin|Hin]).
  - destruct (canvasRef g); [absent Hin | inversion Hin].
  - destruct (renderer s); [absent Hin | inversion Hin].
  - apply elem_of_replicate in Hin as [Hin _]. discriminate.
  - absent Hin.
Qed.

(** Only [onResize] copies the size to the controller's canvas, and only
    when the context has a controller. *)
Lemma outcome_controller i s g e s' g' :
  outcome i s g e s' g' ->
  exists turn, trace g' = turn ++ trace g /\
    forall j, Did j CopyElementSizeToController ∈ turn ->
      j = i /\ exists ctx, arToolkitContext s = Some ctx /\ arController ctx = true.
Proof.
  intros Hout. inversion Hout; subst; clear Hout.
  all: try lazymatch goal with
           | H : trace _ = stopped_at_renderer ?k ++ _ |- _ =>
             pose proof (stopped_at_renderer_turn k)
           end.
  all: lazymatch goal with
       | H : trace ?g1 = ?later ++ _ :: _, Hk : turn_of _ _ ?later |- _ =>
         exists (later ++ [Did i marking]); split;
         [ rewrite H, <- app_assoc; reflexivity
         | intros j Hin; exfalso; apply elem_of_app in Hin as [Hin|Hin]; [|absent Hin];
           unfold turn_of in Hk; rewrite Forall_forall in Hk;
           destruct (Hk _ Hin) as (a & Ha & [Hb|[Hb|[ms Hb]]]);
           injection Ha as <- <-; first [contradiction | discriminate] ]
       | |- _ => idtac
       end.
  all: try (exists (cleanup_calls i s g); split; [reflexivity|];
            intros j Hin; exfalso; eapply cleanup_calls_no_copy; exact Hin).
  all: try (exists (resize_calls i ctx); split; [reflexivity|];
            intros j Hin; unfold resize_calls in Hin;
            destruct (arController ctx) eqn:Hac; cbn in Hin;
            [ apply elem_of_cons in Hin as [Hin|Hin];
              [injection Hin as ->; split; [reflexivity | eauto] | absent Hin]
            | absent Hin ]).
  all: eexists; (split; [cbn; suffix|]); intros j Hin; absent Hin.
Qed.

Lemma controlled_step w e w' :
  wired w -> controlled w -> transition w e w' -> controlled w'.
Proof.
  intros Hw [HC HT] Htr.
  destruct (transition_cases _ _ _ Hw Htr)
    as [[-> ->]|[[-> ->]|[(x & y & -> & ->)|[(ok & -> & ->)
                         |(k & s & s' & g' & m & Hcb & Hs & Hout & ->)]]]].
  - destruct (effect_cases (mkWorld (sessions w) (logged Mount w)))
      as [->|(c & _ & _ & ->)]; cbn.
    + split; cbn.
      * intros i s ctx Hs Hctx Hac. destruct (HC _ _ _ Hs Hctx Hac) as [m Hm].
        exists m. apply list_elem_of_further. exact Hm.
      * intros i Hin. apply elem_of_cons in Hin as [Hin|Hin]; [discriminate|].
        destruct (HT _ Hin) as [m Hm]. exists m. apply list_elem_of_further. exact Hm.
    + split; cbn.
      * intros i s ctx Hs Hctx Hac.
        apply lookup_appended in Hs as [[-> ->]|[_ Hs]]; [discriminate|].
        destruct (HC _ _ _ Hs Hctx Hac) as [m Hm].
        exists m. do 3 apply list_elem_of_further. exact Hm.
      * intros i Hin. do 3 (apply elem_of_cons in Hin as [Hin|Hin]; [discriminate|]).
        destruct (HT _ Hin) as [m Hm]. exists m. do 3 apply list_elem_of_further. exact Hm.
  - split; cbn.
    + intros i s ctx Hs Hctx Hac. destruct (HC _ _ _ Hs Hctx Hac) as [m Hm].
      exists m. apply list_elem_of_further. exact Hm.
    + intros i Hin. apply elem_of_cons in Hin as [Hin|Hin]; [discriminate|].
      destruct (HT _ Hin) as [m Hm]. exists m. apply list_elem_of_further. exact Hm.
  - split; cbn.
    + intros i s ctx Hs Hctx Hac. destruct (HC _ _ _ Hs Hctx Hac) as [m Hm].
      exists m. apply list_elem_of_further. exact Hm.
    + intros i Hin. apply elem_of_cons in Hin as [Hin|Hin]; [discriminate|].
      destruct (HT _ Hin) as [m Hm]. exists m. apply list_elem_of_further. exact Hm.
  - split; cbn.
    + intros i s ctx Hs Hctx Hac. destruct (HC _ _ _ Hs Hctx Hac) as [m Hm].
      exists m. apply list_elem_of_further. exact Hm.
    + intros i Hin. apply elem_of_cons in Hin as [Hin|Hin]; [discriminate|].
      destruct (HT _ Hin) as [m Hm]. exists m. apply list_elem_of_further. exact Hm.
  - destruct (handed_facts e k w) as (_ & _ & _ & _ & Htrace & _).
    destruct (outcome_fields _ _ _ _ _ _ Hout) as (_ & _ & Hctx).
    destruct (outcome_controller _ _ _ _ _ _ Hout) as (turn & Heq & Hcopy).
    assert (Hold : forall x, x ∈ trace (globals w) -> x ∈ trace g').
    { intros x Hx. rewrite Heq, Htrace. apply elem_of_app. right.
      apply list_elem_of_further. exact Hx. }
    split; cbn.
    + intros j t ctx Ht Hc Hac. apply lookup_updated in Ht as [[-> ->]|[Hne Ht]].
      * destruct Hctx as [Hsame|[->|(m0 & -> & Hc')]].
        -- rewrite Hsame in Hc. destruct (HC _ _ _ Hs Hc Hac) as [m1 Hm]. eauto.
        -- unfold assembled in Hc. destruct (THREEx _ ≫= _); cbn in Hc;
             injection Hc as <-; discriminate.
        -- exists m0. rewrite Heq, Htrace. apply elem_of_app. right.
           apply list_elem_of_here.
      * destruct (HC _ _ _ Ht Hc Hac) as [m1 Hm]. eauto.
    + intros j Hin. rewrite Heq, Htrace in Hin.
      apply elem_of_app in Hin as [Hin|Hin].
      * destruct (Hcopy _ Hin) as (-> & ctx & Hc & Hac).
        destruct (HC _ _ _ Hs Hc Hac) as [m1 Hm]. eauto.
      * apply elem_of_cons in Hin as [Hin|Hin]; [discriminate|].
        destruct (HT _ Hin) as [m1 Hm]. eauto.
Qed.

Lemma controlled_initial c sz : controlled (initial c sz).
Proof.
  split; cbn.
  - intros i s ctx Hs. discriminate.
  - intros i Hin. inversion Hin.
Qed.

(** X10. [onResize] copies the element size to the canvas of the
    tracking controller only for a session whose tracking context has
    finished initialising (line 125): before that [arController] is
    [null] and the copy is skipped.  A context has a controller only
    after the host reported its initialisation. *)
Theorem controller_resized_after_context_init c sz es w i :
  run es (initial c sz) = Some w ->
  (Did i CopyElementSizeToController ∈ trace (globals w) ->
   exists m, Host (ContextReady i m) ∈ trace (globals w)) /\
  (forall s ctx, sessions w !! i = Some s -> arToolkitContext s = Some ctx ->
     arController ctx = true ->
     exists m, Host (ContextReady i m) ∈ trace (globals w)).
Proof.
  intros Hrun.
  assert (H : wired w /\ controlled w).
  { apply (run_invariant (fun w => wired w /\ controlled w)
             (fun w0 e w1 H Htr =>
                conj (wired_step _ _ _ (proj1 H) Htr)
                     (controlled_step _ _ _ (proj1 H) (proj2 H) Htr))
             es (initial c sz) w
             (conj (wired_initial c sz) (controlled_initial c sz)) Hrun). }
  destruct H as (_ & HC & HT). split; [apply HT | intros s ctx; apply HC].
Qed.

(** A resize before the context is ready, and one after. *)
Lemma controller_resized_after_context_init_witness :
  let es := Mount :: loaded 0 arjs
            ++ [ResizeDispatched 0; ContextReady 0 7; ResizeDispatched 0] in
  let w := world_after es (initial blank (640, 480)%Z) in
  (run es (initial blank (640, 480)%Z) = Some w /\
   head (trace (globals w)) = Some (Did 0 CopyElementSizeToController) /\
   length (filter (fun x => bool_decide (x = 0))
             (omap (fun x => match x with
                             | Did i CopyElementSizeToController => Some i
                             | _ => None
                             end) (trace (globals w)))) = 1) /\
  (Did 0 CopyElementSizeToController ∈ trace (globals w) ->
   exists m, Host (ContextReady 0 m) ∈ trace (globals w)) /\
  (forall s ctx, sessions w !! 0 = Some s -> arToolkitContext s = Some ctx ->
     arController ctx = true ->
     exists m, Host (ContextReady 0 m) ∈ trace (globals w)).
Proof.
  intros es w. split.
  - split_and!; vm_compute; reflexivity.
  - apply (controller_resized_after_context_init blank (640, 480)%Z es w 0).
    vm_compute. reflexivity.
Defined.

(** ** One listener for each set-up *)

Lemma outcome_listeners i s g e s' g' :
  outcome i s g e s' g' ->
  (resizeListeners g' = resizeListeners g /\
   (is_Some (renderer s') <-> is_Some (renderer s))) \/
  (s' = assembled s g /\ resizeListeners g' = resizeListeners g ++ [i] /\
   pc s = AwaitScript2).
Proof.
  intros Hout. inversion Hout; subst; clear Hout.
  all: try (right; split_and!; auto; fail).
  all: left; split; [first [reflexivity | assumption]|].
  all: unfold torn_down, shown; repeat case_match; cbn; rewrite ?fmap_is_Some; tauto.
Qed.

Lemma renderer_assembled s g : is_Some (renderer (assembled s g)).
Proof. unfold assembled. destruct (THREEx g ≫= initCompletesSync); cbn; eauto. Qed.

Lemma listeners_match_step w e w' :
  wired w -> listeners_match w -> transition w e w' -> listeners_match w'.
Proof.
  intros Hw [Hnd Hiff] Htr.
  destruct (transition_cases _ _ _ Hw Htr)
    as [[-> ->]|[[-> ->]|[(x & y & -> & ->)|[(ok & -> & ->)
                         |(k & s & s' & g' & m & Hcb & Hs & Hout & ->)]]]].
  - destruct (effect_cases (mkWorld (sessions w) (logged Mount w)))
      as [->|(c & _ & _ & ->)]; [split; assumption|].
    split; cbn; [exact Hnd|]. intros i. rewrite Hiff. split.
    + intros (s & Hs & Hr). exists s. split; [|exact Hr].
      apply lookup_app_l_Some. exact Hs.
    + intros (s & Hs & Hr). apply lookup_appended in Hs as [[-> ->]|[_ Hs]]; [|eauto].
      destruct Hr as [r Hr]. discriminate.
  - split; assumption.
  - split; assumption.
  - split; assumption.
  - destruct (handed_facts e k w) as (_ & _ & _ & Hls & _ & _).
    destruct (outcome_listeners _ _ _ _ _ _ Hout) as [[Hsame Hr]|(-> & Hadd & Hpc)].
    + split; cbn; rewrite Hsame, Hls; [exact Hnd|].
      intros i. rewrite Hiff. split.
      * intros (t & Ht & Hrt). destruct (decide (i = k)) as [->|Hne].
        -- exists s'. rewrite (lookup_update_same _ _ _ _ Hs).
           split; [reflexivity|]. apply Hr. congruence.
        -- exists t. rewrite lookup_update_other by auto. auto.
      * intros (t & Ht & Hrt). apply lookup_updated in Ht as [[-> ->]|[Hne Ht]]; [|eauto].
        exists s. split; [exact Hs | apply Hr; exact Hrt].
    + assert (Hfresh : k ∉ resizeListeners (globals w)).
      { intros Hin. apply Hiff in Hin as (t & Ht & [r Hr]).
        assert (t = s) by congruence. subst t.
        destruct Hw as (_ & _ & _ & HB & _).
        destruct (HB _ _ Hs) as (Hnone & _); congruence. }
      split; cbn; rewrite Hadd, Hls.
      * apply NoDup_app. split_and!; [exact Hnd | | apply NoDup_singleton].
        intros x Hx Hk. apply list_elem_of_singleton in Hk as ->. contradiction.
      * intros i. rewrite elem_of_app, list_elem_of_singleton, Hiff. split.
        -- intros [(t & Ht & Hrt)| ->].
           ++ destruct (decide (i = k)) as [->|Hne].
              ** eexists. rewrite (lookup_update_same _ _ _ _ Hs).
                 split; [reflexivity | apply renderer_assembled].
              ** exists t. rewrite lookup_update_other by auto. auto.
           ++ eexists. rewrite (lookup_update_same _ _ _ _ Hs).
              split; [reflexivity | apply renderer_assembled].
        -- intros (t & Ht & Hrt).
           apply lookup_updated in Ht as [[-> ->]|[Hne Ht]]; [right; reflexivity|].
           left. eauto.
Qed.

Lemma listeners_match_initial c sz : listeners_match (initial c sz).
Proof.
  split; cbn; [apply NoDup_nil_2|]. intros i. split.
  - intros Hin. inversion Hin.
  - intros (s & Hs & _). discriminate.
Qed.

(** X13. The window holds exactly one resize listener for each session
    whose set-up ran, and none for the others: the listener is added
    once, in the set-up, and nothing ever takes it away, also not the
    unmount that disposes the session's renderer.  So the listeners on
    the window are as many as the set-ups that ran on the page. *)
Theorem one_listener_per_set_up c sz es w :
  run es (initial c sz) = Some w ->
  NoDup (resizeListeners (globals w)) /\
  forall i, i ∈ resizeListeners (globals w) <->
            exists s, sessions w !! i = Some s /\ is_Some (renderer s).
Proof.
  intros Hrun.
  assert (H : wired w /\ listeners_match w).
  { apply (run_invariant (fun w => wired w /\ listeners_match w)
             (fun w0 e w1 H Htr =>
                conj (wired_step _ _ _ (proj1 H) Htr)
                     (listeners_match_step _ _ _ (proj1 H) (proj2 H) Htr))
             es (initial c sz) w
             (conj (wired_initial c sz) (listeners_match_initial c sz)) Hrun). }
  exact (proj2 H).
Qed.

(** Three mounts of the component, two of which ran their set-up and
    were unmounted again. *)
Lemma one_listener_per_set_up_witness :
  let es := Mount :: loaded 0 arjs ++ [Unmount 0; Mount] ++ loaded 1 arjs_sync
            ++ [Unmount 1; Mount] in
  let w := world_after es (initial blank (640, 480)%Z) in
  (run es (initial blank (640, 480)%Z) = Some w /\
   resizeListeners (globals w) = [0; 1] /\ length (sessions w) = 3) /\
  NoDup (resizeListeners (globals w)) /\
  forall i, i ∈ resizeListeners (globals w) <->
            exists s, sessions w !! i = Some s /\ is_Some (renderer s).
Proof.
  intros es w. split.
  - split_and!; vm_compute; reflexivity.
  - apply (one_listener_per_set_up blank (640, 480)%Z es w). vm_compute. reflexivity.
Defined.

(** ** A tracking source that is ready only later *)

Lemma no_frames_initial c sz : no_frames (initial c sz).
Proof.
  split_and!; cbn.
  - reflexivity.
  - intros p Hin. inversion Hin.
  - intros i sv cv Hin. inversion Hin.
Qed.

(** X14. The render loop starts only if the tracking source is ready
    when [animate] is first called, at the end of the set-up.  With a
    library whose source becomes ready after [init] has returned, the
    guard of line 159 returns before a frame is requested and nothing
    calls [animate] again: whatever the host delivers, no frame callback
    is ever scheduled, nothing is ever rendered, and the host has no
    frame to deliver. *)
Theorem render_loop_needs_source_ready_at_set_up c sz es w :
  run es (initial c sz) = Some w ->
  Forall async_event es ->
  (forall p, p ∈ pending (globals w) -> frame_handle p = None) /\
  (forall i sv cv, Did i (Render sv cv) ∉ trace (globals w)) /\
  (forall id, step (FrameFired id) w = None).
Proof.
  intros Hrun Has.
  pose proof (no_frame_without_sync_source es _ _ (no_frames_initial c sz) Hrun Has)
    as (_ & Hp & Hr).
  split_and!; auto.
  - intros id. unfold step, handle. cbn [sessions globals].
    change (pending (log (Host (FrameFired id)) (globals w))) with (pending (globals w)).
    unfold frame_owner.
    destruct (list_find _ (pending (globals w))) as [[k p]|] eqn:E; [|reflexivity].
    apply list_find_Some in E as (Hk & Hh & _).
    apply list_elem_of_lookup_2 in Hk. rewrite (Hp _ Hk) in Hh. discriminate.
Qed.

(** The source reports ready after the set-up; the timer then runs
    [onResize]; no frame was asked for. *)
Lemma render_loop_needs_source_ready_at_set_up_witness :
  let es := Mount :: loaded 0 arjs
            ++ [SourceReady 0 [mkTrack Live]; TimerFired 0; ContextReady 0 7] in
  let w := world_after es (initial blank (640, 480)%Z) in
  (run es (initial blank (640, 480)%Z) = Some w /\ Forall async_event es /\
   (ready <$> (sessions w !! 0 ≫= arToolkitSource)) = Some true) /\
  (forall p, p ∈ pending (globals w) -> frame_handle p = None) /\
  (forall i sv cv, Did i (Render sv cv) ∉ trace (globals w)) /\
  (forall id, step (FrameFired id) w = None).
Proof.
  intros es w.
  assert (Has : Forall async_event es) by (repeat constructor).
  split.
  - split_and!; [vm_compute; reflexivity | exact Has | vm_compute; reflexivity].
  - apply (render_loop_needs_source_ready_at_set_up blank (640, 480)%Z es w);
      [vm_compute; reflexivity | exact Has].
Defined.

(** ** The renderer after the set-up *)

(** A callback leaves the renderer's size alone and never undoes a
    disposal, unless it is the set-up creating the renderer. *)
Lemma outcome_renderer i s g e s' g' :
  outcome i s g e s' g' ->
  (forall r, renderer s = Some r ->
     exists r', renderer s' = Some r' /\ size r' = size r /\
                (disposed r = true -> disposed r' = true)) \/
  (s' = assembled s g /\ pc s = AwaitScript2).
Proof.
  intros Hout. inversion Hout; subst; clear Hout.
  all: try (right; split; auto; fail).
  all: left; intros r Hr; unfold torn_down, shown; repeat case_match; cbn;
    rewrite ?Hr; cbn; eexists; split_and!; try reflexivity; auto.
Qed.

Lemma renderer_kept_step w e w' i s r :
  wired w -> transition w e w' ->
  sessions w !! i = Some s -> renderer s = Some r ->
  exists s' r', sessions w' !! i = Some s' /\ renderer s' = Some r' /\
                size r' = size r /\ (disposed r = true -> disposed r' = true).
Proof.
  intros Hw Htr Hs Hr.
  destruct (transition_cases _ _ _ Hw Htr)
    as [[-> ->]|[[-> ->]|[(x & y & -> & ->)|[(ok & -> & ->)
                         |(k & t & t' & g' & m & Hcb & Ht & Hout & ->)]]]].
  - destruct (effect_cases (mkWorld (sessions w) (logged Mount w)))
      as [->|(c & _ & _ & ->)]; cbn.
    + exists s, r. auto.
    + exists s, r. split_and!; auto. apply lookup_app_l_Some. exact Hs.
  - exists s, r. auto.
  - exists s, r. auto.
  - exists s, r. auto.
  - destruct (decide (i = k)) as [->|Hne].
    + assert (t = s) by congruence. subst t. cbn.
      rewrite (lookup_update_same _ _ _ _ Hs).
      destruct (outcome_renderer _ _ _ _ _ _ Hout) as [Hkeep|[_ Hpc]].
      * destruct (Hkeep _ Hr) as (r' & Hr' & Hsz & Hd). exists t', r'. auto.
      * destruct Hw as (_ & _ & _ & HB & _).
        destruct (HB _ _ Hs) as (Hnone & _); congruence.
    + exists s, r. cbn. rewrite lookup_update_other by auto. auto.
Qed.

(** X15. The renderer of a session keeps the size the set-up gave it
    (the inner size of the window at that moment): neither a resize of
    the window nor any callback calls [setSize] again, [onResize] only
    copies the element size of the tracking source.  A renderer that
    was disposed stays disposed. *)
Theorem renderer_size_is_fixed c sz es w i s r es' w' :
  run es (initial c sz) = Some w ->
  sessions w !! i = Some s -> renderer s = Some r ->
  run es' w = Some w' ->
  exists s' r', sessions w' !! i = Some s' /\ renderer s' = Some r' /\
                size r' = size r /\ (disposed r = true -> disposed r' = true).
Proof.
  intros Hrun Hs Hr Hrun'. pose proof (reachable_wired _ _ _ _ Hrun) as Hw.
  clear Hrun. revert w s r Hw Hs Hr Hrun'.
  induction es' as [|e rest IH]; intros w s r Hw Hs Hr Hrun'; cbn in Hrun'.
  - injection Hrun' as <-. exists s, r. auto.
  - destruct (step e w) as [w1|] eqn:Hstep; [|discriminate].
    apply step_transition in Hstep.
    destruct (renderer_kept_step _ _ _ _ _ _ Hw Hstep Hs Hr)
      as (s1 & r1 & Hs1 & Hr1 & Hsz1 & Hd1).
    destruct (IH _ _ _ (wired_step _ _ _ Hw Hstep) Hs1 Hr1 Hrun')
      as (s2 & r2 & Hs2 & Hr2 & Hsz2 & Hd2).
    exists s2, r2. split_and!; auto. congruence.
Qed.

(** The window is resized after the set-up and the listener runs; the
    session is then unmounted and the window resized once more. *)
Lemma renderer_size_is_fixed_witness :
  let es := WindowResized 800 600 :: Mount :: loaded 0 arjs in
  let es' := [WindowResized 320 240; ResizeDispatched 0; Unmount 0;
              WindowResized 1024 768; ResizeDispatched 0] in
  let w := world_after es (initial blank (640, 480)%Z) in
  let w' := world_after es' w in
  let s := default closure (sessions w !! 0) in
  let r := mkRenderer false (800, 600)%Z in
  (run es (initial blank (640, 480)%Z) = Some w /\
   sessions w !! 0 = Some s /\ renderer s = Some r /\ run es' w = Some w' /\
   innerSize (globals w') = (1024, 768)%Z) /\
  exists s' r', sessions w' !! 0 = Some s' /\ renderer s' = Some r' /\
                size r' = size r /\ (disposed r = true -> disposed r' = true).
Proof.
  intros es es' w w' s r. split.
  - split_and!; vm_compute; reflexivity.
  - apply (renderer_size_is_fixed blank (640, 480)%Z es w 0 s r es' w');
      vm_compute; reflexivity.
Defined.

(** ** A script that fails to load *)

Lemma cleanup_calls_early i s g :
  Forall (fun x => exists a, x = Did i a /\ early_call a) (cleanup_calls i s g).
Proof.
  unfold cleanup_calls, early_call, marking.
  repeat apply Forall_app_2.
  - destruct (canvasRef g); repeat constructor.
    eexists. split; [reflexivity|]. cbn. split; [tauto | discriminate].
  - destruct (renderer s); repeat constructor.
    eexists. split; [reflexivity|]. cbn. split; [tauto | discriminate].
  - apply Forall_replicate. eexists. split; [reflexivity|]. cbn.
    split; [tauto | discriminate].
  - repeat constructor. eexists. split; [reflexivity|]. cbn.
    split; [tauto | discriminate].
Qed.

(** A callback that leaves its session without objects found it so, and
    made no set-up call. *)
Lemma outcome_bare i s g e s' g' :
  outcome i s g e s' g' -> bare s' ->
  bare s /\ (pc s = Returned -> pc s' = Returned) /\
  exists turn, trace g' = turn ++ trace g /\
               Forall (fun x => exists a, x = Did i a /\ early_call a) turn.
Proof.
  intros Hout Hb'. inversion Hout; subst; clear Hout.
  all: try (exfalso; eapply built_not_bare; [|exact Hb']; is_built; fail).
  all: try (exfalso; destruct Hb' as (_ & Hsc & _); discriminate Hsc).
  - split_and!; [|auto|exists (cleanup_calls i s g); split;
                       [reflexivity | apply cleanup_calls_early]].
    destruct Hb' as (E1 & E2 & E3 & E4 & E5 & E6 & E7). cbn in *.
    apply fmap_None in E1, E4. split_and!; assumption.
  - split_and!; [exact Hb' | congruence |].
    eexists [_]. split; [reflexivity|]. repeat constructor.
    eexists. split; [reflexivity|]. unfold early_call, marking. cbn.
    split; [tauto | discriminate].
  - split_and!; [exact Hb' | auto |]. exists []. split; [reflexivity | constructor].
  - split_and!; [exact Hb' | auto |].
    eexists [_]. split; [reflexivity|]. repeat constructor.
    eexists. split; [reflexivity|]. unfold early_call, marking. cbn.
    split; [tauto | discriminate].
  - split_and!; [exact Hb' | auto |].
    eexists [_]. split; [reflexivity|]. repeat constructor.
    eexists. split; [reflexivity|]. unfold early_call, marking. cbn.
    split; [tauto | discriminate].
  - assert (Hs : camera s = None).
    { destruct (camera s) eqn:E; [|reflexivity].
      destruct Hb' as (_ & _ & Hc & _). unfold shown in Hc. rewrite E in Hc.
      discriminate. }
    unfold shown in *. rewrite Hs in *.
    split_and!; [exact Hb' | auto |]. exists []. split; [reflexivity | constructor].
Qed.

(** A session without objects whose [initAR] has finished stays so. *)
Lemma outcome_spent i s g e s' g' :
  outcome i s g e s' g' -> bare s -> pc s = Returned ->
  bare s' /\ pc s' = Returned.
Proof.
  intros Hout Hb Hp. inversion Hout; subst; clear Hout; try congruence.
  all: try (exfalso; eapply built_not_bare; eauto; fail).
  - split; [is_bare Hb | exact Hp].
  - rewrite Hp in *. discriminate.
  - rewrite (shown_bare _ _ Hb). auto.
Qed.

Lemma unbuilt_log w e :
  unbuilt w ->
  unbuilt (mkWorld (sessions w) (logged e w)) \/ exists i src, e = ScriptError i src.
Proof.
  intros (J0 & J & K).
  destruct e; try (right; eauto; fail); left.
  all: split_and!; cbn.
  all: try (intros j Hj a Hin; apply elem_of_cons in Hin as [Hin|Hin];
            [discriminate | eapply J0; eauto]).
  all: try (intros j t Ht Hb a Hin; apply elem_of_cons in Hin as [Hin|Hin];
            [discriminate | eapply J; eauto]).
  all: intros j sc Hin; apply elem_of_cons in Hin as [Hin|Hin]; [discriminate|];
    destruct (K _ _ Hin) as (t & Ht & Hp & Hb & Hc);
    exists t; split_and!; auto; apply list_elem_of_further; exact Hc.
Qed.

Lemma unbuilt_step w e w' :
  wired w -> unbuilt w -> transition w e w' -> unbuilt w'.
Proof.
  intros Hw Hu Htr. pose proof Hu as (J0 & J & K).
  destruct (transition_cases _ _ _ Hw Htr)
    as [[-> ->]|[[-> ->]|[(x & y & -> & ->)|[(ok & -> & ->)
                         |(k & s & s' & g' & m & Hcb & Hs & Hout & ->)]]]].
  - destruct (unbuilt_log w Mount Hu) as [(L0 & L & LK)|(? & ? & ?)]; [|discriminate].
    destruct (effect_cases (mkWorld (sessions w) (logged Mount w)))
      as [->|(c & _ & _ & ->)]; [split_and!; assumption|].
    cbn in *. split_and!; cbn.
    + intros i Hi a Hin. apply lookup_ge_None in Hi. rewrite length_app in Hi.
      cbn in Hi.
      do 2 (apply elem_of_cons in Hin as [Hin|Hin]; [injection Hin as -> _; lia|]).
      eapply L0; [|exact Hin]. apply lookup_ge_None. lia.
    + intros i s Hs Hb a Hin.
      apply lookup_appended in Hs as [[-> ->]|[Hlt Hs]].
      * do 2 (apply elem_of_cons in Hin as [Hin|Hin];
              [injection Hin as ->; unfold early_call, marking; cbn;
               split; [tauto | discriminate]|]).
        exfalso. eapply L0; [|exact Hin]. apply lookup_ge_None. lia.
      * do 2 (apply elem_of_cons in Hin as [Hin|Hin]; [injection Hin as -> _; lia|]).
        eapply L; eauto.
    + intros i src Hin.
      do 2 (apply elem_of_cons in Hin as [Hin|Hin]; [discriminate|]).
      destruct (LK _ _ Hin) as (s & Hs & Hp & Hb & Hc).
      exists s. split_and!; auto; [apply lookup_app_l_Some; exact Hs|].
      do 2 apply list_elem_of_further. exact Hc.
  - destruct (unbuilt_log w RefDetach Hu) as [H|(? & ? & ?)]; [exact H | discriminate].
  - destruct (unbuilt_log w (WindowResized x y) Hu) as [H|(? & ? & ?)];
      [exact H | discriminate].
  - destruct (unbuilt_log w (WebGLSupport ok) Hu) as [H|(? & ? & ?)];
      [exact H | discriminate].
  - destruct (handed_facts e k w) as (_ & _ & _ & _ & Htrace & _).
    destruct (outcome_entries _ _ _ _ _ _ Hout) as (turn & Heq & Hown).
    rewrite Forall_forall in Hown.
    assert (Hmine : forall i a, Did i a ∈ trace g' ->
              (i = k /\ Did i a ∈ turn) \/ Did i a ∈ trace (globals w)).
    { intros i a Hin. rewrite Heq, Htrace in Hin.
      apply elem_of_app in Hin as [Hin|Hin].
      - left. destruct (Hown _ Hin) as (b & Hb). injection Hb as -> _. auto.
      - apply elem_of_cons in Hin as [Hin|Hin]; [discriminate | auto]. }
    assert (Hold : forall x, x ∈ trace (globals w) -> x ∈ trace g').
    { intros x Hx. rewrite Heq, Htrace. apply elem_of_app. right.
      apply list_elem_of_further. exact Hx. }
    split_and!; cbn.
    + intros i Hi a Hin.
      assert (Hne : i <> k).
      { intros ->. rewrite (lookup_update_same _ _ _ _ Hs) in Hi. discriminate. }
      rewrite lookup_update_other in Hi by exact Hne.
      destruct (Hmine _ _ Hin) as [[-> _]|Hin']; [congruence|].
      eapply J0; eauto.
    + intros i t Ht Hb a Hin.
      apply lookup_updated in Ht as [[-> ->]|[Hne Ht]].
      * destruct (outcome_bare _ _ _ _ _ _ Hout Hb) as (Hbs & _ & turn' & Heq' & Hearly).
        assert (turn' = turn) by (eapply app_inv_tail; rewrite <- Heq, <- Heq'; reflexivity).
        subst turn'. rewrite Forall_forall in Hearly.
        destruct (Hmine _ _ Hin) as [[_ Hin']|Hin'].
        -- destruct (Hearly _ Hin') as (b & Hb1 & Hb2). injection Hb1 as ->. exact Hb2.
        -- eapply J; eauto.
      * destruct (Hmine _ _ Hin) as [[-> _]|Hin']; [congruence|].
        eapply J; eauto.
    + intros i src Hin. rewrite Heq, Htrace in Hin.
      apply elem_of_app in Hin as [Hin|Hin];
        [destruct (Hown _ Hin) as (b & Hb); discriminate|].
      apply elem_of_cons in Hin as [Hin|Hin].
      * injection Hin as <-. inversion Hout; subst; clear Hout.
        assert (Hbs : bare s).
        { destruct Hw as (_ & _ & _ & HB & _). apply (HB _ _ Hs).
          intros Hp. lazymatch goal with H : awaited (pc s) = _ |- _ => rewrite Hp in H end.
          discriminate. }
        exists (set_pc Returned s). rewrite (lookup_update_same _ _ _ _ Hs).
        split_and!; [reflexivity | reflexivity | exact Hbs | apply list_elem_of_here].
      * destruct (K _ _ Hin) as (t & Ht & Hp & Hb & Hc).
        destruct (decide (i = k)) as [->|Hne].
        -- assert (t = s) by congruence. subst t.
           destruct (outcome_spent _ _ _ _ _ _ Hout Hb Hp) as [Hb' Hp'].
           exists s'. rewrite (lookup_update_same _ _ _ _ Hs). split_and!; auto.
        -- exists t. rewrite lookup_update_other by auto. split_and!; auto.
Qed.

Lemma unbuilt_initial c sz : unbuilt (initial c sz).
Proof.
  split_and!; cbn.
  - intros i _ a Hin. inversion Hin.
  - intros i s Hs. discriminate.
  - intros i src Hin. inversion Hin.
Qed.

(** X16. When either script of a session fails to load, [initAR] logs
    the failure and returns, and that session never does anything more:
    it never marks the surface, never makes a set-up call, keeps no
    renderer, scene, camera or tracking object, and the host never holds
    a callback or a resize listener of it. *)
Theorem failed_script_load_aborts c sz es w i src :
  run es (initial c sz) = Some w ->
  Host (ScriptError i src) ∈ trace (globals w) ->
  (exists s, sessions w !! i = Some s /\ pc s = Returned /\ bare s) /\
  Did i (ConsoleError ("Failed to load script: " ++ src)) ∈ trace (globals w) /\
  (Did i marking ∉ trace (globals w)) /\
  (forall a, setup_action a -> Did i a ∉ trace (globals w)) /\
  (forall p, p ∈ pending (globals w) -> owner p <> i) /\
  (i ∉ resizeListeners (globals w)).
Proof.
  intros Hrun Hin.
  assert (H : wired w /\ unbuilt w).
  { apply (run_invariant (fun w => wired w /\ unbuilt w)
             (fun w0 e w1 H Htr =>
                conj (wired_step _ _ _ (proj1 H) Htr)
                     (unbuilt_step _ _ _ (proj1 H) (proj2 H) Htr))
             es (initial c sz) w
             (conj (wired_initial c sz) (unbuilt_initial c sz)) Hrun). }
  destruct H as ((HP & HL & _) & (_ & J & K)).
  destruct (K _ _ Hin) as (s & Hs & Hp & Hb & Hc).
  split_and!; auto.
  - exists s. auto.
  - intros Hm. destruct (J _ _ Hs Hb _ Hm) as [_ Hne]. congruence.
  - intros a Ha Hm. destruct (J _ _ Hs Hb _ Hm) as [Hno _]. contradiction.
  - intros p Hp' Hown. destruct (HP _ Hp') as (t & Ht & Hbt).
    rewrite Hown in Ht. assert (t = s) by congruence. subst t.
    eapply built_not_bare; eauto.
  - intros Hl. destruct (HL _ Hl) as (t & Ht & Hbt).
    assert (t = s) by congruence. subst t. eapply built_not_bare; eauto.
Qed.

(** The second script of a session fails; the session is later
    unmounted, and another session sets itself up. *)
Lemma failed_script_load_aborts_witness :
  let es := [Mount; ScriptLoaded 0 ar_js (Some arjs); ScriptError 0 ar_threex_js;
             Mount] ++ loaded 1 arjs ++ [Unmount 0] in
  let w := world_after es (initial blank (640, 480)%Z) in
  (run es (initial blank (640, 480)%Z) = Some w /\
   Host (ScriptError 0 ar_threex_js) ∈ trace (globals w)) /\
  (exists s, sessions w !! 0 = Some s /\ pc s = Returned /\ bare s) /\
  Did 0 (ConsoleError ("Failed to load script: " ++ ar_threex_js)) ∈ trace (globals w) /\
  (Did 0 marking ∉ trace (globals w)) /\
  (forall a, setup_action a -> Did 0 a ∉ trace (globals w)) /\
  (forall p, p ∈ pending (globals w) -> owner p <> 0) /\
  (0 ∉ resizeListeners (globals w)).
Proof.
  intros es w.
  assert (Hin : Host (ScriptError 0 ar_threex_js) ∈ trace (globals w))
    by (vm_compute; here).
  split.
  - split; [vm_compute; reflexivity | exact Hin].
  - apply (failed_script_load_aborts blank (640, 480)%Z es w 0 ar_threex_js);
      [vm_compute; reflexivity | exact Hin].
Defined.

(** ** A host without WebGL *)

(** X17. When the second script has loaded for a mounted session, the
    ref holds the canvas and the three entry points exist, but the host
    has no WebGL context to give, the set-up marks the surface, makes
    the scene and the camera and stops at the renderer's constructor
    (line 103): the exception is reported, the session keeps its scene
    and camera and nothing else, the host is handed no callback and no
    listener, and the surface stays marked, so that a further mount
    does nothing. *)
Theorem setup_stops_without_webgl w i s lib :
  sessions w !! i = Some s -> pc s = AwaitScript2 -> isMounted s = true ->
  is_Some (canvasRef (globals w)) -> entry_points lib ->
  webgl (globals w) = false ->
  exists w',
    step (ScriptLoaded i ar_threex_js lib) w = Some w' /\
    sessions w' = <[i:=begun s]> (sessions w) /\
    canvasRef (globals w') = Some (mkCanvas (Some "true")) /\
    trace (globals w') =
      stopped_at_renderer i
      ++ Did i marking :: Host (ScriptLoaded i ar_threex_js lib) :: trace (globals w) /\
    pending (globals w') = pending (globals w) /\
    resizeListeners (globals w') = resizeListeners (globals w) /\
    step Mount w' = Some (mkWorld (sessions w') (log (Host Mount) (globals w'))).
Proof.
  intros Hs Hp Hm Hc Hep Hgl.
  set (g := set_THREEx lib (log (Host (ScriptLoaded i ar_threex_js lib)) (globals w))).
  destruct (initAR_setup_failed i s g) as (g' & Heq & Hcv & _ & _ & Hpend & _ & Hls & _ & Ht);
    [exact Hm | exact Hc | exact Hep | exact Hgl |].
  eexists. split.
  - rewrite (step_script2 _ _ s) by assumption.
    unfold run_in. cbn [sessions globals]. rewrite Hs. fold g. rewrite Heq. reflexivity.
  - cbn [sessions globals]. split_and!; try assumption; try reflexivity.
    unfold step, handle, effect. cbn. rewrite Hcv. reflexivity.
Qed.

(** A page opened on a host that has no WebGL. *)
Lemma setup_stops_without_webgl_witness :
  let w := world_after [WebGLSupport false; Mount; ScriptLoaded 0 ar_js (Some arjs)]
                       (initial blank (640, 480)%Z) in
  let s := set_pc AwaitScript2 closure in
  (sessions w !! 0 = Some s /\ pc s = AwaitScript2 /\ isMounted s = true /\
   is_Some (canvasRef (globals w)) /\ entry_points (Some arjs) /\
   webgl (globals w) = false) /\
  exists w',
    step (ScriptLoaded 0 ar_threex_js (Some arjs)) w = Some w' /\
    sessions w' = <[0:=begun s]> (sessions w) /\
    canvasRef (globals w') = Some (mkCanvas (Some "true")) /\
    trace (globals w') =
      stopped_at_renderer 0
      ++ Did 0 marking :: Host (ScriptLoaded 0 ar_threex_js (Some arjs))
         :: trace (globals w) /\
    pending (globals w') = pending (globals w) /\
    resizeListeners (globals w') = resizeListeners (globals w) /\
    step Mount w' = Some (mkWorld (sessions w') (log (Host Mount) (globals w'))).
Proof.
  intros w s.
  assert (Hc : is_Some (canvasRef (globals w))) by (eexists; vm_compute; reflexivity).
  assert (Hep : entry_points (Some arjs)) by (split_and!; reflexivity).
  split.
  - split_and!; try (vm_compute; reflexivity); assumption.
  - apply (setup_stops_without_webgl w 0 s (Some arjs));
      try (vm_compute; reflexivity); assumption.
Defined.

(** ** The camera after an early unmount *)

Lemma abandoned_step w e w' i stream :
  wired w -> abandoned w i stream -> transition w e w' -> abandoned w' i stream.
Proof.
  intros Hw (s & Hs & Hm & Hp & Hsrc & Hno) Htr.
  destruct (transition_cases _ _ _ Hw Htr)
    as [[-> ->]|[[-> ->]|[(x & y & -> & ->)|[(ok & -> & ->)
                         |(k & t & t' & g' & m & Hcb & Ht & Hout & ->)]]]].
  - destruct (effect_cases (mkWorld (sessions w) (logged Mount w)))
      as [->|(c & _ & _ & ->)]; cbn.
    + exists s. auto.
    + exists s. split_and!; auto. apply lookup_app_l_Some. exact Hs.
  - exists s. auto.
  - exists s. auto.
  - exists s. auto.
  - destruct (handed_facts e k w) as (_ & _ & _ & _ & _ & Hpend).
    destruct (decide (k = i)) as [->|Hne].
    + assert (t = s) by congruence. subst t.
      assert (Hheld : forall str, e = SourceReady i str -> False).
      { intros str ->. inversion Hcb. contradiction. }
      inversion Hout; subst; clear Hout; try congruence.
      all: try (rewrite Hp in *; discriminate).
      all: try (exfalso; eapply Hheld; reflexivity).
      all: eexists; cbn; rewrite (lookup_update_same _ _ _ _ Hs);
        (split; [reflexivity|]); unfold shown; repeat case_match; cbn;
        split_and!; auto.
      all: intros Hin; cbn in Hin;
        rewrite ?elem_of_app, ?list_elem_of_filter, ?list_elem_of_singleton in Hin;
        apply Hno; apply Hpend; intuition congruence.
    + exists s. cbn. rewrite lookup_update_other by auto. split_and!; auto.
      intros Hin. destruct (outcome_pending _ _ _ _ _ _ _ Hout Hin) as [Hold|[Hown _]].
      * apply Hno, Hpend, Hold.
      * cbn in Hown. congruence.
Qed.

Lemma abandoned_run es :
  forall w w' i stream, wired w -> abandoned w i stream -> run es w = Some w' ->
    abandoned w' i stream.
Proof.
  induction es as [|e rest IH]; intros w w' i stream Hw Ha Hrun; cbn in Hrun.
  - injection Hrun as <-. exact Ha.
  - destruct (step e w) as [w1|] eqn:Hstep; [|discriminate].
    apply step_transition in Hstep.
    eapply IH; [eapply wired_step; eauto | eapply abandoned_step; eauto | exact Hrun].
Qed.

(** C2 does not hold of the code.  The cleanup stops the tracks of the
    stream that is attached to the video element when it runs (lines
    177-180).  A session unmounted while the camera is still starting
    has no stream yet, so nothing is stopped; when the tracking source
    then reports ready, the library has attached the live stream and
    the callback of line 130 runs without looking at [isMounted].  The
    session is unmounted, its camera track is live, the cleanup cannot
    run a second time, and whatever the host delivers afterwards the
    track stays live. *)
Theorem camera_live_after_unmount :
  let es := Mount :: loaded 0 arjs ++ [Unmount 0; SourceReady 0 [mkTrack Live]] in
  exists w s,
    run es (initial blank (640, 480)%Z) = Some w /\
    sessions w !! 0 = Some s /\
    isMounted s = false /\
    arToolkitSource s = Some (mkSource true (Some (mkVideo (Some [mkTrack Live])))) /\
    ~ stopped s /\
    step (Unmount 0) w = None /\
    (Did 0 TrackStop ∉ trace (globals w)) /\
    forall es' w', run es' w = Some w' ->
      exists s', sessions w' !! 0 = Some s' /\ isMounted s' = false /\
        arToolkitSource s' = Some (mkSource true (Some (mkVideo (Some [mkTrack Live])))) /\
        ~ stopped s'.
Proof.
  intros es.
  pose (w := world_after es (initial blank (640, 480)%Z)).
  assert (Hrun : run es (initial blank (640, 480)%Z) = Some w) by (vm_compute; reflexivity).
  assert (Hlive : forall s,
            arToolkitSource s = Some (mkSource true (Some (mkVideo (Some [mkTrack Live])))) ->
            ~ stopped s).
  { intros s Hsrc Hst.
    specialize (Hst _ _ _ (mkTrack Live) Hsrc eq_refl eq_refl (list_elem_of_here _ _)).
    discriminate. }
  exists w, (default closure (sessions w !! 0)).
  split_and!; try (vm_compute; reflexivity).
  - apply Hlive. vm_compute. reflexivity.
  - intros Hin. vm_compute in Hin. absent Hin.
  - intros es' w' Hrun'.
    assert (Ha : abandoned w 0 [mkTrack Live]).
    { eexists. split_and!; try (vm_compute; reflexivity).
      intros Hin. vm_compute in Hin. absent Hin. }
    destruct (abandoned_run _ _ _ _ _ (reachable_wired _ _ _ _ Hrun) Ha Hrun')
      as (s' & Hs' & Hm' & _ & Hsrc' & _).
    exists s'. split_and!; auto.
Qed.

(** After the late stream the timer fires, the window is resized and
    the component is mounted again: the track of the first session is
    still live. *)
Lemma camera_live_after_unmount_witness :
  let es := Mount :: loaded 0 arjs ++ [Unmount 0; SourceReady 0 [mkTrack Live]] in
  let es' := [TimerFired 0; ResizeDispatched 0; Mount] ++ loaded 1 arjs in
  let w' := world_after (es ++ es') (initial blank (640, 480)%Z) in
  exists s', sessions w' !! 0 = Some s' /\ isMounted s' = false /\
    arToolkitSource s' = Some (mkSource true (Some (mkVideo (Some [mkTrack Live])))) /\
    ~ stopped s'.
Proof.
  intros es es' w'.
  destruct camera_live_after_unmount as (w & s & Hrun & _ & _ & _ & _ & _ & _ & Hlater).
  apply (Hlater es' w'). vm_compute in Hrun. injection Hrun as <-.
  vm_compute. reflexivity.
Defined.

(** * Further properties of the server *)

Lemma on_listening_logs err x :
  x ∈ Startup.calls (Startup.on_listening err) -> exists msg, x = Startup.ConsoleLog msg.
Proof.
  destruct err; cbn; intros Hin; [inversion Hin|].
  repeat (apply elem_of_cons in Hin as [->|Hin]; [eexists; reflexivity|]).
  inversion Hin.
Qed.

(** Membership in the calls of a run that are written out. *)
Ltac among Hin :=
  repeat (apply elem_of_cons in Hin as [Hin|Hin]; [try discriminate Hin|]);
  try (apply elem_of_nil in Hin; contradiction);
  try (apply on_listening_logs in Hin as [? Hin]; discriminate Hin).

(** X12. The server is created only after the key and the certificate
    were both read and the app was prepared, with exactly what was read,
    and it then listens on port 3000 of every interface.  When the key
    cannot be read the script ends there: the certificate is not read,
    the app is not prepared and nothing listens.  The framework runs in
    development mode unless [NODE_ENV] is exactly [production]. *)
Theorem server_needs_tls_files_and_prepare
    (NODE_ENV : option string) (dirname : string) (join : string -> string -> string)
    (readFileSync : string -> Result string) (prepare : Result unit)
    (listening : option string) :
  let run := Startup.main NODE_ENV dirname join readFileSync prepare listening in
  let key_path := Startup.key_path dirname join in
  let cert_path := Startup.cert_path dirname join in
  ((exists k c, Startup.CreateServer k c ∈ Startup.calls run) <->
   (exists key cert, readFileSync key_path = Ok key /\
                     readFileSync cert_path = Ok cert /\ prepare = Ok tt)) /\
  (forall k c, Startup.CreateServer k c ∈ Startup.calls run ->
     readFileSync key_path = Ok k /\ readFileSync cert_path = Ok c /\
     Startup.Listen 3000 "0.0.0.0" ∈ Startup.calls run) /\
  (forall p h, Startup.Listen p h ∈ Startup.calls run -> p = 3000%Z /\ h = "0.0.0.0") /\
  (forall e, readFileSync key_path = Throw e ->
     Startup.calls run =
       [Startup.Next (Startup.dev NODE_ENV); Startup.GetRequestHandler;
        Startup.ReadFileSync key_path] /\
     Startup.thrown run = Some e) /\
  (Startup.Next false ∈ Startup.calls run <-> NODE_ENV = Some "production").
Proof.
  intros run key_path cert_path. subst run. unfold Startup.main.
  fold key_path cert_path.
  assert (Hdev : forall rest,
            (forall x, x ∈ rest -> forall b, x <> Startup.Next b) ->
            Startup.Next false ∈ Startup.Next (Startup.dev NODE_ENV) :: rest <->
            NODE_ENV = Some "production").
  { intros rest Hrest. unfold Startup.dev. split.
    - intros Hin. apply elem_of_cons in Hin as [Hin|Hin].
      + injection Hin as Hin. symmetry in Hin.
        apply Bool.negb_false_iff, bool_decide_eq_true in Hin. exact Hin.
      + exfalso. eapply Hrest; eauto.
    - intros ->. apply list_elem_of_here. }
  destruct (readFileSync key_path) as [key|e1] eqn:Hk;
    [destruct (readFileSync cert_path) as [cert|e2] eqn:Hc;
     [destruct prepare as [[]|e3] eqn:Hp|]|].
  all: cbn [Startup.calls Startup.thrown app].
  - split_and!.
    + split; [intros _; eauto | intros _; eexists _, _; here].
    + intros k c Hin. among Hin. injection Hin as -> ->.
      split_and!; [reflexivity | reflexivity | here].
    + intros p h Hin. among Hin. injection Hin as -> ->. auto.
    + intros e He. discriminate.
    + apply Hdev. intros x Hin b ->. among Hin.
  - split_and!.
    + split; [intros (k & c & Hin); among Hin | intros (k & c & _ & _ & H); discriminate].
    + intros k c Hin. among Hin.
    + intros p h Hin. among Hin.
    + intros e He. discriminate.
    + apply Hdev. intros x Hin b ->. among Hin.
  - split_and!.
    + split; [intros (k & c & Hin); among Hin | intros (k & c & _ & H & _); discriminate].
    + intros k c Hin. among Hin.
    + intros p h Hin. among Hin.
    + intros e He. discriminate.
    + apply Hdev. intros x Hin b ->. among Hin.
  - split_and!.
    + split; [intros (k & c & Hin); among Hin | intros (k & c & H & _); discriminate].
    + intros k c Hin. among Hin.
    + intros p h Hin. among Hin.
    + intros e He. injection He as <-. split; reflexivity.
    + apply Hdev. intros x Hin b ->. among Hin.
Qed.

(** A machine with the key but without the certificate. *)
Lemma server_needs_tls_files_and_prepare_witness :
  let join := fun d n : string => String.append d (String.append "/" n) in
  let readFileSync := fun p : string =>
    if String.eqb p "/srv/localhost+3-key.pem" then Ok "KEY"
    else Throw (String.append "ENOENT: " p) in
  let run := Startup.main (Some "production") "/srv" join readFileSync (Ok tt) None in
  Startup.calls run =
    [Startup.Next false; Startup.GetRequestHandler;
     Startup.ReadFileSync "/srv/localhost+3-key.pem";
     Startup.ReadFileSync "/srv/localhost+3.pem"] /\
  ~ (exists k c, Startup.CreateServer k c ∈ Startup.calls run).
Proof.
  intros join readFileSync run. split; [reflexivity|].
  destruct (server_needs_tls_files_and_prepare
              (Some "production") "/srv" join readFileSync (Ok tt) None) as (H & _).
  intros Hex. apply H in Hex as (k & c & _ & Hc & _). discriminate.
Defined.
